(** * MiniYOLAF: box decoding, confidence filtering and greedy NMS

    A shallow embedding of [models/MiniYOLAF.py]: the anchor grid
    ([create_grid]), the box decoder ([decode_xywh], [decode_boxes]), the
    inference branch of [forward] up to the clamp, [nms] and [postprocess].

    Numbers.  Tensor and array entries are modelled as exact rationals [Q];
    rounding and overflow of machine floats are not modelled.  The one place
    where the source can divide by zero, the IoU quotient of [nms], is
    modelled with the IEEE outcomes written out ([fval]).  [torch.sigmoid] and
    [torch.exp] are functions on representable numbers and are taken as
    parameters [sigmoid exp : Q -> Q].

    Arrays.  A numpy or torch array is a list, a 2-d array a list of rows;
    indexing out of range raises, as in the source ([idx], [gather]). *)

From Stdlib Require Import QArith Qminmax Lia Lqa.
From stdpp Require Import base list sorting.

Local Open Scope Q_scope.

(** ** Exceptions and results *)

(** The Python exceptions the modelled code can raise.  [OutOfFuel] is not a
    Python exception: it is the answer of a bounded loop of the model whose
    bound was too small. *)
Inductive exn : Set := IndexError | RuntimeError | OutOfFuel.

Inductive result (A : Type) : Type :=
| Ok (a : A)
| Raise (e : exn).
Arguments Ok {A} a.
Arguments Raise {A} e.

#[global] Instance result_ret : MRet result := λ A a, Ok a.
#[global] Instance result_bind : MBind result := λ A B f m,
  match m with Ok a => f a | Raise e => Raise e end.

Definition is_Ok {A} (r : result A) : Prop := ∃ a, r = Ok a.

(** ** Array primitives *)

Module Arr.

(** [a[i]] *)
Definition idx {A} (a : list A) (i : nat) : result A :=
  match a !! i with Some x => Ok x | None => Raise IndexError end.

(** Elementwise application of an operation that can raise. *)
Fixpoint mapR {A B} (f : A → result B) (l : list A) : result (list B) :=
  match l with
  | [] => Ok []
  | x :: l' => y ← f x; ys ← mapR f l'; Ok (y :: ys)
  end.

Fixpoint zipR {A B C} (f : A → B → result C) (xs : list A) (ys : list B)
  : result (list C) :=
  match xs, ys with
  | x :: xs', y :: ys' => c ← f x y; cs ← zipR f xs' ys'; Ok (c :: cs)
  | _, _ => Ok []
  end.

(** [a[js]] for an integer index array [js] *)
Definition gather {A} (a : list A) (js : list nat) : result (list A) :=
  mapR (idx a) js.

(** A binary operation along one dimension under the broadcasting rule:
    the sizes are equal, or one of them is 1; anything else raises. *)
Definition bcast {A B C} (f : A → B → result C) (xs : list A) (ys : list B)
  : result (list C) :=
  if decide (length xs = length ys) then zipR f xs ys
  else if decide (length xs = 1%nat) then x ← idx xs 0; mapR (f x) ys
  else if decide (length ys = 1%nat) then y ← idx ys 0; mapR (λ x, f x y) xs
  else Raise RuntimeError.

(** [np.where(cond)[0]] on a 1-d array: the positions where [cond] holds,
    ascending.  [np_where_from k] numbers the positions from [k]. *)
Fixpoint np_where_from {A} (cond : A → bool) (k : nat) (a : list A) : list nat :=
  match a with
  | [] => []
  | x :: a' =>
      if cond x then k :: np_where_from cond (S k) a'
      else np_where_from cond (S k) a'
  end.
Definition np_where {A} (cond : A → bool) (a : list A) : list nat :=
  np_where_from cond 0 a.

(** [a[js] = v] for an integer index array [js] *)
Fixpoint scatter {A} (a : list A) (js : list nat) (v : A) : result (list A) :=
  match js with
  | [] => Ok a
  | j :: js' =>
      if decide (j < length a)%nat then scatter (<[j:=v]> a) js' v
      else Raise IndexError
  end.

End Arr.
Import Arr.

(** ** IEEE quotient *)

(** The value of a float division [a / b] of finite operands. *)
Inductive fval : Set := Fin (q : Q) | PInf | NInf | NaN.

Definition fdiv (a b : Q) : fval :=
  if Qeq_bool b 0 then
    (if Qle_bool a 0 then (if Qeq_bool a 0 then NaN else NInf) else PInf)
  else Fin (a / b).

(** [v <= t] for a finite [t]: false on [NaN] and [+inf]. *)
Definition fle (v : fval) (t : Q) : bool :=
  match v with
  | Fin q => Qle_bool q t
  | NInf => true
  | PInf | NaN => false
  end.

(** ** Boxes *)

(** A row [xmin, ymin, xmax, ymax] of a [N,4] array. *)
Record box : Set := Box { bx1 : Q; by1 : Q; bx2 : Q; by2 : Q }.

(** The floor of the intersection width and height in [nms]. *)
Definition eps : Q := 1 # 10000000000000000000000000000.

(** ** argsort *)

Module Sort.

(** [scores.argsort()] with numpy's default kind.  For arrays of at most 16
    elements numpy's introsort is this insertion sort on the index array:
    the indices are taken left to right and each moves left past the
    indices of strictly greater score ([LT(vp, v[*pk])]).  For longer
    arrays numpy leaves the order of equal scores unspecified; the
    theorems on [nms] other than the tie order use only that the result is
    a permutation of the indices in ascending score order.

    [ins v vi rpre]: [rpre] is the sorted prefix read from its right end. *)
Fixpoint ins (v : nat → Q) (vi : nat) (rpre : list nat) : list nat :=
  match rpre with
  | pk :: rest =>
      if Qlt_le_dec (v vi) (v pk) then pk :: ins v vi rest else vi :: rpre
  | [] => [vi]
  end.

Definition score_at (scores : list Q) (i : nat) : Q := default 0 (scores !! i).

Definition argsort (scores : list Q) : list nat :=
  reverse (foldl (λ rpre i, ins (score_at scores) i rpre) [] (seq 0 (length scores))).

End Sort.
Import Sort.

(** ** NMS *)

Module NMS.
Section WithThreshold.

(** [self.nms_thresh] *)
Variable nms_thresh : Q.

(** The loop state of [nms]: the remaining [order] and [keep]. *)
Record loop_state : Set := LoopState { order : list nat; keep : list nat }.

(** One pass through the body of [while order.size > 0]. *)
Definition nms_body (x1 y1 x2 y2 areas : list Q) (st : loop_state) : result loop_state :=
  i ← idx (order st) 0;
  let keep' := keep st ++ [i] in
  let rest := drop 1 (order st) in
  x1i ← idx x1 i; x1r ← gather x1 rest;
  let xx1 := Qmax x1i <$> x1r in
  y1i ← idx y1 i; y1r ← gather y1 rest;
  let yy1 := Qmax y1i <$> y1r in
  x2i ← idx x2 i; x2r ← gather x2 rest;
  let xx2 := Qmin x2i <$> x2r in
  y2i ← idx y2 i; y2r ← gather y2 rest;
  let yy2 := Qmin y2i <$> y2r in
  let w := Qmax eps <$> zip_with Qminus xx2 xx1 in
  let h := Qmax eps <$> zip_with Qminus yy2 yy1 in
  let inter := zip_with Qmult w h in
  ai ← idx areas i; ar ← gather areas rest;
  let ovr := zip_with fdiv inter (zip_with Qminus (Qplus ai <$> ar) inter) in
  let inds := np_where (λ o, fle o nms_thresh) ovr in
  order' ← gather (order st) ((λ k, k + 1)%nat <$> inds);
  Ok (LoopState order' keep').

(** [while order.size > 0: body], at most [fuel] passes. *)
Fixpoint nms_while (fuel : nat) (x1 y1 x2 y2 areas : list Q) (st : loop_state)
  : result loop_state :=
  match order st with
  | [] => Ok st
  | _ :: _ =>
      match fuel with
      | O => Raise OutOfFuel
      | S fuel' =>
          st' ← nms_body x1 y1 x2 y2 areas st;
          nms_while fuel' x1 y1 x2 y2 areas st'
      end
  end.

Definition nms_fuel (fuel : nat) (dets : list box) (scores : list Q) : result (list nat) :=
  let x1 := bx1 <$> dets in
  let y1 := by1 <$> dets in
  let x2 := bx2 <$> dets in
  let y2 := by2 <$> dets in
  let areas := zip_with Qmult (zip_with Qminus x2 x1) (zip_with Qminus y2 y1) in
  let order := reverse (argsort scores) in
  st ← nms_while fuel x1 y1 x2 y2 areas (LoopState order []);
  Ok (keep st).

(** [nms(dets, scores)]: the loop makes at most one pass per score. *)
Definition nms (dets : list box) (scores : list Q) : result (list nat) :=
  nms_fuel (length scores) dets scores.

End WithThreshold.
End NMS.
Import NMS.

(** ** Tensors of the decoder *)

Module Tensor.

(** [B, HW, A, C] tensors as nested lists, outermost dimension first. *)
Abbreviation tensor3 := (list (list (list Q))).
Abbreviation tensor4 := (list (list (list (list Q)))).

(** Number as a tensor entry ([.float()]). *)
Definition qn (n : nat) : Q := inject_Z (Z.of_nat n).

(** An elementwise binary operation on 4-d tensors, broadcasting. *)
Definition bcast4 (f : Q → Q → Q) : tensor4 → tensor4 → result tensor4 :=
  bcast (bcast (bcast (bcast (λ a b, Ok (f a b))))).

Definition bcast3 (f : Q → Q → Q) : tensor3 → tensor3 → result tensor3 :=
  bcast (bcast (bcast (λ a b, Ok (f a b)))).

(** An elementwise function. *)
Definition map3 {A B} (f : A → B) : list (list (list A)) → list (list (list B)) :=
  fmap (M:=list) (fmap (M:=list) (fmap (M:=list) f)).
Definition map4 (f : Q → Q) (t : tensor4) : tensor4 := map3 (fmap (M:=list) f) t.

(** [t[:, :, :, :2]] and [t[:, :, :, 2:]] *)
Definition slice_to2 (t : tensor4) : tensor4 := map3 (take 2) t.
Definition slice_from2 (t : tensor4) : tensor4 := map3 (drop 2) t.

(** [torch.cat([a, b], -1)]: the leading three sizes must agree. *)
Definition same_len {A B C} (f : list A → list B → result C) (a : list A) (b : list B)
  : result C :=
  if decide (length a = length b) then f a b else Raise RuntimeError.

Definition cat_last (a b : tensor4) : result tensor4 :=
  same_len (zipR (same_len (zipR (same_len (zipR (λ r s, Ok (r ++ s))))))) a b.

(** [t.view(B, n, 4)] of a 4-d tensor with last size 4: the element count
    must be preserved; dimensions 1 and 2 are merged. *)
Definition view_merge (B n : nat) (t : tensor4) : result tensor3 :=
  if decide (length t = B) then
    mapR (λ cells : list (list (list Q)),
            if decide (length (concat cells) = n) then Ok (concat cells)
            else Raise RuntimeError) t
  else Raise RuntimeError.

(** [rows.view(n, a, 4)] of one image's [N, 4] rows: [n] groups of [a]
    consecutive rows. *)
Fixpoint groups {A} (n a : nat) (rows : list A) : list (list A) :=
  match n with
  | O => []
  | S n' => take a rows :: groups n' a (drop a rows)
  end.

(** [t.view(B, n, a, 4)] of a [B, N, 4] tensor. *)
Definition view_split (B n a : nat) (t : tensor3) : result tensor4 :=
  if decide (length t = B) then
    mapR (λ rows : list (list Q),
            if decide (length rows = n * a)%nat then Ok (groups n a rows)
            else Raise RuntimeError) t
  else Raise RuntimeError.

End Tensor.
Import Tensor.

(** ** The detector *)

Module Model.

(** The fields of a [MiniYOLAF] instance that the decoding and
    postprocessing code reads.  The network layers are not modelled. *)
Record MiniYOLAF : Type := {
  input_size : nat;
  trainable : bool;
  conf_thresh : Q;
  nms_thresh : Q;
  stride : list nat;
  anchor_size : tensor3;        (* [3, anchor_number, 2] *)
  anchor_number : nat;
  grid_cell : tensor4;          (* [1, HW, 1, 2] *)
  stride_tensor : tensor4;      (* [1, HW, anchor_number, 2] *)
  all_anchors_wh : tensor4;     (* [1, HW, anchor_number, 2] *)
  scale_torch : tensor3         (* [1, 1, 4] *)
}.

(** [torch.tensor(anchor_size).view(3, len(anchor_size) // 3, 2)] for a
    list of [w, h] pairs. *)
Definition view_anchors (anchor_size : list (Q * Q)) : result tensor3 :=
  let k := (length anchor_size / 3)%nat in
  let rows := (λ p : Q * Q, [p.1; p.2]) <$> anchor_size in
  if decide (length anchor_size * 2 = 3 * k * 2)%nat then Ok (groups 3 k rows)
  else Raise RuntimeError.

Definition arange (n : nat) : list nat := seq 0 n.

(** [torch.meshgrid([a, b])], [ij] indexing. *)
Definition meshgrid (a b : list nat) : list (list nat) * list (list nat) :=
  ((λ i, (λ _, i) <$> b) <$> a, (λ _, b) <$> a).

(** [torch.stack([gx, gy], dim=-1).float()] *)
Definition stack_xy (gx gy : list (list nat)) : tensor3 :=
  zip_with (zip_with (λ x y, [qn x; qn y])) gx gy.

(** The body of the loop of [create_grid] for scale [ind] of stride [s]:
    [(grid_xy, stride_tensor, anchor_wh)]. *)
Definition grid_scale (anchors : tensor3) (anchor_number input_size ind s : nat)
  : result (tensor4 * tensor4 * tensor3) :=
  let w := input_size in
  let h := input_size in
  let ws := (w / s)%nat in
  let hs := (h / s)%nat in
  let '(grid_y, grid_x) := meshgrid (arange hs) (arange ws) in
  let grid_xy := stack_xy grid_x grid_y in
  let grid_xy := [ (λ xy, [xy]) <$> concat grid_xy ] in           (* view(1, hs*ws, 1, 2) *)
  let stride_tensor := [ replicate (hs * ws) (replicate anchor_number [qn s; qn s]) ] in
  a ← idx anchors ind;
  let anchor_wh := replicate (hs * ws) a in                       (* repeat(hs*ws, 1, 1) *)
  Ok (grid_xy, stride_tensor, anchor_wh).

Fixpoint grid_scales (anchors : tensor3) (anchor_number input_size ind : nat)
    (strides : list nat) : result (list (tensor4 * tensor4 * tensor3)) :=
  match strides with
  | [] => Ok []
  | s :: strides' =>
      g ← grid_scale anchors anchor_number input_size ind s;
      gs ← grid_scales anchors anchor_number input_size (S ind) strides';
      Ok (g :: gs)
  end.

(** [torch.cat(ts, dim=1)] of tensors of leading size 1. *)
Definition cat_dim1 (ts : list tensor4) : tensor4 := [ concat ((λ t : tensor4, concat t) <$> ts) ].

Definition create_grid (strides : list nat) (anchors : tensor3)
    (anchor_number input_size : nat) : result (tensor4 * tensor4 * tensor4) :=
  gs ← grid_scales anchors anchor_number input_size 0 strides;
  let total_grid_xy := cat_dim1 ((λ g, g.1.1) <$> gs) in
  let total_stride := cat_dim1 ((λ g, g.1.2) <$> gs) in
  let total_anchor_wh := [ concat ((λ g, g.2) <$> gs) ] in        (* cat dim 0, unsqueeze(0) *)
  Ok (total_grid_xy, total_stride, total_anchor_wh).

(** [MiniYOLAF.__init__]; the defaults of the source are
    [conf_thresh=0.01], [nms_thresh=0.3]. *)
Definition init (input_size : nat) (trainable : bool) (conf_thresh nms_thresh : Q)
    (anchor_size : list (Q * Q)) : result MiniYOLAF :=
  let stride := [8; 16; 32]%nat in
  anchors ← view_anchors anchor_size;
  let anchor_number := (length anchor_size / 3)%nat in
  '(grid_cell, stride_tensor, all_anchors_wh) ←
      create_grid stride anchors anchor_number input_size;
  let s := qn input_size in
  Ok {| input_size := input_size; trainable := trainable;
        conf_thresh := conf_thresh; nms_thresh := nms_thresh;
        stride := stride; anchor_size := anchors; anchor_number := anchor_number;
        grid_cell := grid_cell; stride_tensor := stride_tensor;
        all_anchors_wh := all_anchors_wh;
        scale_torch := [[[s; s; s; s]]] |}.

End Model.
Import Model.

(** ** The box decoder and the inference branch of [forward] *)

Module Decode.
Section WithFunctions.

(** [torch.sigmoid] and [torch.exp] on tensor entries. *)
Variables sigmoid exp : Q → Q.

(** [self] *)
Variable m : MiniYOLAF.

Definition decode_xywh (txtytwth_pred : tensor4) : result tensor3 :=
  (* B, HW, ab_n, _ = txtytwth_pred.size() *)
  let B := length txtytwth_pred in
  let HW := length (default [] (head txtytwth_pred)) in
  let ab_n := length (default [] (head (default [] (head txtytwth_pred)))) in
  s ← bcast4 Qplus (map4 sigmoid (slice_to2 txtytwth_pred)) (grid_cell m);
  c_xy_pred ← bcast4 Qmult s (stride_tensor m);
  b_wh_pred ← bcast4 Qmult (map4 exp (slice_from2 txtytwth_pred)) (all_anchors_wh m);
  xywh_pred ← cat_last c_xy_pred b_wh_pred;
  view_merge B (HW * ab_n) xywh_pred.

(** One row of [x1y1x2y2_pred]: [zeros_like], then the four column
    assignments. *)
Definition corner_row (r : list Q) : result (list Q) :=
  c0 ← idx r 0; c2 ← idx r 2;
  c1 ← idx r 1; c3 ← idx r 3;
  Ok ([c0 - c2 / 2; c1 - c3 / 2; c0 + c2 / 2; c1 + c3 / 2]
        ++ replicate (length r - 4) 0).

Definition decode_boxes (txtytwth_pred : tensor4) : result tensor3 :=
  xywh_pred ← decode_xywh txtytwth_pred;
  mapR (mapR corner_row) xywh_pred.

(** [torch.clamp(x, 0., 1.)] *)
Definition clamp01 (x : Q) : Q := Qmin (Qmax x 0) 1.

(** Lines 215-219 of [forward]: [all_bbox].  [HW] is not bound in
    [forward] and is taken as a parameter. *)
Definition forward_boxes (HW : nat) (txtytwth_pred : tensor3) : result (list (list Q)) :=
  let B := length txtytwth_pred in
  t ← view_split B HW (anchor_number m) txtytwth_pred;
  d ← decode_boxes t;
  q ← bcast3 Qdiv d (scale_torch m);
  b0 ← idx q 0;
  Ok (fmap (M:=list) (fmap (M:=list) clamp01) b0).

End WithFunctions.
End Decode.
Import Decode.

(** ** Postprocessing *)

Module Post.

Definition postprocess (m : MiniYOLAF) (all_local : list box) (all_conf : list Q)
  : result (list box * list Q) :=
  let bbox_pred := all_local in
  let prob_pred := all_conf in
  let scores := prob_pred in
  (* threshold *)
  let keep := np_where (λ s, Qle_bool (conf_thresh m) s) scores in
  bbox_pred ← gather bbox_pred keep;
  scores ← gather scores keep;
  (* NMS *)
  let keep := replicate (length bbox_pred) 0%Z in
  c_keep ← nms (nms_thresh m) bbox_pred scores;
  keep ← scatter keep c_keep 1%Z;
  let keep := np_where (λ k, (0 <? k)%Z) keep in
  bbox_pred ← gather bbox_pred keep;
  scores ← gather scores keep;
  Ok (bbox_pred, scores).

End Post.
Import Post.

(** ** [set_grid] and the inference branch of [forward] *)

Module Inference.

(** [set_grid(input_size)]: the grid tensors and the scale are rebuilt; no
    other attribute is assigned, [self.input_size] included. *)
Definition set_grid (m : MiniYOLAF) (size : nat) : result MiniYOLAF :=
  '(grid_cell', stride_tensor', all_anchors_wh') ←
      create_grid (stride m) (anchor_size m) (anchor_number m) size;
  let s := qn size in
  Ok {| input_size := input_size m; trainable := trainable m;
        conf_thresh := conf_thresh m; nms_thresh := nms_thresh m;
        stride := stride m; anchor_size := anchor_size m;
        anchor_number := anchor_number m;
        grid_cell := grid_cell'; stride_tensor := stride_tensor';
        all_anchors_wh := all_anchors_wh';
        scale_torch := [[[s; s; s; s]]] |}.

(** A row of the [N, 4] array [all_bbox] as [nms] reads it: columns 0 to 3. *)
Definition row_box (r : list Q) : result box :=
  a ← idx r 0; b ← idx r 1; c ← idx r 2; d ← idx r 3; Ok (Box a b c d).

(** Lines 214-226 of [forward], [trainable] false, from the tensors
    [conf_pred] ([B, N, 1]) and [txtytwth_pred] ([B, N, 4]) of the heads.
    [HW] is not bound in [forward] and is taken as a parameter. *)
Definition forward_test (sigmoid exp : Q → Q) (m : MiniYOLAF) (HW : nat)
    (conf_pred txtytwth_pred : tensor3) : result (list box * list Q) :=
  let B := length txtytwth_pred in
  t ← view_split B HW (anchor_number m) txtytwth_pred;
  (* all_obj = torch.sigmoid(conf_pred[0, :, 0]) *)
  c0 ← idx conf_pred 0;
  logits ← mapR (λ r, idx r 0) c0;
  let all_obj := sigmoid <$> logits in
  (* all_bbox = torch.clamp((self.decode_boxes(txtytwth_pred) / self.scale_torch)[0], 0., 1.) *)
  d ← decode_boxes sigmoid exp m t;
  q ← bcast3 Qdiv d (scale_torch m);
  b0 ← idx q 0;
  let all_bbox := fmap (M:=list) (fmap (M:=list) clamp01) b0 in
  dets ← mapR row_box all_bbox;
  postprocess m dets all_obj.

End Inference.
Import Inference.

(** ** Definitions of the specification, for comparison *)

Module Spec.

(** A row of the grid table: cell, stride, anchor shape. *)
Record slot : Set := Slot {
  cell_x : Q; cell_y : Q; slot_stride : Q; anchor_w : Q; anchor_h : Q }.

(** The grid table in the words of the specification: scales in declared
    order; cells row-major, y outer and x inner; within a cell one row per
    anchor of the scale, in declared order. *)
Definition table_scale (S : nat) (s : nat) (anchors : list (Q * Q)) : list slot :=
  y ← seq 0 (S / s); x ← seq 0 (S / s); a ← anchors;
  [Slot (qn x) (qn y) (qn s) a.1 a.2].

Definition grid_table (S : nat) (scales : list (nat * list (Q * Q))) : list slot :=
  sc ← scales; table_scale S sc.1 sc.2.

(** The decoded corner-form box of one slot. *)
Definition decode_slot (sigmoid exp : Q → Q) (g : slot) (tx ty tw th : Q) : list Q :=
  let cx := (sigmoid tx + cell_x g) * slot_stride g in
  let cy := (sigmoid ty + cell_y g) * slot_stride g in
  let w := anchor_w g * exp tw in
  let h := anchor_h g * exp th in
  [cx - w / 2; cy - h / 2; cx + w / 2; cy + h / 2].

Definition decode_row (sigmoid exp : Q → Q) (g : slot) (r : list Q) : list Q :=
  match r with
  | [tx; ty; tw; th] => decode_slot sigmoid exp g tx ty tw th
  | _ => []
  end.

(** IoU of two boxes with the intersection width and height floored at
    [eps]. *)
Definition area (b : box) : Q := (bx2 b - bx1 b) * (by2 b - by1 b).

Definition iou (a b : box) : fval :=
  let w := Qmax eps (Qmin (bx2 a) (bx2 b) - Qmax (bx1 a) (bx1 b)) in
  let h := Qmax eps (Qmin (by2 a) (by2 b) - Qmax (by1 a) (by1 b)) in
  let inter := w * h in
  fdiv inter (area a + area b - inter).

End Spec.
Import Spec.

(** ** Relations used to state the properties of [nms] *)

Module Rel.

(** Row [i] of [dets]. *)
Definition box_at (dets : list box) (i : nat) : box :=
  default (Box 0 0 0 0) (dets !! i).

(** The retention test of [nms]: the IoU of boxes [i] and [j] is at most
    the threshold. *)
Definition passes (thr : Q) (dets : list box) (i j : nat) : bool :=
  fle (iou (box_at dets i) (box_at dets j)) thr.

(** Greedy selection from an order list: the head is kept and the rest is
    filtered by the retention test against it. *)
Inductive greedy (ok : nat → nat → bool) : list nat → list nat → Prop :=
| greedy_nil : greedy ok [] []
| greedy_cons i rest ks :
    greedy ok (filter (λ j, ok i j) rest) ks → greedy ok (i :: rest) (i :: ks).

(** [i] comes before [j] in the candidate order when its score is
    greater, or equal with [i] the larger index. *)
Definition before (scores : list Q) (i j : nat) : Prop :=
  score_at scores j < score_at scores i
  ∨ (score_at scores j == score_at scores i ∧ (j < i)%nat).

(** [i] occurs strictly before [j] in [l]. *)
Definition precedes (l : list nat) (i j : nat) : Prop :=
  ∃ l1 l2 l3, l = l1 ++ i :: l2 ++ j :: l3.

(** The (box, score) pairs that pass the confidence threshold. *)
Definition passing (conf : Q) (boxes : list box) (scores : list Q) : list (box * Q) :=
  filter (λ p, Qle_bool conf p.2) (zip boxes scores).

(** The members of [ks] below [n], in ascending order. *)
Definition ascending (ks : list nat) (n : nat) : list nat :=
  filter (λ i, i ∈ ks) (seq 0 n).

(** The grid table held by a detector: row [k] of cell [c] pairs the
    entry of [grid_cell] for [c], which the decoder broadcasts over the
    anchors, with entries [c, k] of [stride_tensor] and [all_anchors_wh]. *)
Definition entry (r : list Q) (i : nat) : Q := default 0 (r !! i).

Definition slot_of (c : list (list Q)) (sv av : list Q) : slot :=
  Slot (entry (default [] (c !! 0%nat)) 0) (entry (default [] (c !! 0%nat)) 1)
       (entry sv 0) (entry av 0) (entry av 1).

Definition table_rows (grid_cell stride_tensor all_anchors_wh : tensor4) : list slot :=
  match grid_cell, stride_tensor, all_anchors_wh with
  | [g], [s], [a] =>
      concat (zip_with (λ c sa, zip_with (slot_of c) sa.1 sa.2) g (zip s a))
  | _, _, _ => []
  end.

(** A grid cell with what the three tensors hold for it. *)
Record cell : Set := Cell { ccx : Q; ccy : Q; cstride : Q; canchors : list (Q * Q) }.

Definition scale_cells (S s : nat) (anchors : list (Q * Q)) : list cell :=
  i ← seq 0 (S / s); j ← seq 0 (S / s); [Cell (qn j) (qn i) (qn s) anchors].

Definition cell_slots (d : cell) : list slot :=
  (λ p, Slot (ccx d) (ccy d) (cstride d) p.1 p.2) <$> canchors d.

(** The anchors of scale [i] among [3 * k] anchors. *)
Definition scale_anchors (anchor_size : list (Q * Q)) (i : nat) : list (Q * Q) :=
  let k := (length anchor_size / 3)%nat in
  take k (drop (i * k) anchor_size).

Definition grid_cells (S : nat) (a0 a1 a2 : list (Q * Q)) : list cell :=
  scale_cells S 8 a0 ++ scale_cells S 16 a1 ++ scale_cells S 32 a2.

Definition model_cells (S : nat) (anchor_size : list (Q * Q)) : list cell :=
  grid_cells S (scale_anchors anchor_size 0) (scale_anchors anchor_size 1)
    (scale_anchors anchor_size 2).

(** Shapes of the nested lists: a cell holds [A] rows of [k] entries, an
    image [n] cells. *)
Definition cell_shape (A k : nat) (c : list (list Q)) : Prop :=
  length c = A ∧ Forall (λ r, length r = k) c.

Definition image_shape (n A k : nat) (img : list (list (list Q))) : Prop :=
  length img = n ∧ Forall (cell_shape A k) img.

(** The row of [x1y1x2y2_pred] computed from row [r] of [xywh_pred]. *)
Definition corner_of (r : list Q) : list Q :=
  [entry r 0 - entry r 2 / 2; entry r 1 - entry r 3 / 2;
   entry r 0 + entry r 2 / 2; entry r 1 + entry r 3 / 2]
    ++ replicate (length r - 4) 0.

(** Row of [xywh_pred] for raw row [r] at cell [d] and anchor [a], and the
    rows of one image. *)
Definition xywh_row (sigmoid exp : Q → Q) (d : cell) (r : list Q) (a : Q * Q) : list Q :=
  zip_with Qmult (zip_with Qplus (sigmoid <$> take 2 r) [ccx d; ccy d])
           [cstride d; cstride d]
  ++ zip_with Qmult (exp <$> drop 2 r) [a.1; a.2].

Definition xywh_image (sigmoid exp : Q → Q) (D : list cell)
    (img : list (list (list Q))) : list (list Q) :=
  concat (zip_with (λ c d, zip_with (xywh_row sigmoid exp d) c (canchors d)) img D).

(** The stages of [decode_xywh] on one image: the activated offsets, the
    offsets in the grid, the centres, the activated sizes, the sizes. *)
Definition dec_x1 (sigmoid : Q → Q) (img : list (list (list Q))) : list (list (list Q)) :=
  fmap (M:=list) (fmap (M:=list) (λ r, sigmoid <$> take 2 r)) img.
Definition dec_s1 (sigmoid : Q → Q) (D : list cell) (img : list (list (list Q)))
  : list (list (list Q)) :=
  zip_with (λ c d, (λ r, zip_with Qplus r [ccx d; ccy d]) <$> c) (dec_x1 sigmoid img) D.
Definition dec_cxy (sigmoid : Q → Q) (A : nat) (D : list cell)
    (img : list (list (list Q))) : list (list (list Q)) :=
  zip_with (λ c d, zip_with (zip_with Qmult) c (replicate A [cstride d; cstride d]))
    (dec_s1 sigmoid D img) D.
Definition dec_x2 (exp : Q → Q) (img : list (list (list Q))) : list (list (list Q)) :=
  fmap (M:=list) (fmap (M:=list) (λ r, exp <$> drop 2 r)) img.
Definition dec_bwh (exp : Q → Q) (D : list cell) (img : list (list (list Q)))
  : list (list (list Q)) :=
  zip_with (λ c d, zip_with (zip_with Qmult) c ((λ p : Q * Q, [p.1; p.2]) <$> canchors d))
    (dec_x2 exp img) D.

(** A coordinate in [0,1]. *)
Definition in01 (x : Q) : Prop := 0 <= x ∧ x <= 1.

End Rel.
Import Rel.

(** ** Further definitions used to state properties *)

Module Rel2.

(** The centre-form row [cx, cy, w, h] of one slot, as [decode_xywh]
    computes it. *)
Definition xywh_slot (sigmoid exp : Q → Q) (g : slot) (r : list Q) : list Q :=
  match r with
  | [tx; ty; tw; th] =>
      [(sigmoid tx + cell_x g) * slot_stride g; (sigmoid ty + cell_y g) * slot_stride g;
       exp tw * anchor_w g; exp th * anchor_h g]
  | _ => []
  end.

(** A corner-form row with its corners in order. *)
Definition ordered_row (r : list Q) : Prop :=
  ∃ x1 y1 x2 y2, r = [x1; y1; x2; y2] ∧ x1 <= x2 ∧ y1 <= y2.

(** A box with its coordinates in [0,1]. *)
Definition box_in01 (b : box) : Prop :=
  in01 (bx1 b) ∧ in01 (by1 b) ∧ in01 (bx2 b) ∧ in01 (by2 b).


End Rel2.
Import Rel2.

(** ** Layers of [utils/modules.py] *)

Module Layers.

(** [F.max_pool2d(x, k, stride=1, padding=p)] pads the plane with [p] rows
    and columns of minus infinity on every side and moves a window of side
    [k] one step at a time.  A padding entry never wins the maximum, so
    output position [i] along a dimension reads the positions
    [i - p .. i - p + k - 1] of the input that exist. *)
Definition window {A} (k p i : nat) (l : list A) : list A :=
  take (k - (p - i)) (drop (i - p) l).

(** The output size along a dimension of size [n]. *)
Definition pool_size (k p n : nat) : nat := (n + 2 * p + 1 - k)%nat.

Definition maximum (l : list Q) : result Q :=
  match l with
  | [] => Raise RuntimeError
  | x :: l' => Ok (foldr Qmax x l')
  end.

(** The entries of plane [x] under the window of output position [[i, j]]. *)
Definition patch (k p i j : nat) (x : list (list Q)) : list Q :=
  concat (window k p j <$> window k p i x).

(** One [H, W] plane; an output size below 1 is refused. *)
Definition max_pool_plane (k p : nat) (x : list (list Q)) : result (list (list Q)) :=
  let H := length x in
  let W := length (default [] (head x)) in
  if decide (0 < pool_size k p H ∧ 0 < pool_size k p W)%nat then
    mapR (λ i, mapR (λ j, maximum (patch k p i j x)) (seq 0 (pool_size k p W)))
         (seq 0 (pool_size k p H))
  else Raise RuntimeError.

(** A [B, C, H, W] tensor: the padding is at most half the kernel, and
    the channel dimension is not empty. *)
Definition max_pool2d (k p : nat) (x : tensor4) : result tensor4 :=
  if decide (0 < k ∧ 2 * p ≤ k)%nat then
    mapR (λ xb : list (list (list Q)),
            if decide (length xb = 0%nat) then Raise RuntimeError
            else mapR (max_pool_plane k p) xb) x
  else Raise RuntimeError.

(** [torch.cat([t, u, ...], dim=1)]: the batch sizes agree, and so do the
    plane sizes, read here off the first plane. *)
Definition dims (xb : list (list (list Q))) : nat * nat :=
  let pl := default [] (head xb) in (length pl, length (default [] (head pl))).

Definition cat_pair (t u : tensor4) : result tensor4 :=
  same_len (zipR (λ xt xu : list (list (list Q)),
                    if decide (dims xt = dims xu) then Ok (xt ++ xu)
                    else Raise RuntimeError)) t u.

Fixpoint cat_channels (t : tensor4) (ts : list tensor4) : result tensor4 :=
  match ts with
  | [] => Ok t
  | u :: ts' => tu ← cat_pair t u; cat_channels tu ts'
  end.

(** [SPP.forward] *)
Definition SPP_forward (x : tensor4) : result tensor4 :=
  x_1 ← max_pool2d 5 2 x;
  x_2 ← max_pool2d 9 4 x;
  x_3 ← max_pool2d 13 6 x;
  cat_channels x [x_1; x_2; x_3].

(** [DeConv2d.__init__]: the padding and the output padding chosen for the
    kernel size.  For any other kernel size both names are unbound when
    [nn.ConvTranspose2d] is called, and the constructor raises
    [UnboundLocalError]: [None]. *)
Definition DeConv2d_padding (ksize : nat) : option (nat * nat) :=
  if decide (ksize = 4%nat) then Some (1, 0)%nat
  else if decide (ksize = 3%nat) then Some (1, 1)%nat
  else if decide (ksize = 2%nat) then Some (0, 0)%nat
  else None.

(** The size [nn.ConvTranspose2d] gives a dimension of size [n]
    (dilation 1): [(n - 1) * stride - 2 * padding + ksize + output_padding]. *)
Definition conv_transpose_size (ksize stride padding output_padding n : nat) : nat :=
  ((n - 1) * stride + ksize + output_padding - 2 * padding)%nat.

(** The height or width that leaves a [DeConv2d] layer; batch norm and
    the activation keep the shape. *)
Definition DeConv2d_size (ksize stride n : nat) : option nat :=
  match DeConv2d_padding ksize with
  | Some (padding, output_padding) =>
      Some (conv_transpose_size ksize stride padding output_padding n)
  | None => None
  end.

(** Entry [[i, j]] of a plane and entry [[b, c, i, j]] of a tensor. *)
Definition at2 (pl : list (list Q)) (i j : nat) : option Q :=
  r ← pl !! i; r !! j.
Definition at4 (t : tensor4) (b c i j : nat) : option Q :=
  xb ← t !! b; pl ← xb !! c; at2 pl i j.

(** Plane [ql] holds, wherever plane [pl] has an entry, the maximum of
    [pl] under the window of that position. *)
Definition pooled (k p : nat) (pl ql : list (list Q)) : Prop :=
  ∀ i j v, at2 pl i j = Some v →
           ∃ w, at2 ql i j = Some w ∧ maximum (patch k p i j pl) = Ok w.

(** A tensor of size [B, C, H, W]. *)
Definition shape4 (B C H W : nat) (t : tensor4) : Prop :=
  length t = B ∧ Forall (image_shape C H W) t.

End Layers.
Import Layers.

(** ** The heads of [forward] *)

Module Heads.

(** [t.permute(0, 2, 3, 1).contiguous()]: from [B, C, H, W] to
    [B, H, W, C]. *)
Definition permute_0231 (t : tensor4) : result tensor4 :=
  mapR (λ xb : list (list (list Q)),
          let H := length (default [] (head xb)) in
          let W := length (default [] (head (default [] (head xb)))) in
          mapR (λ h, mapR (λ w, mapR (λ pl : list (list Q), r ← idx pl h; idx r w) xb)
                       (seq 0 W))
               (seq 0 H)) t.

(** [t.view(B, -1, m)] of a contiguous tensor with the entries [flat]:
    the number of entries must be a multiple of [B * m]. *)
Definition view_rows (B m : nat) (flat : list Q) : result tensor3 :=
  if decide (B * m ≠ 0 ∧ length flat `mod` (B * m) = 0)%nat then
    let n := (length flat / (B * m))%nat in
    Ok (groups n m <$> groups B (n * m) flat)
  else Raise RuntimeError.

(** One head: [t.permute(0, 2, 3, 1).contiguous().view(B, -1, A * k)
    .view(B, -1, k)], where [t] is what the convolutions of the head
    return. *)
Definition head_rows (B A k : nat) (t : tensor4) : result tensor3 :=
  p ← permute_0231 t;
  v ← view_rows B (A * k) (concat (concat (concat p)));
  view_rows B k (concat (concat v)).

(** [torch.cat([t, u, ...], dim=1)] of [B, n, k] tensors: the batch sizes
    agree, and the rows joined have one width. *)
Definition cat_rows_pair (t u : tensor3) : result tensor3 :=
  same_len (zipR (λ rt ru : list (list Q),
                    let w := length (default [] (head (rt ++ ru))) in
                    if decide (Forall (λ r, length r = w) (rt ++ ru))
                    then Ok (rt ++ ru) else Raise RuntimeError)) t u.

Fixpoint cat_rows (t : tensor3) (ts : list tensor3) : result tensor3 :=
  match ts with
  | [] => Ok t
  | u :: ts' => tu ← cat_rows_pair t u; cat_rows tu ts'
  end.

(** Lines 199-211 of [forward]: [(conf_pred, txtytwth_pred)] from the
    outputs [c3, c4, c5] of [confhead] and [b3, b4, b5] of [bboxhead] on
    the three pyramid levels; [B] is [c3.size(0)] of the backbone. *)
Definition forward_heads (B A : nat) (c3 c4 c5 b3 b4 b5 : tensor4)
  : result (tensor3 * tensor3) :=
  conf_pred_5 ← head_rows B A 1 c5;
  bbox_pred_5 ← head_rows B A 4 b5;
  conf_pred_4 ← head_rows B A 1 c4;
  bbox_pred_4 ← head_rows B A 4 b4;
  conf_pred_3 ← head_rows B A 1 c3;
  bbox_pred_3 ← head_rows B A 4 b3;
  conf_pred ← cat_rows conf_pred_3 [conf_pred_4; conf_pred_5];
  txtytwth_pred ← cat_rows bbox_pred_3 [bbox_pred_4; bbox_pred_5];
  Ok (conf_pred, txtytwth_pred).

(** Entry [[b, i, q]] of a [B, n, k] tensor. *)
Definition at3 (t : tensor3) (b i q : nat) : option Q :=
  img ← t !! b; r ← img !! i; r !! q.

End Heads.
Import Heads.

(** * Properties *)

Example argsort_ex : argsort [3#10; 9#10; 1#2; 1#2] = [0; 2; 3; 1]%nat.
Proof. vm_compute. reflexivity. Qed.

Example nms_ex :
  nms (3#10) [Box 0 0 10 10; Box 1 1 9 9; Box 100 100 110 110] [9#10; 8#10; 1#2]
  = Ok [0; 2]%nat.
Proof. vm_compute. reflexivity. Qed.

(** ** Facts on the array primitives *)

Lemma bind_Ok {A B} (a : A) (f : A → result B) : Ok a ≫= f = f a.
Proof. reflexivity. Qed.

Lemma bind_Ok_inv {A B} (r : result A) (f : A → result B) b :
  r ≫= f = Ok b → ∃ a, r = Ok a ∧ f a = Ok b.
Proof. destruct r as [a|e]; [eauto|done]. Qed.

Lemma idx_Ok {A} (a : list A) i x : idx a i = Ok x ↔ a !! i = Some x.
Proof. unfold idx. destruct (a !! i); split; intros H; by inversion H. Qed.

Lemma idx_lookup {A} (a : list A) i x : a !! i = Some x → idx a i = Ok x.
Proof. apply idx_Ok. Qed.


Lemma idx_fmap {A B} (f : A → B) (a : list A) i x :
  a !! i = Some x → idx (f <$> a) i = Ok (f x).
Proof. intros H. apply idx_lookup. by rewrite list_lookup_fmap, H. Qed.

Lemma mapR_pure {A B} (f : A → B) (a : list A) : mapR (λ x, Ok (f x)) a = Ok (f <$> a).
Proof. induction a as [|x a IH]; simpl; [done|]. by rewrite IH. Qed.

Lemma mapR_ext_Forall {A B} (F : A → result B) (f : A → B) (a : list A) :
  Forall (λ x, F x = Ok (f x)) a → mapR F a = Ok (f <$> a).
Proof.
  induction 1 as [|x a Hx _ IH]; simpl; [done|]. by rewrite Hx, IH.
Qed.

Lemma mapR_length {A B} (F : A → result B) (a : list A) ys : mapR F a = Ok ys → length ys = length a.
Proof.
  revert ys. induction a as [|x a IH]; simpl; intros ys H.
  - by inversion H.
  - destruct (F x); [|done]. simpl in H.
    destruct (mapR F a) as [zs|]; [|done]. inversion H; subst. simpl.
    f_equal. by apply IH.
Qed.

Lemma mapR_Forall2 {A B} (F : A → result B) (a : list A) ys :
  mapR F a = Ok ys → Forall2 (λ x y, F x = Ok y) a ys.
Proof.
  revert ys. induction a as [|x a IH]; simpl; intros ys H.
  - inversion H. constructor.
  - destruct (F x) eqn:Hx; [|done]. simpl in H.
    destruct (mapR F a) as [zs|]; [|done]. inversion H; subst.
    constructor; [done|]. by apply IH.
Qed.

Lemma zipR_ext_Forall2 {A B C} (F : A → B → result C) (f : A → B → C) (a : list A) (b : list B) :
  Forall2 (λ x y, F x y = Ok (f x y)) a b → zipR F a b = Ok (zip_with f a b).
Proof.
  induction 1 as [|x y a b Hx _ IH]; simpl; [done|]. by rewrite Hx, IH.
Qed.

Lemma bcast_same {A B C} (F : A → B → result C) (a : list A) (b : list B) :
  length a = length b → bcast F a b = zipR F a b.
Proof. intros H. unfold bcast. by rewrite decide_True. Qed.

Lemma bcast_one_r {A B C} (F : A → B → result C) (a : list A) (y : B) :
  bcast F a [y] = mapR (λ x, F x y) a.
Proof.
  unfold bcast. simpl. destruct (decide (length a = 1%nat)) as [H|H].
  - destruct a as [|x [|??]]; try done.
  - done.
Qed.

(** Gathering the rows of a mapped array at valid indices. *)
Lemma gather_fmap_valid {A B} (f : A → B) (d : A) (a : list A) js :
  Forall (λ j, j < length a)%nat js →
  gather (f <$> a) js = Ok ((λ j, f (default d (a !! j))) <$> js).
Proof.
  intros H. unfold gather. apply mapR_ext_Forall.
  eapply Forall_impl; [exact H|]. intros j Hj. simpl in Hj.
  destruct (lookup_lt_is_Some_2 a j Hj) as [x Hx].
  rewrite Hx. simpl. by apply idx_fmap.
Qed.

Lemma zip_with_fmap_same {A B C D} (g : B → C → A) (f1 : D → B) (f2 : D → C) (js : list D) :
  zip_with g (f1 <$> js) (f2 <$> js) = (λ j, g (f1 j) (f2 j)) <$> js.
Proof. induction js as [|j js IH]; simpl; [done|]. by f_equal. Qed.

Lemma np_where_from_length {A} (c : A → bool) k (a : list A) :
  (length (np_where_from c k a) ≤ length a)%nat.
Proof.
  revert k. induction a as [|x a IH]; intros k; simpl; [lia|].
  destruct (c x); simpl; specialize (IH (S k)); lia.
Qed.

(** [order[inds + 1]] where [inds] are the positions of the rest of
    [order] that pass the test: the rest, filtered. *)
Lemma gather_where_shift {A B} (c : B → bool) (h : A → B) (pre rest : list A) :
  gather (pre ++ rest)
    ((λ k, k + 1)%nat <$> np_where_from c (length pre - 1) (h <$> rest))
  = Ok (filter (λ x, c (h x)) rest) ∨ pre = [].
Proof.
  revert pre. induction rest as [|x rest IH]; intros pre.
  - left. done.
  - destruct pre as [|p pre]; [by right|]. left.
    specialize (IH ((p :: pre) ++ [x])).
    destruct IH as [IH|IH]; [|by destruct pre].
    rewrite <- app_assoc in IH. simpl in IH.
    rewrite length_app in IH. simpl in IH.
    replace (length pre + 1 - 0)%nat with (S (length pre)) in IH by lia.
    simpl. rewrite Nat.sub_0_r. rewrite filter_cons.
    destruct (c (h x)) eqn:Hc.
    + rewrite decide_True by (by apply Is_true_eq_left).
      cbn [fmap list_fmap gather mapR]. unfold gather in IH.
      replace (length pre + 1)%nat with (S (length pre)) by lia.
      assert (Hl : idx (p :: pre ++ x :: rest) (S (length pre)) = Ok x).
      { apply idx_lookup. simpl. by rewrite lookup_app_r, Nat.sub_diag. }
      rewrite Hl, bind_Ok.
        match goal with |- ?r ≫= _ = _ =>
          replace r with (Ok (filter (λ x, c (h x)) rest)) by (symmetry; exact IH)
        end.
        done.
    + rewrite decide_False by (simpl; tauto). exact IH.
Qed.



(** ** One pass of the loop of [nms] *)

Lemma areas_fmap (dets : list box) :
  zip_with Qmult (zip_with Qminus (bx2 <$> dets) (bx1 <$> dets))
                 (zip_with Qminus (by2 <$> dets) (by1 <$> dets))
  = area <$> dets.
Proof. by rewrite !zip_with_fmap_same. Qed.

Lemma box_at_lookup dets i b : dets !! i = Some b → box_at dets i = b.
Proof. unfold box_at. by intros ->. Qed.

Lemma idx_col {B} (f : box → B) dets i :
  (i < length dets)%nat → idx (f <$> dets) i = Ok (f (box_at dets i)).
Proof.
  intros Hi. destruct (lookup_lt_is_Some_2 dets i Hi) as [b Hb].
  rewrite (box_at_lookup _ _ _ Hb). by apply idx_fmap.
Qed.

Lemma gather_col {B} (f : box → B) dets js :
  Forall (λ j, j < length dets)%nat js →
  gather (f <$> dets) js = Ok ((λ j, f (box_at dets j)) <$> js).
Proof. apply gather_fmap_valid. Qed.

Lemma nms_body_valid thr dets i rest kp :
  Forall (λ j, j < length dets)%nat (i :: rest) →
  nms_body thr (bx1 <$> dets) (by1 <$> dets) (bx2 <$> dets) (by2 <$> dets)
    (area <$> dets) (LoopState (i :: rest) kp)
  = Ok (LoopState (filter (λ j, passes thr dets i j) rest) (kp ++ [i])).
Proof.
  intros Hv. inversion Hv as [|?? Hi Hrest]; subst.
  unfold nms_body. cbn [order keep]. change (idx (i :: rest) 0) with (Ok i).
  rewrite bind_Ok. change (drop 1 (i :: rest)) with rest.
  rewrite !idx_col by done. rewrite !gather_col by done.
  repeat rewrite bind_Ok.
  rewrite <- !list_fmap_compose. rewrite !zip_with_fmap_same.
  rewrite <- !list_fmap_compose. rewrite !zip_with_fmap_same.
  destruct (gather_where_shift (λ o, fle o thr)
              (λ j, fdiv (Qmax eps (Qmin (bx2 (box_at dets i)) (bx2 (box_at dets j))
                                    - Qmax (bx1 (box_at dets i)) (bx1 (box_at dets j)))
                          * Qmax eps (Qmin (by2 (box_at dets i)) (by2 (box_at dets j))
                                      - Qmax (by1 (box_at dets i)) (by1 (box_at dets j))))
                         (area (box_at dets i) + area (box_at dets j)
                          - Qmax eps (Qmin (bx2 (box_at dets i)) (bx2 (box_at dets j))
                                      - Qmax (bx1 (box_at dets i)) (bx1 (box_at dets j)))
                            * Qmax eps (Qmin (by2 (box_at dets i)) (by2 (box_at dets j))
                                        - Qmax (by1 (box_at dets i)) (by1 (box_at dets j)))))
              [i] rest) as [Hg|?]; [|done].
  simpl in Hg. unfold np_where.
  match goal with |- ?r ≫= _ = _ =>
    replace r with (Ok (filter (λ j, passes thr dets i j) rest))
  end; [done|..]; symmetry; exact Hg.
Qed.

(** ** Greedy selection *)

Section Greedy.
Variable ok : nat → nat → bool.

Lemma greedy_sublist od ks : greedy ok od ks → ks `sublist_of` od.
Proof.
  induction 1 as [|i rest ks _ IH]; [constructor|].
  apply sublist_skip. etrans; [exact IH|]. apply sublist_filter.
Qed.

Lemma greedy_pairwise od ks :
  greedy ok od ks → StronglySorted (λ i j, ok i j) ks.
Proof.
  induction 1 as [|i rest ks Hg IH]; constructor; [done|].
  apply greedy_sublist in Hg. apply Forall_forall. intros j Hj.
  eapply elem_of_sublist in Hj; [|exact Hg].
  by apply list_elem_of_filter in Hj as [? _].
Qed.

Lemma greedy_head od ks i rest : greedy ok od ks → od = i :: rest → head ks = Some i.
Proof. intros [|] ?; by simplify_eq. Qed.

(** A candidate that is not kept fails the retention test against a kept
    index. *)
Lemma greedy_maximal od ks j :
  greedy ok od ks → j ∈ od → j ∉ ks → ∃ i, i ∈ ks ∧ ok i j = false.
Proof.
  induction 1 as [|i rest ks Hg IH]; intros Hj Hn; [by apply elem_of_nil in Hj|].
  apply not_elem_of_cons in Hn as [Hne Hn].
  apply elem_of_cons in Hj as [->|Hj]; [done|].
  destruct (ok i j) eqn:Hij.
  - destruct IH as (i' & Hi' & Hf); [|done|].
    + apply list_elem_of_filter. split; [by rewrite Hij|done].
    + exists i'. split; [by right|done].
  - exists i. split; [by left|done].
Qed.

End Greedy.

Lemma StronglySorted_sublist {A} (R : relation A) l1 l2 :
  l1 `sublist_of` l2 → StronglySorted R l2 → StronglySorted R l1.
Proof.
  induction 1 as [|x l1 l2 Hs IH|x l1 l2 Hs IH]; intros Hl; [done|..].
  - apply StronglySorted_inv in Hl as [Hl Hx]. constructor; [by apply IH|].
    apply Forall_forall. intros y Hy. rewrite Forall_forall in Hx.
    apply Hx. by eapply elem_of_sublist.
  - apply StronglySorted_inv in Hl as [Hl _]. by apply IH.
Qed.

Lemma StronglySorted_and {A} (R1 R2 : relation A) l :
  StronglySorted R1 l → StronglySorted R2 l →
  StronglySorted (λ x y, R1 x y ∧ R2 x y) l.
Proof.
  induction l as [|x l IH]; intros H1 H2; [constructor|].
  apply StronglySorted_inv in H1 as [H1 F1].
  apply StronglySorted_inv in H2 as [H2 F2].
  constructor; [by apply IH|].
  rewrite Forall_forall in *. intros y Hy. split; auto.
Qed.

(** Two distinct members of a strongly sorted list are related one way or
    the other, and the related one comes first. *)
Lemma StronglySorted_pair (R : relation nat) l x y :
  StronglySorted R l → x ∈ l → y ∈ l → x ≠ y →
  (R x y ∧ precedes l x y) ∨ (R y x ∧ precedes l y x).
Proof.
  induction l as [|z l IH]; intros Hl Hx Hy Hne; [by apply elem_of_nil in Hx|].
  apply StronglySorted_inv in Hl as [Hl Hz]. rewrite Forall_forall in Hz.
  apply elem_of_cons in Hx as [->|Hx]; apply elem_of_cons in Hy as [->|Hy].
  - done.
  - left. split; [by apply Hz|].
    apply list_elem_of_split in Hy as (l2 & l3 & ->). by exists [], l2, l3.
  - right. split; [by apply Hz|].
    apply list_elem_of_split in Hx as (l2 & l3 & ->). by exists [], l2, l3.
  - destruct (IH Hl Hx Hy Hne) as [[? (l1 & l2 & l3 & ->)]|[? (l1 & l2 & l3 & ->)]];
      [left|right]; (split; [done|]); by exists (z :: l1), l2, l3.
Qed.

(** ** The loop of [nms] *)

Lemma nms_while_greedy thr dets fuel od kp :
  Forall (λ j, j < length dets)%nat od → (length od ≤ fuel)%nat →
  ∃ ks, nms_while thr fuel (bx1 <$> dets) (by1 <$> dets) (bx2 <$> dets) (by2 <$> dets)
          (area <$> dets) (LoopState od kp) = Ok (LoopState [] (kp ++ ks))
        ∧ greedy (passes thr dets) od ks.
Proof.
  revert od kp. induction fuel as [|fuel IH]; intros od kp Hv Hlen.
  - destruct od; [|simpl in Hlen; lia]. exists []. rewrite app_nil_r.
    split; [done|constructor].
  - destruct od as [|i rest].
    + exists []. rewrite app_nil_r. split; [done|constructor].
    + cbn [nms_while order]. rewrite (nms_body_valid _ _ _ _ _ Hv), bind_Ok.
      destruct (IH (filter (λ j, passes thr dets i j) rest) (kp ++ [i]))
        as (ks & Hrun & Hg).
      * apply Forall_forall. intros j [_ Hj]%list_elem_of_filter.
        rewrite Forall_forall in Hv. apply Hv. by right.
      * pose proof (length_filter (λ j, passes thr dets i j) rest).
        simpl in Hlen. lia.
      * exists (i :: ks). rewrite <- app_assoc in Hrun. split; [exact Hrun|].
        by constructor.
Qed.

(** ** The candidate order *)

Section SortFacts.
Variable scores : list Q.

Lemma before_le i j : before scores i j → score_at scores j <= score_at scores i.
Proof. intros [H|[H _]]; [by apply Qlt_le_weak|]. rewrite H. apply Qle_refl. Qed.

Lemma ins_perm x l : ins (score_at scores) x l ≡ₚ x :: l.
Proof.
  induction l as [|pk l IH]; simpl; [done|].
  destruct (Qlt_le_dec _ _); [|done]. rewrite IH. apply perm_swap.
Qed.

Lemma ins_sorted x l :
  StronglySorted (before scores) l → Forall (λ y, y < x)%nat l →
  StronglySorted (before scores) (ins (score_at scores) x l).
Proof.
  induction l as [|pk l IH]; intros Hl Hx; simpl.
  - repeat constructor.
  - pose proof Hl as Hl0.
    apply StronglySorted_inv in Hl as [Hl Hpk].
    apply Forall_cons in Hx as [Hpkx Hx].
    destruct (Qlt_le_dec _ _) as [Hlt|Hle].
    + constructor; [by apply IH|].
      rewrite ins_perm. constructor; [by left|done].
    + constructor; [done|]. apply Forall_forall. intros y Hy.
      assert (Hyx : (y < x)%nat).
      { apply elem_of_cons in Hy as [->|Hy]; [done|].
        rewrite Forall_forall in Hx. by apply Hx. }
      assert (Hv : score_at scores y <= score_at scores x).
      { eapply Qle_trans; [|exact Hle].
        apply elem_of_cons in Hy as [->|Hy]; [apply Qle_refl|].
        rewrite Forall_forall in Hpk. by apply before_le, Hpk. }
      apply Qle_lt_or_eq in Hv as [?|?]; [by left|by right].
Qed.

Lemma foldl_ins_inv n k acc :
  StronglySorted (before scores) acc → Forall (λ y, y < k)%nat acc →
  StronglySorted (before scores)
    (foldl (λ rpre i, ins (score_at scores) i rpre) acc (seq k n))
  ∧ foldl (λ rpre i, ins (score_at scores) i rpre) acc (seq k n) ≡ₚ seq k n ++ acc.
Proof.
  revert k acc. induction n as [|n IH]; intros k acc Hs Hk; simpl; [done|].
  destruct (IH (S k) (ins (score_at scores) k acc)) as [H1 H2].
  - by apply ins_sorted.
  - rewrite ins_perm. constructor; [lia|].
    eapply Forall_impl; [exact Hk|]. simpl. lia.
  - split; [done|]. rewrite H2, ins_perm. by rewrite Permutation_middle.
Qed.

(** The candidate order is sorted: scores descend, equal scores by
    descending index. *)
Lemma order_sorted : StronglySorted (before scores) (reverse (argsort scores)).
Proof.
  unfold argsort. rewrite reverse_involutive.
  apply foldl_ins_inv; constructor.
Qed.

Lemma order_perm : reverse (argsort scores) ≡ₚ seq 0 (length scores).
Proof.
  unfold argsort. rewrite reverse_involutive.
  destruct (foldl_ins_inv (length scores) 0 []) as [_ H]; [constructor..|].
  by rewrite H, app_nil_r.
Qed.

Lemma order_elem i : i ∈ reverse (argsort scores) ↔ (i < length scores)%nat.
Proof. rewrite order_perm, elem_of_seq. lia. Qed.

Lemma order_NoDup : NoDup (reverse (argsort scores)).
Proof. rewrite order_perm. apply NoDup_seq. Qed.

Lemma order_length : length (reverse (argsort scores)) = length scores.
Proof. by rewrite order_perm, length_seq. Qed.

End SortFacts.

(** ** [nms] on arrays of matching length *)

Lemma nms_fuel_greedy thr dets scores fuel :
  (length scores ≤ length dets)%nat → (length scores ≤ fuel)%nat →
  ∃ ks, nms_fuel thr fuel dets scores = Ok ks
        ∧ greedy (passes thr dets) (reverse (argsort scores)) ks.
Proof.
  intros Hlen Hfuel. unfold nms_fuel. rewrite areas_fmap.
  destruct (nms_while_greedy thr dets fuel (reverse (argsort scores)) [])
    as (ks & Hrun & Hg).
  - apply Forall_forall. intros j Hj%order_elem. lia.
  - by rewrite order_length.
  - exists ks. rewrite Hrun. by split.
Qed.

Lemma nms_greedy thr dets scores :
  (length scores ≤ length dets)%nat →
  ∃ ks, nms thr dets scores = Ok ks
        ∧ greedy (passes thr dets) (reverse (argsort scores)) ks.
Proof. intros H. unfold nms. apply nms_fuel_greedy; [exact H|lia]. Qed.

(** ** Termination of the loop, on any arrays *)

Ltac bind_inv H :=
  repeat (apply bind_Ok_inv in H as (? & ? & H); cbv beta zeta in H).

Lemma idx_Raise {A} (a : list A) i e : idx a i = Raise e → e = IndexError.
Proof. unfold idx. destruct (a !! i); intros H; by inversion H. Qed.

Lemma mapR_Raise {A B} (F : A → result B) (P : exn → Prop) l e :
  (∀ x e', F x = Raise e' → P e') → mapR F l = Raise e → P e.
Proof.
  intros HF. induction l as [|x l IH]; simpl; [done|].
  destruct (F x) eqn:Hx; simpl.
  - destruct (mapR F l); simpl; [done|]. intros H. inversion H; subst. by apply IH.
  - intros H. inversion H; subst. by eapply HF.
Qed.

Lemma gather_Raise {A} (a : list A) js e : gather a js = Raise e → e = IndexError.
Proof. apply (mapR_Raise _ (λ e, e = IndexError)). intros ??. apply idx_Raise. Qed.

Lemma nms_body_Raise thr x1 y1 x2 y2 areas st e :
  nms_body thr x1 y1 x2 y2 areas st = Raise e → e = IndexError.
Proof.
  unfold nms_body.
  repeat match goal with
  | |- (idx ?a ?i ≫= _) = Raise _ → _ =>
      let E := fresh "E" in
      destruct (idx a i) eqn:E;
      [rewrite bind_Ok; cbv beta zeta
      |intros H; inversion H; subst; by eapply idx_Raise]
  | |- (gather ?a ?js ≫= _) = Raise _ → _ =>
      let E := fresh "E" in
      destruct (gather a js) eqn:E;
      [rewrite bind_Ok; cbv beta zeta
      |intros H; inversion H; subst; by eapply gather_Raise]
  end.
  done.
Qed.

Lemma nms_body_Ok thr x1 y1 x2 y2 areas st st' :
  nms_body thr x1 y1 x2 y2 areas st = Ok st' →
  (length (order st') < length (order st))%nat
  ∧ keep st' = keep st ++ take 1 (order st).
Proof.
  intros H. unfold nms_body in H. bind_inv H. inversion H; subst; clear H.
  repeat match goal with
  | H : gather _ _ = Ok _ |- _ => apply mapR_length in H
  | H : idx (order st) 0 = Ok _ |- _ => apply idx_Ok in H
  end.
  destruct (order st) as [|i rest]; [done|]. simplify_eq/=.
  split; [|done].
  match goal with H : length _ = length (_ <$> np_where _ ?ovr) |- _ =>
    rewrite H, length_fmap;
    pose proof (np_where_from_length (λ o, fle o thr) 0 ovr) as Hw
  end.
  unfold np_where.
  repeat first [rewrite length_zip_with in Hw | rewrite length_fmap in Hw].
  rewrite drop_0 in *. simpl. lia.
Qed.

Lemma nms_while_fuel thr x1 y1 x2 y2 areas fuel fuel' st :
  (length (order st) ≤ fuel)%nat → (length (order st) ≤ fuel')%nat →
  nms_while thr fuel x1 y1 x2 y2 areas st = nms_while thr fuel' x1 y1 x2 y2 areas st.
Proof.
  revert fuel' st. induction fuel as [|fuel IH]; intros fuel' st H1 H2.
  - destruct st as [[|??] ?]; simpl in *; [|lia]. by destruct fuel'.
  - destruct fuel' as [|fuel'].
    + destruct st as [[|??] ?]; simpl in *; [done|lia].
    + simpl. destruct (order st) eqn:Ho; [done|].
      destruct (nms_body thr x1 y1 x2 y2 areas st) as [st'|] eqn:Hb; [|done].
      rewrite !bind_Ok. apply nms_body_Ok in Hb as [Hlt _].
      rewrite Ho in *. simpl in *. apply IH; lia.
Qed.

Lemma nms_while_Raise thr x1 y1 x2 y2 areas fuel st e :
  (length (order st) ≤ fuel)%nat →
  nms_while thr fuel x1 y1 x2 y2 areas st = Raise e → e = IndexError.
Proof.
  revert st. induction fuel as [|fuel IH]; intros st Hlen.
  - destruct st as [[|??] ?]; simpl in *; [done|lia].
  - simpl. destruct (order st) eqn:Ho; [done|].
    destruct (nms_body thr x1 y1 x2 y2 areas st) as [st'|] eqn:Hb.
    + rewrite bind_Ok. apply nms_body_Ok in Hb as [Hlt _].
      rewrite Ho in *. simpl in *. apply IH. lia.
    + intros H. inversion H; subst. by eapply nms_body_Raise.
Qed.

(** Each pass appends one index to [keep]: the passes made are counted by
    the length of the final [keep]. *)
Lemma nms_while_keep thr x1 y1 x2 y2 areas fuel st st' :
  nms_while thr fuel x1 y1 x2 y2 areas st = Ok st' →
  (length (keep st') ≤ length (keep st) + length (order st))%nat.
Proof.
  revert st. induction fuel as [|fuel IH]; intros st.
  - simpl. destruct (order st); [|done]. intros H; inversion H; subst. lia.
  - simpl. destruct (order st) eqn:Ho; [intros H; inversion H; subst; lia|].
    destruct (nms_body thr x1 y1 x2 y2 areas st) as [st1|] eqn:Hb; [|done].
    rewrite bind_Ok. intros H. apply IH in H.
    apply nms_body_Ok in Hb as [Hlt Hk]. rewrite Ho in *.
    rewrite Hk, length_app in H. simpl in *. lia.
Qed.

(** * The claims on [nms] *)

Lemma greedy_sorted thr dets scores ks :
  greedy (passes thr dets) (reverse (argsort scores)) ks →
  StronglySorted (λ i j, passes thr dets i j ∧ before scores i j) ks.
Proof.
  intros Hg. apply StronglySorted_and.
  - by eapply greedy_pairwise.
  - eapply StronglySorted_sublist; [by eapply greedy_sublist|apply order_sorted].
Qed.

(** C1.  On [N] boxes and [N] scores [nms] returns indices such that no kept
    box overlaps a kept box of greater score by more than [nms_thresh]: the
    IoU, with the intersection width and height floored at [eps], passes the
    test [IoU <= nms_thresh].  A candidate is discarded only when it fails
    that test against a kept box. *)
Theorem nms_no_overlap thr dets scores :
  length dets = length scores →
  ∃ ks, nms thr dets scores = Ok ks
    ∧ (∀ i j, i ∈ ks → j ∈ ks → score_at scores j < score_at scores i →
         fle (iou (box_at dets i) (box_at dets j)) thr = true)
    ∧ (∀ j, (j < length scores)%nat → j ∉ ks →
         ∃ i, i ∈ ks ∧ fle (iou (box_at dets i) (box_at dets j)) thr = false).
Proof.
  intros Hlen. destruct (nms_greedy thr dets scores) as (ks & Hrun & Hg); [lia|].
  exists ks. split; [done|]. split.
  - intros i j Hi Hj Hlt.
    assert (Hne : i ≠ j) by (intros ->; by apply Qlt_irrefl in Hlt).
    destruct (StronglySorted_pair _ ks i j (greedy_sorted _ _ _ _ Hg) Hi Hj Hne)
      as [[[Hp _] _]|[[_ Hb] _]].
    + by apply Is_true_eq_true.
    + apply before_le in Hb. by apply Qlt_not_le in Hlt.
  - intros j Hj Hn. apply (greedy_maximal _ _ _ j Hg); [by apply order_elem|done].
Qed.

Lemma nms_no_overlap_witness :
  ∃ ks, nms (3#10) [Box 0 0 10 10; Box 1 1 9 9; Box 100 100 110 110]
            [9#10; 8#10; 1#2] = Ok ks
    ∧ (∀ i j, i ∈ ks → j ∈ ks →
         score_at [9#10; 8#10; 1#2] j < score_at [9#10; 8#10; 1#2] i →
         fle (iou (box_at [Box 0 0 10 10; Box 1 1 9 9; Box 100 100 110 110] i)
                  (box_at [Box 0 0 10 10; Box 1 1 9 9; Box 100 100 110 110] j))
             (3#10) = true)
    ∧ (∀ j, (j < length [9#10; 8#10; 1#2])%nat → j ∉ ks →
         ∃ i, i ∈ ks ∧
           fle (iou (box_at [Box 0 0 10 10; Box 1 1 9 9; Box 100 100 110 110] i)
                    (box_at [Box 0 0 10 10; Box 1 1 9 9; Box 100 100 110 110] j))
               (3#10) = false).
Proof.
  apply (nms_no_overlap (3#10) [Box 0 0 10 10; Box 1 1 9 9; Box 100 100 110 110]
           [9#10; 8#10; 1#2]).
  reflexivity.
Defined.

(** C9.  On non-empty arrays of matching length the keep list of [nms] is
    not empty, its first element is an index of maximal score, and its
    elements are distinct valid indices. *)
Theorem nms_keep_head thr dets scores :
  length dets = length scores → (0 < length scores)%nat →
  ∃ k ks, nms thr dets scores = Ok (k :: ks)
    ∧ (∀ j, (j < length scores)%nat → score_at scores j <= score_at scores k)
    ∧ NoDup (k :: ks)
    ∧ Forall (λ i, (i < length scores)%nat) (k :: ks).
Proof.
  intros Hlen Hpos.
  destruct (nms_greedy thr dets scores) as (ks & Hrun & Hg); [lia|].
  pose proof (order_sorted scores) as Hs.
  pose proof (order_length scores) as Hl.
  pose proof (greedy_sublist _ _ _ Hg) as Hsub.
  destruct (reverse (argsort scores)) as [|k rest] eqn:Ho; [simpl in Hl; lia|].
  inversion Hg as [|k' rest' ks' Hg']; subst.
  exists k, ks'. split; [done|]. split; [|split].
  - intros j Hj. apply order_elem in Hj. rewrite Ho in Hj.
    apply StronglySorted_inv in Hs as [_ Hk].
    apply elem_of_cons in Hj as [->|Hj]; [apply Qle_refl|].
    rewrite Forall_forall in Hk. by apply before_le, Hk.
  - eapply sublist_NoDup; [|exact Hsub]. rewrite <- Ho. apply order_NoDup.
  - apply Forall_forall. intros i Hi. apply order_elem. rewrite Ho.
    by eapply elem_of_sublist.
Qed.

Lemma nms_keep_head_witness :
  ∃ k ks, nms (3#10) [Box 0 0 10 10; Box 1 1 9 9; Box 100 100 110 110]
              [8#10; 9#10; 1#2] = Ok (k :: ks)
    ∧ (∀ j, (j < length [8#10; 9#10; 1#2])%nat →
         score_at [8#10; 9#10; 1#2] j <= score_at [8#10; 9#10; 1#2] k)
    ∧ NoDup (k :: ks)
    ∧ Forall (λ i, (i < length [8#10; 9#10; 1#2])%nat) (k :: ks).
Proof.
  apply (nms_keep_head (3#10) [Box 0 0 10 10; Box 1 1 9 9; Box 100 100 110 110]
           [8#10; 9#10; 1#2]).
  - reflexivity.
  - simpl. lia.
Defined.

(** C10.  The loop of [nms] terminates on every input.  Each pass shortens
    [order] and appends its head to [keep]; [N] passes suffice for [N]
    scores, more fuel changes nothing, and [keep] has at most [N] entries,
    one per pass. *)
Theorem nms_terminates thr dets scores :
  (∀ x1 y1 x2 y2 areas st st',
      nms_body thr x1 y1 x2 y2 areas st = Ok st' →
      (length (order st') < length (order st))%nat
      ∧ keep st' = keep st ++ take 1 (order st))
  ∧ nms thr dets scores ≠ Raise OutOfFuel
  ∧ (∀ fuel, (length scores ≤ fuel)%nat →
       nms_fuel thr fuel dets scores = nms thr dets scores)
  ∧ (∀ ks, nms thr dets scores = Ok ks → (length ks ≤ length scores)%nat)
  ∧ ((length scores ≤ length dets)%nat → is_Ok (nms thr dets scores)).
Proof.
  split; [intros *; apply nms_body_Ok|].
  split; [|split; [|split]].
  - unfold nms, nms_fuel. cbv zeta.
    destruct (nms_while _ _ _ _ _ _ _ _) as [st|e] eqn:Hw; [done|].
    apply nms_while_Raise in Hw; [by subst|].
    simpl. by rewrite order_length.
  - intros fuel Hf. unfold nms, nms_fuel. cbv zeta.
    rewrite (nms_while_fuel thr _ _ _ _ _ fuel (length scores)); [done|..];
      simpl; rewrite order_length; lia.
  - intros ks. unfold nms, nms_fuel. cbv zeta.
    destruct (nms_while _ _ _ _ _ _ _ _) as [st|e] eqn:Hw; [|done].
    rewrite bind_Ok. intros H; inversion H; subst.
    apply nms_while_keep in Hw. simpl in Hw. by rewrite order_length in Hw.
  - intros Hlen. destruct (nms_greedy thr dets scores Hlen) as (ks & -> & _).
    by exists ks.
Qed.

Lemma nms_terminates_witness :
  nms (3#10) [Box 0 0 10 10; Box 1 1 9 9] [9#10; 8#10] ≠ Raise OutOfFuel
  ∧ nms_fuel (3#10) 5 [Box 0 0 10 10; Box 1 1 9 9] [9#10; 8#10]
    = nms (3#10) [Box 0 0 10 10; Box 1 1 9 9] [9#10; 8#10]
  ∧ is_Ok (nms (3#10) [Box 0 0 10 10; Box 1 1 9 9] [9#10; 8#10]).
Proof.
  destruct (nms_terminates (3#10) [Box 0 0 10 10; Box 1 1 9 9] [9#10; 8#10])
    as (_ & H1 & H2 & _ & H3).
  split; [exact H1|]. split; [apply H2; simpl; lia|apply H3; simpl; lia].
Defined.

(** ** The order of equal scores *)

Lemma precedes_lookup l i j :
  precedes l i j → ∃ p q, (p < q)%nat ∧ l !! p = Some i ∧ l !! q = Some j.
Proof.
  intros (l1 & l2 & l3 & ->).
  exists (length l1), (length l1 + S (length l2))%nat. split; [lia|]. split.
  - by apply list_lookup_middle.
  - rewrite lookup_app_r by lia.
    replace (length l1 + S (length l2) - length l1)%nat with (S (length l2)) by lia.
    simpl. by apply list_lookup_middle.
Qed.

Lemma precedes_NoDup l i j : NoDup l → precedes l i j → ¬ precedes l j i.
Proof.
  intros Hnd (p & q & Hpq & Hp & Hq)%precedes_lookup
             (p' & q' & Hpq' & Hp' & Hq')%precedes_lookup.
  pose proof (NoDup_lookup _ _ _ _ Hnd Hp Hq').
  pose proof (NoDup_lookup _ _ _ _ Hnd Hq Hp'). lia.
Qed.

(** C3, as the code has it.  Among equal scores the candidate order of
    [nms] puts the larger original index first (arrays of at most 16
    scores, where numpy's [argsort] is the insertion sort of [ins]). *)
Theorem nms_order_ties scores i j :
  (length scores ≤ 16)%nat → (i < j)%nat → (j < length scores)%nat →
  score_at scores i == score_at scores j →
  precedes (reverse (argsort scores)) j i
  ∧ ¬ precedes (reverse (argsort scores)) i j.
Proof.
  intros _ Hij Hj Heq.
  assert (Hp : precedes (reverse (argsort scores)) j i).
  { destruct (StronglySorted_pair _ _ i j (order_sorted scores))
      as [[[Hb|[_ Hb]] _]|[_ Hp]]; try done.
    - apply order_elem. lia.
    - by apply order_elem.
    - lia.
    - rewrite Heq in Hb. by apply Qlt_irrefl in Hb.
    - lia. }
  split; [done|]. apply precedes_NoDup; [apply order_NoDup|done].
Qed.

Lemma nms_order_ties_witness :
  precedes (reverse (argsort [1#2; 3#4; 1#2])) 2 0
  ∧ ¬ precedes (reverse (argsort [1#2; 3#4; 1#2])) 0 2.
Proof.
  apply (nms_order_ties [1#2; 3#4; 1#2] 0 2).
  - simpl. lia.
  - lia.
  - simpl. lia.
  - reflexivity.
Defined.

(** C3, as stated, fails: of two boxes of equal score the later one comes
    first in the candidate order, and it is the one [nms] keeps. *)
Lemma nms_order_ties_counterexample :
  score_at [1#2; 1#2] 0 == score_at [1#2; 1#2] 1
  ∧ reverse (argsort [1#2; 1#2]) = [1; 0]%nat
  ∧ ¬ precedes (reverse (argsort [1#2; 1#2])) 0 1
  ∧ nms (3#10) [Box 0 0 1 1; Box 0 0 1 1] [1#2; 1#2] = Ok [1%nat].
Proof.
  split; [reflexivity|]. split; [vm_compute; reflexivity|].
  split; [|vm_compute; reflexivity].
  apply precedes_NoDup; [apply order_NoDup|].
  exists [], [], []. vm_compute. reflexivity.
Qed.

(** ** Facts for [postprocess] *)

(** [a[np.where(cond(s))]]: the rows of [a] at the positions where the
    entry of [s] passes. *)
Lemma gather_where_zip {A B} (c : B → bool) (pre a : list A) (s : list B) :
  (length s ≤ length a)%nat →
  gather (pre ++ a) (np_where_from c (length pre) s)
  = Ok ((filter (λ p, c p.2) (zip a s)).*1).
Proof.
  revert pre a. induction s as [|y s IH]; intros pre a Hlen.
  - by destruct a.
  - destruct a as [|x a]; [simpl in Hlen; lia|]. simpl in Hlen.
    specialize (IH (pre ++ [x]) a ltac:(lia)).
    rewrite <- app_assoc, length_app in IH. simpl in IH.
    replace (length pre + 1)%nat with (S (length pre)) in IH by lia.
    cbn [np_where_from zip zip_with]. rewrite filter_cons. cbn [snd].
    destruct (c y) eqn:Hc.
    + rewrite decide_True by done.
      unfold gather in *. cbn [mapR fmap list_fmap fst].
      rewrite (idx_lookup _ _ x) by (by apply list_lookup_middle).
      rewrite bind_Ok.
      match goal with |- ?r ≫= _ = _ =>
        replace r with (Ok ((filter (λ p : A * B, c p.2) (zip a s)).*1))
      end; [done|..]; symmetry; exact IH.
    + rewrite decide_False by (simpl; tauto). exact IH.
Qed.

Lemma filter_zip_snd {A B} (c : B → bool) (a : list A) (s : list B) :
  (length s ≤ length a)%nat →
  (filter (λ p, c p.2) (zip a s)).*2 = filter (λ y, c y) s.
Proof.
  revert a. induction s as [|y s IH]; intros [|x a] Hlen; simpl in *; try done; [lia|].
  rewrite !filter_cons. simpl. destruct (decide (c y)); [|apply IH; lia].
  change ((?x :: ?l).*2) with (x.2 :: l.*2). simpl. f_equal. apply IH. lia.
Qed.

Lemma filter_zip_diag {B} (c : B → bool) (s : list B) :
  (filter (λ p, c p.2) (zip s s)).*1 = filter (λ y, c y) s.
Proof.
  induction s as [|y s IH]; [done|]. simpl. rewrite !filter_cons. simpl.
  destruct (decide (c y)); [|exact IH].
  change ((?x :: ?l).*1) with (x.1 :: l.*1). simpl. f_equal. exact IH.
Qed.

Lemma gather_where_self {B} (c : B → bool) (s : list B) :
  gather s (np_where c s) = Ok (filter (λ y, c y) s).
Proof.
  rewrite <- filter_zip_diag. by apply (gather_where_zip c [] s s).
Qed.

Lemma gather_where_rows {A B} (c : B → bool) (a : list A) (s : list B) :
  (length s ≤ length a)%nat →
  gather a (np_where c s) = Ok ((filter (λ p, c p.2) (zip a s)).*1).
Proof. apply (gather_where_zip c [] a s). Qed.

(** [np.where] as a filter on the positions. *)
Lemma np_where_from_filter {A} (c : A → bool) (P : nat → Prop)
    `{!∀ i, Decision (P i)} k (a : list A) :
  (∀ i x, a !! i = Some x → (c x = true ↔ P (k + i)%nat)) →
  np_where_from c k a = filter P (seq k (length a)).
Proof.
  revert k. induction a as [|x a IH]; intros k Hc; [done|].
  simpl. rewrite filter_cons.
  pose proof (Hc 0%nat x eq_refl) as H0. rewrite Nat.add_0_r in H0.
  assert (IH' : np_where_from c (S k) a = filter P (seq (S k) (length a))).
  { apply IH. intros i y Hy. rewrite (Hc (S i) y Hy).
    by replace (k + S i)%nat with (S k + i)%nat by lia. }
  destruct (c x).
  - rewrite decide_True by (by apply H0). by rewrite IH'.
  - rewrite decide_False; [done|]. intros HP. apply H0 in HP. done.
Qed.

(** [keep[c_keep] = 1] on a zero mask. *)
Lemma scatter_mask (a : list Z) (ks : list nat) :
  Forall (λ i, i < length a)%nat ks →
  ∃ mask, scatter a ks 1%Z = Ok mask ∧ length mask = length a
    ∧ ∀ i, mask !! i =
        if decide (i ∈ ks) then (if decide (i < length a)%nat then Some 1%Z else None)
        else a !! i.
Proof.
  revert a. induction ks as [|k ks IH]; intros a Hv.
  - exists a. split; [done|]. split; [done|]. intros i.
    rewrite decide_False; [done|]. apply not_elem_of_nil.
  - apply Forall_cons in Hv as [Hk Hv]. simpl. rewrite decide_True by done.
    destruct (IH (<[k:=1%Z]> a)) as (mask & Hs & Hl & Hm).
    { by rewrite length_insert. }
    rewrite length_insert in Hl. exists mask. split; [done|]. split; [done|].
    intros i. rewrite Hm, length_insert.
    destruct (decide (i ∈ ks)) as [Hi|Hi].
    + destruct (decide (i ∈ k :: ks)) as [|Hn]; [done|].
      exfalso. apply Hn. by right.
    + destruct (decide (i = k)) as [->|Hne].
      * destruct (decide (k ∈ k :: ks)) as [|Hn]; [|exfalso; apply Hn; left].
        rewrite decide_True by done. by apply list_lookup_insert_eq.
      * destruct (decide (i ∈ k :: ks)) as [[?|?]%elem_of_cons|Hn]; [done..|].
        by apply list_lookup_insert_ne.
Qed.

Lemma scatter_Raise {A} (a : list A) ks v e : scatter a ks v = Raise e → e = IndexError.
Proof.
  revert a. induction ks as [|k ks IH]; intros a; simpl; [done|].
  destruct (decide _); [apply IH|]. intros H. by inversion H.
Qed.

(** The positions of the mask that are set: the kept indices, ascending. *)
Lemma where_mask n (ks : list nat) mask :
  length mask = n →
  (∀ i, mask !! i =
     if decide (i ∈ ks) then (if decide (i < n)%nat then Some 1%Z else None)
     else replicate n 0%Z !! i) →
  np_where (λ k, (0 <? k)%Z) mask = filter (λ i, i ∈ ks) (seq 0 n).
Proof.
  intros Hl Hm. unfold np_where. rewrite <- Hl.
  apply np_where_from_filter. intros i x Hx. simpl.
  rewrite Hm in Hx. destruct (decide (i ∈ ks)) as [Hi|Hi].
  - destruct (decide _); [|done]. by simplify_eq.
  - apply lookup_replicate in Hx as [-> _]. split; [done|]. intros ?. done.
Qed.

Lemma gather_valid {A} (d : A) (a : list A) js :
  Forall (λ j, j < length a)%nat js →
  gather a js = Ok ((λ j, default d (a !! j)) <$> js).
Proof.
  intros H. pose proof (gather_fmap_valid id d a js H) as Hg.
  by rewrite list_fmap_id in Hg.
Qed.

Lemma nms_Raise thr dets scores e : nms thr dets scores = Raise e → e = IndexError.
Proof.
  unfold nms, nms_fuel. cbv zeta.
  destruct (nms_while _ _ _ _ _ _ _ _) as [st|e'] eqn:Hw; [done|].
  intros H. inversion H; subst. apply nms_while_Raise in Hw; [done|].
  simpl. by rewrite order_length.
Qed.

Lemma greedy_valid thr dets scores ks :
  greedy (passes thr dets) (reverse (argsort scores)) ks →
  Forall (λ i, i < length scores)%nat ks ∧ NoDup ks.
Proof.
  intros Hg%greedy_sublist. split.
  - apply Forall_forall. intros i Hi. apply order_elem. by eapply elem_of_sublist.
  - eapply sublist_NoDup; [apply order_NoDup|done].
Qed.

Lemma ascending_valid ks n : Forall (λ i, i < n)%nat (ascending ks n).
Proof.
  apply Forall_forall. intros i [_ Hi]%list_elem_of_filter.
  apply elem_of_seq in Hi. lia.
Qed.

Lemma seq_sorted k n : StronglySorted lt (seq k n).
Proof.
  revert k. induction n as [|n IH]; intros k; simpl; constructor; [apply IH|].
  apply Forall_forall. intros i Hi%elem_of_seq. lia.
Qed.

Lemma ascending_sorted ks n : StronglySorted lt (ascending ks n).
Proof. eapply StronglySorted_sublist; [apply sublist_filter|apply seq_sorted]. Qed.

Lemma ascending_perm ks n :
  NoDup ks → Forall (λ i, i < n)%nat ks → ascending ks n ≡ₚ ks.
Proof.
  intros Hnd Hv. apply NoDup_Permutation; [|done|].
  - apply NoDup_filter, NoDup_seq.
  - intros i. unfold ascending. rewrite list_elem_of_filter, elem_of_seq.
    rewrite Forall_forall in Hv. split; [tauto|]. intros Hi.
    split; [done|]. specialize (Hv i Hi). lia.
Qed.

(** What [postprocess] computes when every score has a box. *)
Lemma postprocess_spec m boxes scores :
  (length scores ≤ length boxes)%nat →
  ∃ ks, nms (nms_thresh m) (passing (conf_thresh m) boxes scores).*1
            (passing (conf_thresh m) boxes scores).*2 = Ok ks
    ∧ NoDup ks
    ∧ Forall (λ i, i < length (passing (conf_thresh m) boxes scores))%nat ks
    ∧ postprocess m boxes scores
      = Ok (box_at (passing (conf_thresh m) boxes scores).*1
              <$> ascending ks (length (passing (conf_thresh m) boxes scores)),
            score_at (passing (conf_thresh m) boxes scores).*2
              <$> ascending ks (length (passing (conf_thresh m) boxes scores))).
Proof.
  intros Hlen. set (F := passing (conf_thresh m) boxes scores).
  destruct (nms_greedy (nms_thresh m) F.*1 F.*2) as (ks & Hrun & Hg).
  { by rewrite !length_fmap. }
  apply greedy_valid in Hg as [Hv Hnd]. rewrite length_fmap in Hv.
  exists ks. split; [done|]. split; [done|]. split; [done|].
  unfold postprocess. cbv zeta.
  rewrite (gather_where_rows _ boxes scores Hlen), bind_Ok.
  rewrite gather_where_self, bind_Ok.
  rewrite <- (filter_zip_snd (λ s, Qle_bool (conf_thresh m) s) boxes scores Hlen).
  fold (passing (conf_thresh m) boxes scores). fold F.
  rewrite Hrun, bind_Ok.
  destruct (scatter_mask (replicate (length F.*1) 0%Z) ks) as (mask & Hs & Hl & Hm).
  { by rewrite length_replicate, length_fmap. }
  rewrite length_replicate in Hl, Hm.
  rewrite Hs, bind_Ok. rewrite (where_mask _ ks mask Hl Hm).
  rewrite length_fmap. fold (ascending ks (length F)).
  rewrite (gather_valid (Box 0 0 0 0)), bind_Ok.
  2:{ rewrite length_fmap. apply ascending_valid. }
  rewrite (gather_valid 0), bind_Ok.
  2:{ rewrite length_fmap. apply ascending_valid. }
  done.
Qed.

Lemma fmap_lookup_seq {A} (d : A) (l : list A) :
  (λ i, default d (l !! i)) <$> seq 0 (length l) = l.
Proof.
  apply list_eq. intros i. rewrite list_lookup_fmap.
  destruct (l !! i) as [x|] eqn:Hx.
  - assert (Hs : seq 0 (length l) !! i = Some i).
    { apply lookup_seq. split; [done|]. by eapply lookup_lt_Some. }
    rewrite Hs. simpl. by rewrite Hx.
  - assert (Hs : seq 0 (length l) !! i = None).
    { apply lookup_ge_None. rewrite length_seq. by apply lookup_ge_None. }
    by rewrite Hs.
Qed.

Lemma np_where_from_none {A} (c : A → bool) k (a : list A) :
  Forall (λ x, c x = false) a → np_where_from c k a = [].
Proof.
  intros H. revert k. induction H as [|x a Hx _ IH]; intros k; simpl; [done|].
  by rewrite Hx.
Qed.

(** * The claims on [postprocess] *)

(** C2, as the code has it.  [postprocess] returns the boxes and scores at
    the indices [nms] kept, in ascending order of those indices (the order
    of the input arrays), which is a rearrangement of the order in which
    [nms] selected them. *)
Theorem postprocess_order m boxes scores :
  length boxes = length scores →
  ∃ ks, nms (nms_thresh m) (passing (conf_thresh m) boxes scores).*1
            (passing (conf_thresh m) boxes scores).*2 = Ok ks
    ∧ postprocess m boxes scores
      = Ok (box_at (passing (conf_thresh m) boxes scores).*1
              <$> ascending ks (length (passing (conf_thresh m) boxes scores)),
            score_at (passing (conf_thresh m) boxes scores).*2
              <$> ascending ks (length (passing (conf_thresh m) boxes scores)))
    ∧ ascending ks (length (passing (conf_thresh m) boxes scores)) ≡ₚ ks
    ∧ StronglySorted lt (ascending ks (length (passing (conf_thresh m) boxes scores))).
Proof.
  intros Hlen.
  destruct (postprocess_spec m boxes scores) as (ks & Hrun & Hnd & Hv & Hp); [lia|].
  exists ks. split; [done|]. split; [done|]. split.
  - by apply ascending_perm.
  - apply ascending_sorted.
Qed.

Lemma postprocess_order_witness :
  ∃ m, init 32 false (1#100) (3#10) [(10, 13); (16, 30); (33, 23)] = Ok m ∧
  ∃ ks, nms (nms_thresh m)
            (passing (conf_thresh m)
               [Box 0 0 (1#10) (1#10); Box (1#2) (1#2) (6#10) (6#10)] [1#2; 9#10]).*1
            (passing (conf_thresh m)
               [Box 0 0 (1#10) (1#10); Box (1#2) (1#2) (6#10) (6#10)] [1#2; 9#10]).*2
          = Ok ks
    ∧ postprocess m [Box 0 0 (1#10) (1#10); Box (1#2) (1#2) (6#10) (6#10)] [1#2; 9#10]
      = Ok (box_at (passing (conf_thresh m)
                      [Box 0 0 (1#10) (1#10); Box (1#2) (1#2) (6#10) (6#10)]
                      [1#2; 9#10]).*1
              <$> ascending ks (length (passing (conf_thresh m)
                      [Box 0 0 (1#10) (1#10); Box (1#2) (1#2) (6#10) (6#10)]
                      [1#2; 9#10])),
            score_at (passing (conf_thresh m)
                      [Box 0 0 (1#10) (1#10); Box (1#2) (1#2) (6#10) (6#10)]
                      [1#2; 9#10]).*2
              <$> ascending ks (length (passing (conf_thresh m)
                      [Box 0 0 (1#10) (1#10); Box (1#2) (1#2) (6#10) (6#10)]
                      [1#2; 9#10])))
    ∧ ascending ks (length (passing (conf_thresh m)
                      [Box 0 0 (1#10) (1#10); Box (1#2) (1#2) (6#10) (6#10)]
                      [1#2; 9#10])) ≡ₚ ks
    ∧ StronglySorted lt
        (ascending ks (length (passing (conf_thresh m)
                      [Box 0 0 (1#10) (1#10); Box (1#2) (1#2) (6#10) (6#10)]
                      [1#2; 9#10]))).
Proof.
  eexists. split; [vm_compute; reflexivity|].
  apply (postprocess_order _
           [Box 0 0 (1#10) (1#10); Box (1#2) (1#2) (6#10) (6#10)] [1#2; 9#10]).
  reflexivity.
Defined.

(** C2, as stated, fails: [nms] selects index 1 (score 0.9) and then index 0
    (score 0.5), and [postprocess] returns index 0 first. *)
Lemma postprocess_order_counterexample :
  passing (1#100) [Box 0 0 (1#10) (1#10); Box (1#2) (1#2) (6#10) (6#10)] [1#2; 9#10]
  = [(Box 0 0 (1#10) (1#10), 1#2); (Box (1#2) (1#2) (6#10) (6#10), 9#10)]
  ∧ nms (3#10) [Box 0 0 (1#10) (1#10); Box (1#2) (1#2) (6#10) (6#10)] [1#2; 9#10]
    = Ok [1; 0]%nat
  ∧ gather [1#2; 9#10] [1; 0]%nat = Ok [9#10; 1#2]
  ∧ (m ← init 32 false (1#100) (3#10) [(10, 13); (16, 30); (33, 23)];
     postprocess m [Box 0 0 (1#10) (1#10); Box (1#2) (1#2) (6#10) (6#10)] [1#2; 9#10])
    = Ok ([Box 0 0 (1#10) (1#10); Box (1#2) (1#2) (6#10) (6#10)], [1#2; 9#10]).
Proof. repeat split; vm_compute; reflexivity. Qed.

(** C5.  [postprocess] runs [nms] on exactly the (box, score) pairs with
    [score >= conf_thresh]; what it returns is a sub-sequence of those
    pairs, so no returned score is below [conf_thresh]; and when no score
    passes, the result is empty and nothing is raised. *)
Theorem postprocess_threshold m boxes scores :
  (length boxes = length scores →
   ∃ ks bs ss,
     nms (nms_thresh m) (passing (conf_thresh m) boxes scores).*1
         (passing (conf_thresh m) boxes scores).*2 = Ok ks
     ∧ postprocess m boxes scores = Ok (bs, ss)
     ∧ zip bs ss
       = (λ i, default (Box 0 0 0 0, 0) (passing (conf_thresh m) boxes scores !! i))
           <$> ascending ks (length (passing (conf_thresh m) boxes scores))
     ∧ zip bs ss `sublist_of` passing (conf_thresh m) boxes scores
     ∧ length bs = length ss
     ∧ Forall (λ s, conf_thresh m <= s) ss)
  ∧ (Forall (λ s, s < conf_thresh m) scores →
     postprocess m boxes scores = Ok ([], [])).
Proof.
  split.
  - intros Hlen. set (F := passing (conf_thresh m) boxes scores).
    destruct (postprocess_spec m boxes scores) as (ks & Hrun & Hnd & Hv & Hp); [lia|].
    fold F in Hrun, Hv, Hp.
    exists ks, (box_at F.*1 <$> ascending ks (length F)),
               (score_at F.*2 <$> ascending ks (length F)).
    assert (Hz : zip (box_at F.*1 <$> ascending ks (length F))
                     (score_at F.*2 <$> ascending ks (length F))
                 = (λ i, default (Box 0 0 0 0, 0) (F !! i)) <$> ascending ks (length F)).
    { rewrite (zip_with_fmap_same pair (box_at F.*1) (score_at F.*2)).
      apply list_fmap_ext. intros _ i _.
      unfold box_at, score_at. rewrite !list_lookup_fmap.
      by destruct (F !! i) as [[??]|]. }
    split; [done|]. split; [done|]. split; [done|]. split; [|split].
    + rewrite Hz. pose proof (fmap_lookup_seq (Box 0 0 0 0, 0) F) as HF.
      assert (Hsub : (λ i, default (Box 0 0 0 0, 0) (F !! i)) <$> ascending ks (length F)
                     `sublist_of`
                     (λ i, default (Box 0 0 0 0, 0) (F !! i)) <$> seq 0 (length F))
        by apply fmap_sublist, sublist_filter.
      by rewrite HF in Hsub.
    + by rewrite !length_fmap.
    + apply Forall_forall. intros s (i & -> & Hi)%list_elem_of_fmap.
      pose proof (ascending_valid ks (length F)) as Ha.
      rewrite Forall_forall in Ha. apply Ha in Hi.
      destruct (lookup_lt_is_Some_2 F i Hi) as [[b s] Hbs].
      unfold score_at. rewrite list_lookup_fmap, Hbs. simpl.
      apply list_elem_of_lookup_2 in Hbs.
      apply list_elem_of_filter in Hbs as [Hc _]. simpl in Hc.
      apply Qle_bool_iff. by apply Is_true_eq_true.
  - intros Hall.
    assert (Hw : np_where (λ s, Qle_bool (conf_thresh m) s) scores = []).
    { apply np_where_from_none.
      eapply Forall_impl; [exact Hall|]. intros s Hs. simpl in Hs.
      destruct (Qle_bool (conf_thresh m) s) eqn:Hc; [|done].
      apply Qle_bool_iff in Hc. by apply Qlt_not_le in Hs. }
    unfold postprocess. cbv zeta. by rewrite Hw.
Qed.

(** ** The tensors built by [create_grid] *)

Lemma list_bind_assoc {A B C} (f : A → list B) (g : B → list C) (l : list A) :
  (l ≫= f) ≫= g = l ≫= (λ x, f x ≫= g).
Proof.
  induction l as [|x l IH]; [done|]. by rewrite !bind_cons, bind_app, IH.
Qed.

Lemma list_fmap_bind_r {A B C} (f : A → list B) (g : B → C) (l : list A) :
  g <$> (l ≫= f) = l ≫= (λ x, g <$> f x).
Proof.
  induction l as [|x l IH]; [done|]. by rewrite !bind_cons, fmap_app, IH.
Qed.

Lemma concat_fmap_bind {A B} (f : A → list B) (l : list A) :
  concat (f <$> l) = l ≫= f.
Proof.
  induction l as [|x l IH]; [done|]. rewrite fmap_cons, bind_cons. simpl.
  by f_equal.
Qed.

Lemma length_bind_const {A B} (f : A → list B) (l : list A) n :
  Forall (λ x, length (f x) = n) l → length (l ≫= f) = (length l * n)%nat.
Proof.
  induction 1 as [|x l Hx _ IH]; [done|].
  rewrite bind_cons, length_app, Hx, IH. simpl. lia.
Qed.

Lemma fmap_const_replicate {A B} (f : A → B) (l : list A) y :
  Forall (λ x, f x = y) l → f <$> l = replicate (length l) y.
Proof.
  induction 1 as [|x l Hx _ IH]; [done|]. rewrite fmap_cons. simpl.
  by f_equal.
Qed.

Lemma meshgrid_stack hs ws :
  stack_xy (meshgrid (arange hs) (arange ws)).2 (meshgrid (arange hs) (arange ws)).1
  = (λ i, (λ j, [qn j; qn i]) <$> seq 0 ws) <$> seq 0 hs.
Proof.
  unfold stack_xy, meshgrid, arange. simpl.
  rewrite zip_with_fmap_same. apply list_fmap_ext. intros _ i _.
  rewrite zip_with_fmap_r, zip_with_diag. done.
Qed.

Lemma scale_cells_length S s anchors :
  length (scale_cells S s anchors) = (S / s * (S / s))%nat.
Proof.
  unfold scale_cells. rewrite (length_bind_const _ _ (S / s)).
  - by rewrite length_seq.
  - apply Forall_forall. intros i _.
    rewrite (length_bind_const _ _ 1); [rewrite length_seq; lia|].
    by apply Forall_forall.
Qed.

Lemma scale_cells_Forall (P : cell → Prop) S s anchors :
  (∀ i j, P (Cell (qn j) (qn i) (qn s) anchors)) → Forall P (scale_cells S s anchors).
Proof.
  intros H. unfold scale_cells. apply Forall_bind, Forall_forall. intros i _.
  apply Forall_bind, Forall_forall. intros j _. by constructor.
Qed.

Lemma grid_scale_cells anchors A S ind s (a : list (Q * Q)) :
  anchors !! ind = Some ((λ p : Q * Q, [p.1; p.2]) <$> a) →
  grid_scale anchors A S ind s
  = Ok ([(λ d, [[ccx d; ccy d]]) <$> scale_cells S s a],
        [(λ d, replicate A [cstride d; cstride d]) <$> scale_cells S s a],
        (λ d, (λ p : Q * Q, [p.1; p.2]) <$> canchors d) <$> scale_cells S s a).
Proof.
  intros Ha. unfold grid_scale. cbv zeta.
  pose proof (meshgrid_stack (S / s) (S / s)) as Hm.
  destruct (meshgrid (arange (S / s)) (arange (S / s))) as [gy gx]. simpl in Hm.
  rewrite Hm, (idx_lookup _ _ _ Ha), bind_Ok. f_equal. f_equal; [f_equal|].
  - f_equal. rewrite concat_fmap_bind. unfold scale_cells.
    rewrite !list_fmap_bind_r. apply list_bind_ext; [|done]. intros i.
    rewrite list_fmap_bind_r. rewrite <- list_fmap_compose.
    induction (seq 0 (S / s)) as [|j l IH]; [done|].
    rewrite fmap_cons, bind_cons. simpl. by f_equal.
  - f_equal. rewrite <- scale_cells_length with (anchors := a). symmetry.
    apply fmap_const_replicate. by apply scale_cells_Forall.
  - rewrite <- scale_cells_length with (anchors := a). symmetry.
    apply fmap_const_replicate. by apply scale_cells_Forall.
Qed.

Lemma create_grid_cells S A (a0 a1 a2 : list (Q * Q)) :
  create_grid [8; 16; 32]%nat
    [(λ p : Q * Q, [p.1; p.2]) <$> a0; (λ p : Q * Q, [p.1; p.2]) <$> a1;
     (λ p : Q * Q, [p.1; p.2]) <$> a2] A S
  = Ok ([(λ d, [[ccx d; ccy d]]) <$> grid_cells S a0 a1 a2],
        [(λ d, replicate A [cstride d; cstride d]) <$> grid_cells S a0 a1 a2],
        [(λ d, (λ p : Q * Q, [p.1; p.2]) <$> canchors d) <$> grid_cells S a0 a1 a2]).
Proof.
  unfold create_grid, grid_scales.
  rewrite (grid_scale_cells _ _ _ 0 8 a0) by done. rewrite bind_Ok.
  rewrite (grid_scale_cells _ _ _ 1 16 a1) by done. rewrite bind_Ok.
  rewrite (grid_scale_cells _ _ _ 2 32 a2) by done. rewrite !bind_Ok.
  unfold cat_dim1, grid_cells. simpl. rewrite !app_nil_r, !fmap_app. done.
Qed.

(** ** [__init__] *)

Lemma view_anchors_Ok a :
  (length a = 3 * (length a / 3))%nat →
  view_anchors a
  = Ok [(λ p : Q * Q, [p.1; p.2]) <$> scale_anchors a 0;
        (λ p : Q * Q, [p.1; p.2]) <$> scale_anchors a 1;
        (λ p : Q * Q, [p.1; p.2]) <$> scale_anchors a 2].
Proof.
  intros H. unfold view_anchors. cbv zeta. rewrite decide_True by lia.
  unfold scale_anchors. cbv zeta. generalize (length a / 3)%nat. intros k.
  cbn [groups]. rewrite !fmap_take, !fmap_drop, drop_drop.
  by replace (0 * k)%nat with 0%nat by lia; replace (1 * k)%nat with k by lia;
     replace (2 * k)%nat with (k + k)%nat by lia.
Qed.

Lemma view_anchors_Raise a e :
  view_anchors a = Raise e →
  e = RuntimeError ∧ (length a ≠ 3 * (length a / 3))%nat.
Proof.
  unfold view_anchors. cbv zeta. destruct (decide _) as [|Hn]; [done|].
  intros H. inversion H. split; [done|lia].
Qed.

Lemma init_Ok S tr c n a :
  (length a = 3 * (length a / 3))%nat →
  init S tr c n a
  = Ok {| input_size := S; trainable := tr; conf_thresh := c; nms_thresh := n;
          stride := [8; 16; 32]%nat;
          anchor_size := [(λ p : Q * Q, [p.1; p.2]) <$> scale_anchors a 0;
                          (λ p : Q * Q, [p.1; p.2]) <$> scale_anchors a 1;
                          (λ p : Q * Q, [p.1; p.2]) <$> scale_anchors a 2];
          anchor_number := (length a / 3)%nat;
          grid_cell := [(λ d, [[ccx d; ccy d]]) <$> model_cells S a];
          stride_tensor :=
            [(λ d, replicate (length a / 3) [cstride d; cstride d]) <$> model_cells S a];
          all_anchors_wh :=
            [(λ d, (λ p : Q * Q, [p.1; p.2]) <$> canchors d) <$> model_cells S a];
          scale_torch := [[[qn S; qn S; qn S; qn S]]] |}.
Proof.
  intros H. unfold init. cbv zeta. rewrite (view_anchors_Ok a H), bind_Ok.
  by rewrite create_grid_cells.
Qed.

Lemma init_Raise S tr c n a e :
  init S tr c n a = Raise e →
  e = RuntimeError ∧ (length a ≠ 3 * (length a / 3))%nat.
Proof.
  destruct (decide (length a = 3 * (length a / 3))%nat) as [H|H].
  - by rewrite (init_Ok _ _ _ _ _ H).
  - unfold init. cbv zeta. destruct (view_anchors a) as [x|e'] eqn:Hv.
    + unfold view_anchors in Hv. cbv zeta in Hv.
      rewrite decide_False in Hv by lia. done.
    + intros He. inversion He; subst. by apply view_anchors_Raise in Hv.
Qed.

(** * The claim on the error kinds *)

Lemma postprocess_Raise m boxes scores e :
  postprocess m boxes scores = Raise e → e = IndexError.
Proof.
  unfold postprocess. cbv zeta.
  repeat match goal with
  | |- (gather ?a ?js ≫= _) = Raise _ → _ =>
      let E := fresh "E" in
      destruct (gather a js) eqn:E;
      [rewrite bind_Ok; cbv beta zeta
      |intros H; inversion H; subst; by eapply gather_Raise]
  | |- (nms ?t ?a ?b ≫= _) = Raise _ → _ =>
      let E := fresh "E" in
      destruct (nms t a b) eqn:E;
      [rewrite bind_Ok; cbv beta zeta
      |intros H; inversion H; subst; by eapply nms_Raise]
  | |- (scatter ?a ?b ?c ≫= _) = Raise _ → _ =>
      let E := fresh "E" in
      destruct (scatter a b c) eqn:E;
      [rewrite bind_Ok; cbv beta zeta
      |intros H; inversion H; subst; by eapply scatter_Raise]
  end.
  done.
Qed.

(** C4, as the code has it.  The constructor does not look at the
    thresholds: whatever they are it stores them, and it raises only a
    [RuntimeError], when the anchors do not split into three groups.
    [postprocess] returns normally whenever every score has a box, extra
    boxes included; the only error it raises is an [IndexError], and only
    when there are fewer boxes than scores. *)
Theorem errors_raised :
  (∀ S tr c n a, (length a = 3 * (length a / 3))%nat →
     ∃ m, init S tr c n a = Ok m ∧ conf_thresh m = c ∧ nms_thresh m = n)
  ∧ (∀ S tr c n a e, init S tr c n a = Raise e →
       e = RuntimeError ∧ (length a ≠ 3 * (length a / 3))%nat)
  ∧ (∀ m boxes scores, (length scores ≤ length boxes)%nat →
       is_Ok (postprocess m boxes scores))
  ∧ (∀ m boxes scores e, postprocess m boxes scores = Raise e →
       e = IndexError ∧ (length boxes < length scores)%nat).
Proof.
  split; [|split; [|split]].
  - intros S tr c n a H. eexists. split; [by apply init_Ok|done].
  - apply init_Raise.
  - intros m boxes scores H.
    destruct (postprocess_spec m boxes scores H) as (ks & _ & _ & _ & ->).
    by eexists.
  - intros m boxes scores e H. split; [by eapply postprocess_Raise|].
    destruct (decide (length scores ≤ length boxes)%nat) as [Hle|]; [|lia].
    destruct (postprocess_spec m boxes scores Hle) as (ks & _ & _ & _ & Hp).
    by rewrite Hp in H.
Qed.

Lemma errors_raised_witness :
  (∃ m, init 32 false 5 (-2) [(10, 13); (16, 30); (33, 23)] = Ok m
        ∧ conf_thresh m = 5 ∧ nms_thresh m = -2)
  ∧ ∃ m, init 32 false (1#100) (3#10) [(10, 13); (16, 30); (33, 23)] = Ok m
      ∧ is_Ok (postprocess m [Box 0 0 (1#10) (1#10); Box (1#2) (1#2) (6#10) (6#10)]
                 [1#2]).
Proof.
  destruct errors_raised as (H1 & _ & H3 & _). split.
  - apply H1. reflexivity.
  - eexists. split; [vm_compute; reflexivity|]. apply H3. simpl. lia.
Defined.

(** C4, as stated, fails: thresholds outside (0,1) are accepted by the
    constructor, and box and score arrays of different lengths are
    processed, or stopped by an [IndexError]. *)
Lemma errors_raised_counterexample :
  is_Ok (init 32 false 5 (-2) [(10, 13); (16, 30); (33, 23)])
  ∧ is_Ok (m ← init 32 false (1#100) (3#10) [(10, 13); (16, 30); (33, 23)];
           postprocess m [Box 0 0 (1#10) (1#10); Box (1#2) (1#2) (6#10) (6#10)] [1#2])
  ∧ (m ← init 32 false (1#100) (3#10) [(10, 13); (16, 30); (33, 23)];
     postprocess m [Box 0 0 (1#10) (1#10)] [1#2; 1#2]) = Raise IndexError.
Proof.
  split; [|split].
  - eexists. vm_compute. reflexivity.
  - eexists. vm_compute. reflexivity.
  - vm_compute. reflexivity.
Qed.

(** * The claim on the grid table *)

Lemma list_bind_singleton {A B} (g : A → B) (l : list A) :
  l ≫= (λ x, [g x]) = g <$> l.
Proof. induction l as [|x l IH]; [done|]. rewrite bind_cons, fmap_cons. by f_equal. Qed.

Lemma scale_cells_slots S s a : scale_cells S s a ≫= cell_slots = table_scale S s a.
Proof.
  unfold scale_cells, table_scale. rewrite list_bind_assoc.
  apply list_bind_ext; [|done]. intros i. rewrite list_bind_assoc.
  apply list_bind_ext; [|done]. intros j. rewrite bind_singleton.
  unfold cell_slots. simpl. by rewrite list_bind_singleton.
Qed.

Lemma grid_cells_slots S a0 a1 a2 :
  grid_cells S a0 a1 a2 ≫= cell_slots
  = grid_table S [(8, a0); (16, a1); (32, a2)]%nat.
Proof.
  unfold grid_cells, grid_table. rewrite !bind_app, !scale_cells_slots.
  rewrite !bind_cons. simpl. by rewrite app_nil_r.
Qed.

Lemma grid_cells_length S a0 a1 a2 :
  length (grid_cells S a0 a1 a2)
  = (S / 8 * (S / 8) + S / 16 * (S / 16) + S / 32 * (S / 32))%nat.
Proof. unfold grid_cells. rewrite !length_app, !scale_cells_length. lia. Qed.

Lemma grid_cells_anchors S a0 a1 a2 A :
  length a0 = A → length a1 = A → length a2 = A →
  Forall (λ d, length (canchors d) = A) (grid_cells S a0 a1 a2).
Proof.
  intros H0 H1 H2. unfold grid_cells.
  rewrite !Forall_app. repeat split; by apply scale_cells_Forall.
Qed.

(** The rows that the three tensors hold for a list of cells. *)
Lemma table_rows_cells A (D : list cell) :
  Forall (λ d, length (canchors d) = A) D →
  table_rows [(λ d, [[ccx d; ccy d]]) <$> D]
             [(λ d, replicate A [cstride d; cstride d]) <$> D]
             [(λ d, (λ p : Q * Q, [p.1; p.2]) <$> canchors d) <$> D]
  = D ≫= cell_slots.
Proof.
  intros HD. unfold table_rows.
  rewrite (zip_with_fmap_same pair
             (λ d, replicate A [cstride d; cstride d])
             (λ d, (λ p : Q * Q, [p.1; p.2]) <$> canchors d)).
  rewrite zip_with_fmap_same, concat_fmap_bind.
  apply Forall_bind_ext. eapply Forall_impl; [exact HD|].
  intros d Hd. simpl in *.
  rewrite zip_with_fmap_r, zip_with_replicate_l by lia. done.
Qed.

(** C8.  The grid table built by [create_grid] for resolution [S] and [A]
    anchors at each of the strides 8, 16, 32 is the table of the
    specification: scale 0 first, then 1, then 2; cells row-major, y outer
    and x inner; anchors in declared order within a cell.  It has
    [(S/8)^2 * A + (S/16)^2 * A + (S/32)^2 * A] rows, for
    [(S/8)^2 + (S/16)^2 + (S/32)^2] cells. *)
Theorem create_grid_table S A (a0 a1 a2 : list (Q * Q)) :
  length a0 = A → length a1 = A → length a2 = A →
  ∃ g s w,
    create_grid [8; 16; 32]%nat
      [(λ p : Q * Q, [p.1; p.2]) <$> a0; (λ p : Q * Q, [p.1; p.2]) <$> a1;
       (λ p : Q * Q, [p.1; p.2]) <$> a2] A S
    = Ok ([g], [s], [w])
    ∧ table_rows [g] [s] [w] = grid_table S [(8, a0); (16, a1); (32, a2)]%nat
    ∧ length (table_rows [g] [s] [w])
      = (S / 8 * (S / 8) * A + S / 16 * (S / 16) * A + S / 32 * (S / 32) * A)%nat
    ∧ length g = (S / 8 * (S / 8) + S / 16 * (S / 16) + S / 32 * (S / 32))%nat
    ∧ length s = length g ∧ length w = length g.
Proof.
  intros H0 H1 H2. do 3 eexists. split; [apply create_grid_cells|].
  pose proof (grid_cells_anchors S a0 a1 a2 A H0 H1 H2) as HD.
  rewrite (table_rows_cells A _ HD).
  split; [apply grid_cells_slots|]. split; [|split; [|split]].
  - rewrite (length_bind_const _ _ A).
    + rewrite grid_cells_length. lia.
    + eapply Forall_impl; [exact HD|]. intros d Hd. simpl in *.
      unfold cell_slots. by rewrite length_fmap.
  - by rewrite length_fmap, grid_cells_length.
  - by rewrite !length_fmap.
  - by rewrite !length_fmap.
Qed.

Lemma create_grid_table_witness :
  ∃ g s w,
    create_grid [8; 16; 32]%nat
      [(λ p : Q * Q, [p.1; p.2]) <$> [(10, 13); (16, 30)];
       (λ p : Q * Q, [p.1; p.2]) <$> [(33, 23); (30, 61)];
       (λ p : Q * Q, [p.1; p.2]) <$> [(62, 45); (59, 119)]] 2 64
    = Ok ([g], [s], [w])
    ∧ table_rows [g] [s] [w]
      = grid_table 64 [(8%nat, [(10, 13); (16, 30)]); (16%nat, [(33, 23); (30, 61)]);
                       (32%nat, [(62, 45); (59, 119)])]
    ∧ length (table_rows [g] [s] [w])
      = (64 / 8 * (64 / 8) * 2 + 64 / 16 * (64 / 16) * 2 + 64 / 32 * (64 / 32) * 2)%nat
    ∧ length g = (64 / 8 * (64 / 8) + 64 / 16 * (64 / 16) + 64 / 32 * (64 / 32))%nat
    ∧ length s = length g ∧ length w = length g.
Proof.
  apply (create_grid_table 64 2 [(10, 13); (16, 30)] [(33, 23); (30, 61)]
           [(62, 45); (59, 119)]); reflexivity.
Defined.

(** ** Broadcast operations on aligned tensors *)

Lemma Forall2_of_Forall {A B} (P : A → Prop) (Q' : B → Prop) (R : A → B → Prop)
    (a : list A) (b : list B) :
  length a = length b → Forall P a → Forall Q' b →
  (∀ x y, P x → Q' y → R x y) → Forall2 R a b.
Proof.
  intros Hl Ha Hb HR. revert b Hl Hb.
  induction Ha as [|x a Hx _ IH]; intros [|y b] Hl Hb; simplify_eq/=; [constructor|].
  apply Forall_cons in Hb as [Hy Hb]. constructor; [by apply HR|by apply IH].
Qed.

Lemma zip_with_ext_Forall {A B C} (P : A → Prop) (Q' : B → Prop) (f g : A → B → C)
    (a : list A) (b : list B) :
  Forall P a → Forall Q' b → (∀ x y, P x → Q' y → f x y = g x y) →
  zip_with f a b = zip_with g a b.
Proof.
  intros Ha. revert b. induction Ha as [|x a Hx _ IH]; intros [|y b] Hb Hfg; try done.
  apply Forall_cons in Hb as [Hy Hb]. simpl. f_equal; [by apply Hfg|by apply IH].
Qed.

Lemma zip_with_fuse_l {A B C D} (f : C → B → D) (g : A → B → C)
    (a : list A) (b : list B) :
  zip_with f (zip_with g a b) b = zip_with (λ x y, f (g x y) y) a b.
Proof.
  revert b. induction a as [|x a IH]; intros [|y b]; try done. simpl. by f_equal.
Qed.

Lemma zip_with_fuse {A B C D E} (h : C → D → E) (f : A → B → C) (g : A → B → D)
    (a : list A) (b : list B) :
  zip_with h (zip_with f a b) (zip_with g a b)
  = zip_with (λ x y, h (f x y) (g x y)) a b.
Proof.
  revert b. induction a as [|x a IH]; intros [|y b]; try done. simpl. by f_equal.
Qed.

Lemma zip_with_fuse_r {A B C D} (h : A → C → D) (g : A → B → C)
    (a : list A) (b : list B) :
  zip_with h a (zip_with g a b) = zip_with (λ x y, h x (g x y)) a b.
Proof.
  revert b. induction a as [|x a IH]; intros [|y b]; try done. simpl. by f_equal.
Qed.

Lemma zip_with_fmap_fuse {A B C D E} (h : C → D → E) (f : A → C) (g : A → B → D)
    (a : list A) (b : list B) :
  length a = length b →
  zip_with h (f <$> a) (zip_with g a b) = zip_with (λ x y, h (f x) (g x y)) a b.
Proof.
  revert b. induction a as [|x a IH]; intros [|y b] Hl; simplify_eq/=; [done|].
  f_equal. by apply IH.
Qed.

Lemma zipR_pure {A B C} (f : A → B → C) (a : list A) (b : list B) :
  zipR (λ x y, Ok (f x y)) a b = Ok (zip_with f a b).
Proof.
  revert b. induction a as [|x a IH]; intros [|y b]; try done. simpl.
  by rewrite IH.
Qed.

(** An elementwise operation on two rows of the same length. *)
Lemma row_op (op : Q → Q → Q) (r r' : list Q) :
  length r = length r' →
  bcast (λ a b, Ok (op a b)) r r' = Ok (zip_with op r r').
Proof. intros H. rewrite bcast_same by done. apply zipR_pure. Qed.

(** ... on two cells of the same shape. *)
Lemma cell_op (op : Q → Q → Q) A k (c c' : list (list Q)) :
  cell_shape A k c → cell_shape A k c' →
  bcast (bcast (λ a b, Ok (op a b))) c c' = Ok (zip_with (zip_with op) c c').
Proof.
  intros [Hl Hc] [Hl' Hc']. rewrite bcast_same by congruence.
  apply zipR_ext_Forall2.
  eapply (Forall2_of_Forall _ _ _ c c'); [congruence|exact Hc|exact Hc'|].
  intros r r' Hr Hr'. simpl in *. apply row_op. congruence.
Qed.

(** ... on a cell and a row shared by the rows of the cell. *)
Lemma cell_op_shared (op : Q → Q → Q) A k (c : list (list Q)) (g : list Q) :
  cell_shape A k c → length g = k →
  bcast (bcast (λ a b, Ok (op a b))) c [g] = Ok ((λ r, zip_with op r g) <$> c).
Proof.
  intros [Hl Hc] Hg. rewrite bcast_one_r. apply mapR_ext_Forall.
  eapply Forall_impl; [exact Hc|]. intros r Hr. simpl in *.
  apply row_op. congruence.
Qed.

Section ImageOps.
Variables (op : Q → Q → Q) (A k : nat) (D : list cell).

(** ... on an image and per-cell rows. *)
Lemma image_op (grows : cell → list (list Q)) img :
  image_shape (length D) A k img → Forall (λ d, cell_shape A k (grows d)) D →
  bcast (bcast (bcast (λ a b, Ok (op a b)))) img (grows <$> D)
  = Ok (zip_with (λ c d, zip_with (zip_with op) c (grows d)) img D).
Proof.
  intros [Hl Hi] HD. rewrite bcast_same by (by rewrite length_fmap).
  rewrite <- (zip_with_fmap_r (zip_with (zip_with op)) grows).
  apply zipR_ext_Forall2.
  eapply (Forall2_of_Forall (cell_shape A k) (cell_shape A k)).
  - by rewrite length_fmap.
  - exact Hi.
  - by apply Forall_fmap.
  - intros c c' Hc Hc'. by eapply cell_op.
Qed.

(** ... on an image and a row per cell, shared by the anchors. *)
Lemma image_op_shared (gxy : cell → list Q) img :
  image_shape (length D) A k img → (∀ d, length (gxy d) = k) →
  bcast (bcast (bcast (λ a b, Ok (op a b)))) img ((λ d, [gxy d]) <$> D)
  = Ok (zip_with (λ c d, (λ r, zip_with op r (gxy d)) <$> c) img D).
Proof.
  intros [Hl Hi] Hg. rewrite bcast_same by (by rewrite length_fmap).
  rewrite <- (zip_with_fmap_r
                (λ c (g : list (list Q)), (λ r, zip_with op r (default [] (head g))) <$> c)
                (λ d, [gxy d])).
  apply zipR_ext_Forall2.
  eapply (Forall2_of_Forall (cell_shape A k) (λ g, ∃ d, g = [gxy d])).
  - by rewrite length_fmap.
  - exact Hi.
  - apply Forall_fmap, Forall_forall. intros d _. by exists d.
  - intros c g Hc [d ->]. simpl. by eapply cell_op_shared.
Qed.

End ImageOps.

(** A whole [B, HW, A, k] tensor against a tensor of leading size 1. *)
Lemma bcast4_one (op : Q → Q → Q) (t : list (list (list (list Q)))) X f :
  Forall (λ img, bcast (bcast (bcast (λ a b, Ok (op a b)))) img X = Ok (f img)) t →
  bcast4 op t [X] = Ok (f <$> t).
Proof. intros H. unfold bcast4. rewrite bcast_one_r. by apply mapR_ext_Forall. Qed.

(** ** The decoder on a tensor aligned with the grid *)

Lemma Forall_zip_with {A B C} (P : A → Prop) (Q' : B → Prop) (R : C → Prop)
    (f : A → B → C) (a : list A) (b : list B) :
  Forall P a → Forall Q' b → (∀ x y, P x → Q' y → R (f x y)) →
  Forall R (zip_with f a b).
Proof.
  intros Ha. revert b. induction Ha as [|x a Hx _ IH]; intros [|y b] Hb HR;
    try constructor.
  - apply Forall_cons in Hb as [Hy _]. by apply HR.
  - apply Forall_cons in Hb as [_ Hb]. by apply IH.
Qed.

Lemma mapR_fmap {A B C} (F : B → result C) (g : A → B) (l : list A) :
  mapR F (g <$> l) = mapR (λ x, F (g x)) l.
Proof.
  induction l as [|x l IH]; [done|]. rewrite fmap_cons. simpl.
  destruct (F (g x)); [|done]. rewrite !bind_Ok.
  change (mapR F (list_fmap A B g l)) with (mapR F (g <$> l)). by rewrite IH.
Qed.

Lemma zipR_fmap_same {A B C D} (F : B → C → result D) (f1 : A → B) (f2 : A → C)
    (f : A → D) (l : list A) :
  Forall (λ x, F (f1 x) (f2 x) = Ok (f x)) l →
  zipR F (f1 <$> l) (f2 <$> l) = Ok (f <$> l).
Proof.
  induction 1 as [|x l Hx _ IH]; [done|].
  rewrite !fmap_cons. simpl. rewrite Hx, bind_Ok.
  change (zipR F (list_fmap A B f1 l) (list_fmap A C f2 l))
    with (zipR F (f1 <$> l) (f2 <$> l)).
  by rewrite IH.
Qed.

Lemma length_concat_const {A} (l : list (list A)) n :
  Forall (λ c, length c = n) l → length (concat l) = (length l * n)%nat.
Proof.
  induction 1 as [|c l Hc _ IH]; [done|]. simpl. rewrite length_app, Hc, IH. lia.
Qed.

Lemma image_shape_zip_with (F : list (list Q) → cell → list (list Q))
    (Q' : cell → Prop) A k k' (D : list cell) img :
  image_shape (length D) A k img → Forall Q' D →
  (∀ c d, cell_shape A k c → Q' d → cell_shape A k' (F c d)) →
  image_shape (length D) A k' (zip_with F img D).
Proof.
  intros [Hl Hi] HD HF. split.
  - rewrite length_zip_with. lia.
  - by eapply Forall_zip_with.
Qed.

Lemma image_shape_fmap (g : list Q → list Q) n A k k' img :
  image_shape n A k img → (∀ r, length r = k → length (g r) = k') →
  image_shape n A k' (fmap (M:=list) (fmap (M:=list) g) img).
Proof.
  intros [Hl Hi] Hg. split; [by rewrite length_fmap|].
  apply Forall_fmap. eapply Forall_impl; [exact Hi|].
  intros c [Hc Hr]. split; [by rewrite length_fmap|].
  apply Forall_fmap. eapply Forall_impl; [exact Hr|]. intros r. apply Hg.
Qed.

Lemma cat_last_fmap {T} (fa fb : T → list (list (list Q))) (t : list T) n A k1 k2 :
  Forall (λ x, image_shape n A k1 (fa x) ∧ image_shape n A k2 (fb x)) t →
  cat_last (fa <$> t) (fb <$> t)
  = Ok ((λ x, zip_with (zip_with app) (fa x) (fb x)) <$> t).
Proof.
  intros H. unfold cat_last, same_len at 1.
  rewrite decide_True by (by rewrite !length_fmap).
  apply zipR_fmap_same. eapply Forall_impl; [exact H|].
  intros x [[Hla Ha] [Hlb Hb]]. simpl. unfold same_len at 1.
  rewrite decide_True by congruence.
  apply zipR_ext_Forall2.
  eapply (Forall2_of_Forall _ _ _ (fa x) (fb x)); [congruence|exact Ha|exact Hb|].
  intros c c' [Hc _] [Hc' _]. unfold same_len.
  rewrite decide_True by congruence. apply zipR_pure.
Qed.

Lemma map4_map3 (f : Q → Q) (g : list Q → list Q) (t : list (list (list (list Q)))) :
  map4 f (map3 g t)
  = (λ img, fmap (M:=list) (fmap (M:=list) (λ r, f <$> g r)) img) <$> t.
Proof.
  unfold map4, map3. rewrite <- list_fmap_compose. apply list_fmap_ext.
  intros _ img _. simpl. rewrite <- list_fmap_compose. apply list_fmap_ext.
  intros _ c _. simpl. by rewrite <- list_fmap_compose.
Qed.

Section DecodeFacts.
Variables sigmoid exp : Q → Q.
Variables (A : nat) (D : list cell).
Hypothesis HD : Forall (λ d, length (canchors d) = A) D.

Local Abbreviation x1 := (dec_x1 sigmoid).
Local Abbreviation s1 := (dec_s1 sigmoid D).
Local Abbreviation cxy := (dec_cxy sigmoid A D).
Local Abbreviation x2 := (dec_x2 exp).
Local Abbreviation bwh := (dec_bwh exp D).

Lemma x1_shape img :
  image_shape (length D) A 4 img → image_shape (length D) A 2 (x1 img).
Proof.
  intros H. eapply image_shape_fmap; [exact H|]. intros r Hr.
  rewrite length_fmap, length_take. lia.
Qed.

Lemma x2_shape img :
  image_shape (length D) A 4 img → image_shape (length D) A 2 (x2 img).
Proof.
  intros H. eapply image_shape_fmap; [exact H|]. intros r Hr.
  rewrite length_fmap, length_drop. lia.
Qed.

Lemma s1_shape img :
  image_shape (length D) A 4 img → image_shape (length D) A 2 (s1 img).
Proof.
  intros H%x1_shape. eapply (image_shape_zip_with _ (λ _, True)); [exact H| |].
  - by apply Forall_forall.
  - intros c d [Hc Hr] _. split; [by rewrite length_fmap|].
    apply Forall_fmap. eapply Forall_impl; [exact Hr|]. intros r Hl. simpl in *.
    rewrite length_zip_with. simpl. lia.
Qed.

Lemma cxy_shape img :
  image_shape (length D) A 4 img → image_shape (length D) A 2 (cxy img).
Proof.
  intros H%s1_shape. eapply (image_shape_zip_with _ (λ _, True)); [exact H| |].
  - by apply Forall_forall.
  - intros c d [Hc Hr] _. split.
    + rewrite length_zip_with, length_replicate. lia.
    + eapply (Forall_zip_with _ (λ r, length r = 2%nat));
        [exact Hr|by apply Forall_replicate|].
      intros r r' Hl Hl'. simpl in *. rewrite length_zip_with. lia.
Qed.

Lemma bwh_shape img :
  image_shape (length D) A 4 img → image_shape (length D) A 2 (bwh img).
Proof.
  intros H%x2_shape. eapply image_shape_zip_with; [exact H|exact HD|].
  intros c d [Hc Hr] Hd. simpl in Hd. split.
  - rewrite length_zip_with, length_fmap. lia.
  - eapply (Forall_zip_with _ (λ r, length r = 2%nat)); [exact Hr| |].
    + apply Forall_fmap, Forall_forall. by intros p _.
    + intros r r' Hl Hl'. simpl in *. rewrite length_zip_with. lia.
Qed.

(** The rows of [cxy] and [bwh] joined: the rows of [xywh_pred]. *)
Lemma cat_image img :
  image_shape (length D) A 4 img →
  concat (zip_with (zip_with app) (cxy img) (bwh img))
  = xywh_image sigmoid exp D img.
Proof.
  intros [Hl Hi]. unfold xywh_image. f_equal.
  unfold dec_cxy, dec_bwh, dec_s1, dec_x1, dec_x2.
  rewrite zip_with_fuse_l, !zip_with_fmap_l, zip_with_fuse.
  eapply zip_with_ext_Forall; [exact Hi|exact HD|].
  intros c d [Hc Hr] Hd. simpl in Hd.
  rewrite <- list_fmap_compose.
  rewrite zip_with_replicate_r by (rewrite length_fmap; lia).
  rewrite <- list_fmap_compose.
  rewrite ?zip_with_fmap_l, ?zip_with_fmap_r, zip_with_fuse_r. done.
Qed.

Variable m : MiniYOLAF.
Hypothesis Hg : grid_cell m = [(λ d, [[ccx d; ccy d]]) <$> D].
Hypothesis Hs :
  stride_tensor m = [(λ d, replicate A [cstride d; cstride d]) <$> D].
Hypothesis Hw :
  all_anchors_wh m = [(λ d, (λ p : Q * Q, [p.1; p.2]) <$> canchors d) <$> D].

Lemma size_product (t : list (list (list (list Q)))) img :
  Forall (image_shape (length D) A 4) t → img ∈ t →
  (length (default [] (head t))
   * length (default [] (head (default [] (head t)))))%nat
  = (length D * A)%nat.
Proof.
  intros Ht Hin. destruct t as [|img0 t]; [by apply elem_of_nil in Hin|].
  apply Forall_cons in Ht as [[Hl Hi] _]. simpl. rewrite Hl.
  destruct img0 as [|c0 img0]; simpl in *; [by rewrite <- Hl|].
  apply Forall_cons in Hi as [[Hc _] _]. by rewrite Hc.
Qed.

Lemma decode_xywh_cells t :
  Forall (image_shape (length D) A 4) t →
  decode_xywh sigmoid exp m t = Ok (xywh_image sigmoid exp D <$> t).
Proof.
  intros Ht. unfold decode_xywh. cbv zeta. rewrite Hg, Hs, Hw.
  unfold slice_to2, slice_from2. rewrite !map4_map3.
  change (λ img, fmap (fmap (λ r, sigmoid <$> take 2 r)) img) with x1.
  change (λ img, fmap (fmap (λ r, exp <$> drop 2 r)) img) with x2.
  rewrite (bcast4_one Qplus (x1 <$> t) _
             (λ ximg, zip_with (λ c d, (λ r, zip_with Qplus r [ccx d; ccy d]) <$> c)
                        ximg D)).
  2:{ apply Forall_fmap. eapply Forall_impl; [exact Ht|]. intros img Hi. simpl.
      apply (image_op_shared Qplus A 2 D (λ d, [ccx d; ccy d]));
        [by apply x1_shape|done]. }
  rewrite bind_Ok, <- list_fmap_compose.
  rewrite (bcast4_one Qmult _ ((λ d, replicate A [cstride d; cstride d]) <$> D)
             (λ simg, zip_with (λ c d, zip_with (zip_with Qmult) c
                                 (replicate A [cstride d; cstride d])) simg D)).
  2:{ apply Forall_fmap. eapply Forall_impl; [exact Ht|]. intros img Hi. simpl.
      apply (image_op Qmult A 2 D (λ d, replicate A [cstride d; cstride d])).
      - by apply s1_shape.
      - apply Forall_forall. intros d _. split; [by rewrite length_replicate|].
        by apply Forall_replicate. }
  rewrite bind_Ok, <- list_fmap_compose.
  rewrite (bcast4_one Qmult (x2 <$> t) _
             (λ ximg, zip_with (λ c d, zip_with (zip_with Qmult) c
                                 ((λ p : Q * Q, [p.1; p.2]) <$> canchors d)) ximg D)).
  2:{ apply Forall_fmap. eapply Forall_impl; [exact Ht|]. intros img Hi. simpl.
      apply (image_op Qmult A 2 D (λ d, (λ p : Q * Q, [p.1; p.2]) <$> canchors d)).
      - by apply x2_shape.
      - eapply Forall_impl; [exact HD|]. intros d Hd. simpl in Hd.
        split; [by rewrite length_fmap|].
        apply Forall_fmap, Forall_forall. by intros p _. }
  rewrite bind_Ok, <- list_fmap_compose.
  match goal with |- cat_last _ _ ≫= ?k = ?r =>
    change (cat_last (cxy <$> t) (bwh <$> t) ≫= k = r)
  end.
  rewrite (cat_last_fmap cxy bwh t (length D) A 2 2).
  2:{ eapply Forall_impl; [exact Ht|]. intros img Hi. simpl.
      split; [by apply cxy_shape|by apply bwh_shape]. }
  rewrite bind_Ok. unfold view_merge.
  rewrite decide_True by (by rewrite length_fmap).
  rewrite mapR_fmap. apply mapR_ext_Forall, Forall_forall. intros img Hin.
  assert (Hi : image_shape (length D) A 4 img)
    by (rewrite Forall_forall in Ht; by apply Ht).
  simpl. rewrite (cat_image img Hi). rewrite decide_True; [done|].
  rewrite (size_product t img Ht Hin), <- (cat_image img Hi).
  pose proof (cxy_shape img Hi) as [Hlc Hc].
  pose proof (bwh_shape img Hi) as [Hlb Hb].
  rewrite (length_concat_const _ A).
  - rewrite length_zip_with. lia.
  - eapply Forall_zip_with; [exact Hc|exact Hb|].
    intros c c' [Hl _] [Hl' _]. rewrite length_zip_with. lia.
Qed.

End DecodeFacts.

Lemma Qmult_comm_eq (x y : Q) : x * y = y * x.
Proof.
  destruct x as [a b], y as [c d]. unfold Qmult. simpl.
  by rewrite Z.mul_comm, Pos.mul_comm.
Qed.

Lemma corner_row_Ok (r : list Q) :
  length r = 4%nat → corner_row r = Ok (corner_of r).
Proof. intros H. by destruct r as [|? [|? [|? [|? [|??]]]]]. Qed.

Lemma corner_xywh_row sigmoid exp d r a :
  length r = 4%nat →
  corner_of (xywh_row sigmoid exp d r a)
  = decode_row sigmoid exp (Slot (ccx d) (ccy d) (cstride d) a.1 a.2) r.
Proof.
  intros H. destruct r as [|tx [|ty [|tw [|th [|??]]]]]; try done.
  unfold corner_of, xywh_row, decode_row, decode_slot, entry.
  cbn [take drop fmap list_fmap zip_with app lookup list_lookup default length
       Nat.sub replicate cell_x cell_y slot_stride anchor_w anchor_h].
  by rewrite (Qmult_comm_eq (exp tw)), (Qmult_comm_eq (exp th)).
Qed.

Section DecodeRows.
Variables sigmoid exp : Q → Q.
Variables (A : nat).

Lemma xywh_row_length d r a :
  length r = 4%nat → length (xywh_row sigmoid exp d r a) = 4%nat.
Proof. intros H. by destruct r as [|? [|? [|? [|? [|??]]]]]. Qed.

Lemma xywh_image_rows D img :
  Forall (λ d, length (canchors d) = A) D → image_shape (length D) A 4 img →
  Forall (λ r, length r = 4%nat) (xywh_image sigmoid exp D img).
Proof.
  intros HD [Hl Hi]. unfold xywh_image. apply Forall_concat.
  eapply Forall_zip_with; [exact Hi|exact HD|].
  intros c d [Hc Hr] Hd.
  eapply (Forall_zip_with _ (λ _, True)); [exact Hr|by apply Forall_forall|].
  intros r a Hlen _. by apply xywh_row_length.
Qed.

Lemma corner_cell d c :
  length c = length (canchors d) → Forall (λ r, length r = 4%nat) c →
  corner_of <$> zip_with (xywh_row sigmoid exp d) c (canchors d)
  = zip_with (decode_row sigmoid exp) (cell_slots d) c.
Proof.
  unfold cell_slots. generalize (canchors d). intros an Hl Hc. revert an Hl.
  induction Hc as [|r c Hr _ IH]; intros [|a an] Hl; simplify_eq/=; [done|].
  f_equal; [by apply corner_xywh_row|by apply IH].
Qed.

(** The decoded rows of an image, by the rows of the grid table. *)
Lemma corner_image D img :
  Forall (λ d, length (canchors d) = A) D → image_shape (length D) A 4 img →
  corner_of <$> xywh_image sigmoid exp D img
  = zip_with (decode_row sigmoid exp) (D ≫= cell_slots) (concat img).
Proof.
  intros HD [Hl Hi]. unfold xywh_image. revert img Hl Hi.
  induction HD as [|d D Hd _ IH]; intros [|c img] Hl Hi; try done.
  injection Hl as Hl. apply Forall_cons in Hi as [[Hc Hr] Hi].
  rewrite bind_cons. cbn [zip_with concat]. rewrite fmap_app, zip_with_app.
  - f_equal; [apply corner_cell; [congruence|done]|by apply IH].
  - unfold cell_slots. rewrite length_fmap. congruence.
Qed.

End DecodeRows.

Lemma decode_boxes_cells sigmoid exp A D m t :
  Forall (λ d, length (canchors d) = A) D →
  grid_cell m = [(λ d, [[ccx d; ccy d]]) <$> D] →
  stride_tensor m = [(λ d, replicate A [cstride d; cstride d]) <$> D] →
  all_anchors_wh m = [(λ d, (λ p : Q * Q, [p.1; p.2]) <$> canchors d) <$> D] →
  Forall (image_shape (length D) A 4) t →
  decode_boxes sigmoid exp m t
  = Ok ((λ img, zip_with (decode_row sigmoid exp) (D ≫= cell_slots) (concat img)) <$> t).
Proof.
  intros HD Hg Hs Hw Ht. unfold decode_boxes.
  rewrite (decode_xywh_cells sigmoid exp A D HD m Hg Hs Hw t Ht), bind_Ok.
  rewrite mapR_fmap. apply mapR_ext_Forall. eapply Forall_impl; [exact Ht|].
  intros img Hi. simpl. rewrite <- (corner_image sigmoid exp A D img HD Hi).
  apply mapR_ext_Forall.
  eapply Forall_impl; [by apply (xywh_image_rows sigmoid exp A D img)|].
  intros r Hr. by apply corner_row_Ok.
Qed.

Lemma init_inv S tr c n a m :
  init S tr c n a = Ok m →
  (length a = 3 * (length a / 3))%nat
  ∧ conf_thresh m = c ∧ nms_thresh m = n ∧ input_size m = S
  ∧ anchor_number m = (length a / 3)%nat
  ∧ grid_cell m = [(λ d, [[ccx d; ccy d]]) <$> model_cells S a]
  ∧ stride_tensor m
    = [(λ d, replicate (length a / 3) [cstride d; cstride d]) <$> model_cells S a]
  ∧ all_anchors_wh m
    = [(λ d, (λ p : Q * Q, [p.1; p.2]) <$> canchors d) <$> model_cells S a]
  ∧ scale_torch m = [[[qn S; qn S; qn S; qn S]]].
Proof.
  intros H. destruct (decide (length a = 3 * (length a / 3))%nat) as [Hd|Hd].
  - rewrite (init_Ok _ _ _ _ _ Hd) in H. inversion H; subst. by repeat split.
  - destruct (init S tr c n a) as [|e] eqn:Hi; [|done].
    exfalso. unfold init in Hi. cbv zeta in Hi. unfold view_anchors in Hi.
    cbv zeta in Hi. rewrite decide_False in Hi by lia. done.
Qed.

Lemma model_cells_anchors S a :
  (length a = 3 * (length a / 3))%nat →
  Forall (λ d, length (canchors d) = (length a / 3)%nat) (model_cells S a).
Proof.
  intros H. apply grid_cells_anchors; unfold scale_anchors; cbv zeta;
    rewrite length_take, length_drop; lia.
Qed.

Lemma model_cells_length S a :
  length (model_cells S a)
  = (S / 8 * (S / 8) + S / 16 * (S / 16) + S / 32 * (S / 32))%nat.
Proof. apply grid_cells_length. Qed.

(** * The claim on the decoder *)

(** C6.  On a raw regression tensor aligned with the grid table the decoder
    returns, for every image, row by row, the corner form of the
    specification: [cx = (sigmoid tx + cell_x) * stride],
    [cy = (sigmoid ty + cell_y) * stride], [w = anchor_w * exp tw],
    [h = anchor_h * exp th], then [cx - w/2, cy - h/2, cx + w/2, cy + h/2].
    Row [i] of the result is computed from row [i] of the input and row [i]
    of the table alone. *)
Theorem decode_boxes_rows sigmoid exp S tr c n a m t :
  init S tr c n a = Ok m →
  Forall (image_shape (S / 8 * (S / 8) + S / 16 * (S / 16) + S / 32 * (S / 32))
            (length a / 3) 4) t →
  ∃ out,
    decode_boxes sigmoid exp m t = Ok out
    ∧ out = (λ img, zip_with (decode_row sigmoid exp)
                      (grid_table S [(8, scale_anchors a 0); (16, scale_anchors a 1);
                                     (32, scale_anchors a 2)]%nat)
                      (concat img)) <$> t
    ∧ ∀ b img i tx ty tw th g,
        t !! b = Some img → concat img !! i = Some [tx; ty; tw; th] →
        grid_table S [(8, scale_anchors a 0); (16, scale_anchors a 1);
                      (32, scale_anchors a 2)]%nat !! i = Some g →
        ∃ rows, out !! b = Some rows
          ∧ rows !! i = Some (decode_slot sigmoid exp g tx ty tw th).
Proof.
  intros Hi Ht. apply init_inv in Hi as (Hd & _ & _ & _ & _ & Hg & Hs & Hw & _).
  rewrite <- (model_cells_length S a) in Ht.
  pose proof (decode_boxes_cells sigmoid exp _ _ m t
                (model_cells_anchors S a Hd) Hg Hs Hw Ht) as Hdec.
  unfold model_cells in Hdec. rewrite grid_cells_slots in Hdec.
  eexists. split; [exact Hdec|]. split; [done|].
  intros b img i tx ty tw th g Hb Hr Hgi. eexists. split.
  - by rewrite list_lookup_fmap, Hb.
  - by rewrite lookup_zip_with, Hgi, Hr.
Qed.

Lemma decode_boxes_rows_witness :
  ∃ m, init 32 false (1#100) (3#10) [(10, 13); (16, 30); (33, 23)] = Ok m ∧
  ∃ out,
    decode_boxes (λ x, x / 2) (λ x, x * x) m [replicate 21 [[1; 2; 3; 4]]] = Ok out
    ∧ out = (λ img, zip_with (decode_row (λ x, x / 2) (λ x, x * x))
                      (grid_table 32
                         [(8%nat, scale_anchors [(10, 13); (16, 30); (33, 23)] 0);
                          (16%nat, scale_anchors [(10, 13); (16, 30); (33, 23)] 1);
                          (32%nat, scale_anchors [(10, 13); (16, 30); (33, 23)] 2)])
                      (concat img)) <$> [replicate 21 [[1; 2; 3; 4]]]
    ∧ ∀ b img i tx ty tw th g,
        [replicate 21 [[1; 2; 3; 4]]] !! b = Some img →
        concat img !! i = Some [tx; ty; tw; th] →
        grid_table 32
          [(8%nat, scale_anchors [(10, 13); (16, 30); (33, 23)] 0);
           (16%nat, scale_anchors [(10, 13); (16, 30); (33, 23)] 1);
           (32%nat, scale_anchors [(10, 13); (16, 30); (33, 23)] 2)] !! i = Some g →
        ∃ rows, out !! b = Some rows
          ∧ rows !! i = Some (decode_slot (λ x, x / 2) (λ x, x * x) g tx ty tw th).
Proof.
  eexists. split; [vm_compute; reflexivity|].
  eapply (decode_boxes_rows (λ x, x / 2) (λ x, x * x) 32 false (1#100) (3#10)
            [(10, 13); (16, 30); (33, 23)] _ [replicate 21 [[1; 2; 3; 4]]]).
  - vm_compute. reflexivity.
  - repeat constructor.
Defined.

(** * The claim on the clamp *)

Lemma clamp01_in01 x : in01 (clamp01 x).
Proof.
  unfold clamp01, in01. split.
  - apply Q.min_glb; [apply Q.le_max_r|]. unfold Qle. simpl. lia.
  - apply Q.le_min_r.
Qed.

Lemma clamp01_inside x : in01 x → clamp01 x == x.
Proof.
  intros [H0 H1]. unfold clamp01.
  apply (Qeq_trans _ (Qmax x 0)); [|by apply Q.max_l].
  apply Q.min_l. apply Q.max_lub; [done|]. unfold Qle. simpl. lia.
Qed.

Lemma clamp01_floor x : x <= 0 → clamp01 x == 0.
Proof.
  intros H. unfold clamp01.
  apply (Qeq_trans _ (Qmax x 0)); [|by apply Q.max_r].
  apply Q.min_l. apply Q.max_lub; [|unfold Qle; simpl; lia].
  apply (Qle_trans _ 0); [done|]. unfold Qle. simpl. lia.
Qed.

Lemma clamp01_ceiling x : 1 <= x → clamp01 x == 1.
Proof.
  intros H. unfold clamp01. apply Q.min_r.
  apply (Qle_trans _ x); [done|apply Q.le_max_l].
Qed.

Lemma groups_shape {T} n A (rows : list T) (P : T → Prop) :
  length rows = (n * A)%nat → Forall P rows →
  length (groups n A rows) = n
  ∧ Forall (λ c, length c = A ∧ Forall P c) (groups n A rows).
Proof.
  revert rows. induction n as [|n IH]; intros rows Hl Hr; [by split|].
  destruct (IH (drop A rows)) as [IH1 IH2].
  { rewrite length_drop. lia. }
  { by apply Forall_drop. }
  simpl. split; [by rewrite IH1|]. constructor; [|done].
  split; [rewrite length_take; lia|by apply Forall_take].
Qed.

Lemma decode_row_length sigmoid exp g r :
  length r = 4%nat → length (decode_row sigmoid exp g r) = 4%nat.
Proof. intros H. by destruct r as [|? [|? [|? [|? [|??]]]]]. Qed.

Lemma forward_boxes_Ok sigmoid exp S tr c n a m txty :
  init S tr c n a = Ok m → txty ≠ [] →
  Forall (λ rows,
            length rows
            = ((S / 8 * (S / 8) + S / 16 * (S / 16) + S / 32 * (S / 32))
               * (length a / 3))%nat
            ∧ Forall (λ r, length r = 4%nat) rows) txty →
  is_Ok (forward_boxes sigmoid exp m
           (S / 8 * (S / 8) + S / 16 * (S / 16) + S / 32 * (S / 32)) txty).
Proof.
  intros Hi Hne Ht. pose proof Hi as Hi0.
  apply init_inv in Hi as (Hd & _ & _ & _ & HA & Hg & Hs & Hw & Hsc).
  unfold forward_boxes. cbv zeta. rewrite HA, Hsc.
  set (cells := (S / 8 * (S / 8) + S / 16 * (S / 16) + S / 32 * (S / 32))%nat) in *.
  set (A := (length a / 3)%nat) in *.
  unfold view_split. rewrite decide_True by done.
  rewrite (mapR_ext_Forall _ (groups cells A)).
  2:{ eapply Forall_impl; [exact Ht|]. intros rows [Hl _]. simpl.
      by rewrite decide_True. }
  rewrite bind_Ok.
  assert (Hsh : Forall (image_shape (length (model_cells S a)) A 4)
                  (groups cells A <$> txty)).
  { rewrite model_cells_length. apply Forall_fmap.
    eapply Forall_impl; [exact Ht|]. intros rows [Hl Hr]. simpl.
    by apply groups_shape. }
  rewrite (decode_boxes_cells sigmoid exp _ _ m _
             (model_cells_anchors S a Hd) Hg Hs Hw Hsh), bind_Ok.
  unfold bcast3. rewrite bcast_one_r, mapR_fmap.
  rewrite (mapR_ext_Forall _
             (λ img, (λ r, zip_with Qdiv r [qn S; qn S; qn S; qn S])
                       <$> zip_with (decode_row sigmoid exp)
                             (model_cells S a ≫= cell_slots) (concat img))).
  2:{ eapply Forall_impl; [exact Hsh|]. intros img [Hl Hc]. simpl.
      eapply cell_op_shared; [|done]. split; [done|].
      eapply (Forall_zip_with (λ _, True) (λ r, length r = 4%nat));
        [by apply Forall_forall| |].
      - apply Forall_concat. eapply Forall_impl; [exact Hc|]. by intros ? [_ ?].
      - intros g r _ Hr. by apply decode_row_length. }
  rewrite bind_Ok. destruct txty as [|rows txty]; [done|].
  by eexists.
Qed.

(** C7.  Whatever the raw regression input, every coordinate of the boxes
    that leave the clamp of [forward] lies in [0,1]; the clamp is total, it
    is the identity inside [0,1], 0 below and 1 above; and on an input
    aligned with the grid the computation up to the clamp raises nothing. *)
Theorem forward_boxes_clamped sigmoid exp S tr c n a m :
  init S tr c n a = Ok m →
  (∀ HW txty boxes,
     forward_boxes sigmoid exp m HW txty = Ok boxes → Forall (Forall in01) boxes)
  ∧ (∀ x, in01 (clamp01 x)
          ∧ (in01 x → clamp01 x == x)
          ∧ (x <= 0 → clamp01 x == 0)
          ∧ (1 <= x → clamp01 x == 1))
  ∧ (∀ txty, txty ≠ [] →
       Forall (λ rows,
                 length rows
                 = ((S / 8 * (S / 8) + S / 16 * (S / 16) + S / 32 * (S / 32))
                    * (length a / 3))%nat
                 ∧ Forall (λ r, length r = 4%nat) rows) txty →
       is_Ok (forward_boxes sigmoid exp m
                (S / 8 * (S / 8) + S / 16 * (S / 16) + S / 32 * (S / 32)) txty)).
Proof.
  intros Hi. split; [|split].
  - intros HW txty boxes H. unfold forward_boxes in H. cbv zeta in H.
    bind_inv H. inversion H; subst.
    apply Forall_fmap, Forall_forall. intros row _.
    apply Forall_fmap, Forall_forall. intros coord _. apply clamp01_in01.
  - intros x. split; [apply clamp01_in01|]. split; [apply clamp01_inside|].
    split; [apply clamp01_floor|apply clamp01_ceiling].
  - intros txty Hne Ht. by eapply forward_boxes_Ok.
Qed.

Lemma forward_boxes_clamped_witness :
  ∃ m, init 32 false (1#100) (3#10) [(10, 13); (16, 30); (33, 23)] = Ok m ∧
  ∃ boxes,
    forward_boxes (λ x, x / 2) (λ x, x * x) m 21 [replicate 21 [1; 2; 3; 4]] = Ok boxes
    ∧ Forall (Forall in01) boxes.
Proof.
  eexists. split; [vm_compute; reflexivity|].
  eexists. split; [vm_compute; reflexivity|].
  refine (proj1 (forward_boxes_clamped (λ x, x / 2) (λ x, x * x) 32 false (1#100)
                   (3#10) [(10, 13); (16, 30); (33, 23)] _ _)
            21%nat [replicate 21 [1; 2; 3; 4]] _ _).
  - vm_compute. reflexivity.
  - vm_compute. reflexivity.
Defined.

Lemma postprocess_threshold_witness :
  ∃ m, init 32 false (1#100) (3#10) [(10, 13); (16, 30); (33, 23)] = Ok m ∧
  (∃ ks bs ss,
     nms (nms_thresh m)
         (passing (conf_thresh m)
            [Box 0 0 (1#10) (1#10); Box (1#2) (1#2) (6#10) (6#10)] [1#2; 1#1000]).*1
         (passing (conf_thresh m)
            [Box 0 0 (1#10) (1#10); Box (1#2) (1#2) (6#10) (6#10)] [1#2; 1#1000]).*2
     = Ok ks
     ∧ postprocess m [Box 0 0 (1#10) (1#10); Box (1#2) (1#2) (6#10) (6#10)]
         [1#2; 1#1000] = Ok (bs, ss)
     ∧ zip bs ss
       = (λ i, default (Box 0 0 0 0, 0)
                 (passing (conf_thresh m)
                    [Box 0 0 (1#10) (1#10); Box (1#2) (1#2) (6#10) (6#10)]
                    [1#2; 1#1000] !! i))
           <$> ascending ks
                 (length (passing (conf_thresh m)
                    [Box 0 0 (1#10) (1#10); Box (1#2) (1#2) (6#10) (6#10)]
                    [1#2; 1#1000]))
     ∧ zip bs ss `sublist_of`
         passing (conf_thresh m)
           [Box 0 0 (1#10) (1#10); Box (1#2) (1#2) (6#10) (6#10)] [1#2; 1#1000]
     ∧ length bs = length ss
     ∧ Forall (λ s, conf_thresh m <= s) ss)
  ∧ postprocess m [Box 0 0 (1#10) (1#10)] [1#1000] = Ok ([], []).
Proof.
  eexists. split; [vm_compute; reflexivity|]. split.
  - refine (proj1 (postprocess_threshold _
                     [Box 0 0 (1#10) (1#10); Box (1#2) (1#2) (6#10) (6#10)]
                     [1#2; 1#1000]) _).
    reflexivity.
  - refine (proj2 (postprocess_threshold _ [Box 0 0 (1#10) (1#10)] [1#1000]) _).
    repeat constructor.
Defined.

(** * Further properties of [nms] *)

Lemma greedy_fun ok od ks ks' : greedy ok od ks → greedy ok od ks' → ks = ks'.
Proof.
  intros H. revert ks'. induction H as [|i rest ks _ IH]; intros ks' H'.
  - by inversion H'.
  - inversion H' as [|? ? ks1 H1]; subst. f_equal. by apply IH.
Qed.

Lemma filter_bool_ext {A} (f g : A → bool) (l : list A) :
  Forall (λ x, f x = g x) l → filter (λ x, f x) l = filter (λ x, g x) l.
Proof.
  induction 1 as [|x l Hx _ IH]; [done|]. rewrite !filter_cons, Hx.
  destruct (decide (g x)); by rewrite IH.
Qed.

Lemma greedy_ext ok ok' od ks :
  (∀ i j, i ∈ od → j ∈ od → ok i j = ok' i j) → greedy ok od ks → greedy ok' od ks.
Proof.
  intros Hext H. induction H as [|i rest ks Hg IH]; [constructor|].
  constructor.
  assert (Hf : filter (λ j, ok' i j) rest = filter (λ j, ok i j) rest).
  { apply filter_bool_ext, Forall_forall. intros j Hj.
    rewrite (Hext i j); [done|left|by right]. }
  rewrite Hf. apply IH. intros a b Ha Hb.
  apply list_elem_of_filter in Ha as [_ Ha].
  apply list_elem_of_filter in Hb as [_ Hb].
  apply Hext; by right.
Qed.

(** A pass that succeeds has read every array at every index of [order]. *)
Lemma nms_body_Ok_valid thr x1 y1 x2 y2 areas st st' :
  nms_body thr x1 y1 x2 y2 areas st = Ok st' →
  Forall (λ j, j < length x1)%nat (order st).
Proof.
  intros H. unfold nms_body in H. bind_inv H.
  repeat match goal with
  | H : idx (order st) 0 = Ok _ |- _ => apply idx_Ok in H
  end.
  destruct (order st) as [|i rest]; [done|]. simplify_eq/=. rewrite drop_0 in *.
  constructor.
  - match goal with H : idx x1 _ = Ok _ |- _ =>
      apply idx_Ok in H; by eapply lookup_lt_Some end.
  - match goal with H : gather x1 _ = Ok _ |- _ =>
      apply mapR_Forall2 in H;
      apply (Forall2_Forall_l _ (λ j, j < length x1)%nat) in H; [done|]
    end.
    apply Forall_forall. intros y _ j Hj%idx_Ok. by eapply lookup_lt_Some.
Qed.

Lemma nms_short_dets thr dets scores :
  (length dets < length scores)%nat → nms thr dets scores = Raise IndexError.
Proof.
  intros Hlt. destruct (nms thr dets scores) as [ks|e] eqn:Hn.
  - exfalso. unfold nms, nms_fuel in Hn. cbv zeta in Hn.
    apply bind_Ok_inv in Hn as (st & Hw & _).
    pose proof (order_length scores) as Hl.
    assert (Hin : length dets ∈ reverse (argsort scores)) by (by apply order_elem).
    destruct (length scores) as [|fuel] eqn:Hs; [lia|].
    destruct (reverse (argsort scores)) as [|i rest] eqn:Ho; [done|].
    cbn [nms_while order] in Hw.
    apply bind_Ok_inv in Hw as (st1 & Hb & _).
    apply nms_body_Ok_valid in Hb. cbn [order] in Hb.
    rewrite Forall_forall in Hb. specialize (Hb _ Hin).
    rewrite length_fmap in Hb. lia.
  - f_equal. by eapply nms_Raise.
Qed.

(** X1.  With fewer boxes than scores [nms] raises [IndexError]: the first
    pass indexes the box columns at every candidate index. *)
Theorem nms_few_boxes thr dets scores :
  (length dets < length scores)%nat → nms thr dets scores = Raise IndexError.
Proof. apply nms_short_dets. Qed.

Lemma nms_few_boxes_witness :
  nms (3#10) [Box 0 0 1 1] [9#10; 1#2] = Raise IndexError.
Proof. apply nms_few_boxes. simpl. lia. Defined.

Lemma nms_Ok_inv thr dets scores ks :
  nms thr dets scores = Ok ks →
  (length scores ≤ length dets)%nat
  ∧ greedy (passes thr dets) (reverse (argsort scores)) ks.
Proof.
  intros H. destruct (decide (length scores ≤ length dets)%nat) as [Hle|Hgt].
  - split; [done|]. destruct (nms_greedy thr dets scores Hle) as (ks' & Hr & Hg).
    rewrite H in Hr. by simplify_eq.
  - rewrite nms_short_dets in H by lia. done.
Qed.

Lemma StronglySorted_impl {A} (R R' : relation A) l :
  (∀ x y, R x y → R' x y) → StronglySorted R l → StronglySorted R' l.
Proof.
  intros HR. induction 1 as [|x l _ IH Hx]; constructor; [done|].
  eapply Forall_impl; [exact Hx|]. apply HR.
Qed.

Lemma filter_bool_all {A} (f : A → bool) (l : list A) :
  Forall (λ x, f x = true) l → filter (λ x, f x) l = l.
Proof.
  induction 1 as [|x l Hx _ IH]; [done|]. rewrite filter_cons, Hx.
  rewrite decide_True by done. by rewrite IH.
Qed.

Lemma greedy_all ok od :
  NoDup od → (∀ i j, i ∈ od → j ∈ od → i ≠ j → ok i j = true) → greedy ok od od.
Proof.
  induction od as [|i rest IH]; intros Hnd Hall; [constructor|].
  apply NoDup_cons in Hnd as [Hi Hnd]. constructor.
  rewrite filter_bool_all.
  - apply IH; [done|]. intros a b Ha Hb. apply Hall; by right.
  - apply Forall_forall. intros j Hj. apply Hall; [left|by right|].
    intros ->. done.
Qed.

(** X2.  The indices [nms] returns are in order of descending score: each
    kept index has a score at least that of every index kept after it. *)
Theorem nms_keep_sorted thr dets scores ks :
  nms thr dets scores = Ok ks →
  StronglySorted (λ i j, score_at scores j <= score_at scores i) ks.
Proof.
  intros [_ Hg]%nms_Ok_inv. apply greedy_sublist in Hg.
  eapply StronglySorted_sublist; [exact Hg|].
  eapply StronglySorted_impl; [|apply order_sorted]. apply before_le.
Qed.

Lemma nms_keep_sorted_witness :
  StronglySorted
    (λ i j, score_at [1#2; 9#10; 8#10] j <= score_at [1#2; 9#10; 8#10] i)
    [1; 0]%nat.
Proof.
  apply (nms_keep_sorted (3#10)
           [Box 100 100 110 110; Box 0 0 10 10; Box 1 1 9 9] [1#2; 9#10; 8#10]).
  vm_compute. reflexivity.
Defined.

Lemma nms_all_pass thr dets scores :
  length dets = length scores →
  (∀ i j, (i < length scores)%nat → (j < length scores)%nat → i ≠ j →
          passes thr dets i j = true) →
  nms thr dets scores = Ok (reverse (argsort scores)).
Proof.
  intros Hlen Hall.
  destruct (nms_greedy thr dets scores) as (ks & Hr & Hg); [lia|].
  rewrite Hr. f_equal. eapply greedy_fun; [exact Hg|].
  apply greedy_all; [apply order_NoDup|].
  intros i j Hi%order_elem Hj%order_elem Hne. by apply Hall.
Qed.

(** X3.  When every two boxes pass the IoU test against each other, [nms]
    suppresses nothing: it returns all the indices, in the candidate order. *)
Theorem nms_keeps_all thr dets scores :
  length dets = length scores →
  (∀ i j, (i < length scores)%nat → (j < length scores)%nat → i ≠ j →
          fle (iou (box_at dets i) (box_at dets j)) thr = true) →
  nms thr dets scores = Ok (reverse (argsort scores))
  ∧ reverse (argsort scores) ≡ₚ seq 0 (length scores).
Proof.
  intros Hlen Hall. split; [by apply nms_all_pass|apply order_perm].
Qed.

Lemma nms_keeps_all_witness :
  nms (3#10) [Box 0 0 1 1; Box 5 5 6 6] [1#2; 9#10]
  = Ok (reverse (argsort [1#2; 9#10]))
  ∧ reverse (argsort [1#2; 9#10]) ≡ₚ seq 0 (length [1#2; 9#10]).
Proof.
  apply (nms_keeps_all (3#10) [Box 0 0 1 1; Box 5 5 6 6] [1#2; 9#10]).
  - reflexivity.
  - intros [|[|i]] [|[|j]] Hi Hj Hne; simpl in *; try lia; try done.
Defined.

(** X4.  Boxes beyond the last score are never read: [nms] gives the same
    answer on the first [N] boxes alone. *)
Theorem nms_extra_boxes thr dets scores :
  (length scores ≤ length dets)%nat →
  nms thr dets scores = nms thr (take (length scores) dets) scores.
Proof.
  intros Hlen.
  destruct (nms_greedy thr dets scores Hlen) as (ks & Hr & Hg).
  destruct (nms_greedy thr (take (length scores) dets) scores) as (ks' & Hr' & Hg').
  { rewrite length_take. lia. }
  rewrite Hr, Hr'. f_equal. eapply greedy_fun; [exact Hg|].
  eapply greedy_ext; [|exact Hg'].
  intros i j Hi%order_elem Hj%order_elem. unfold passes, box_at.
  by rewrite !lookup_take_lt.
Qed.

Lemma nms_extra_boxes_witness :
  nms (3#10) [Box 0 0 1 1; Box 5 5 6 6; Box 0 0 1 1] [1#2; 9#10]
  = nms (3#10) (take (length [1#2; 9#10]) [Box 0 0 1 1; Box 5 5 6 6; Box 0 0 1 1])
      [1#2; 9#10].
Proof.
  apply (nms_extra_boxes (3#10) [Box 0 0 1 1; Box 5 5 6 6; Box 0 0 1 1] [1#2; 9#10]).
  simpl. lia.
Defined.


(** ** The IoU test is symmetric *)

Lemma fle_fdiv_comp (x x' y y' t : Q) :
  x == x' → y == y' → fle (fdiv x y) t = fle (fdiv x' y') t.
Proof.
  intros Hx Hy. unfold fdiv.
  rewrite (Qeqb_comp y y' Hy 0 0 (Qeq_refl 0)).
  rewrite (Qleb_comp x x' Hx 0 0 (Qeq_refl 0)).
  rewrite (Qeqb_comp x x' Hx 0 0 (Qeq_refl 0)).
  destruct (Qeq_bool y' 0); [done|]. simpl.
  apply Qleb_comp; [|reflexivity]. by rewrite Hx, Hy.
Qed.

Lemma fle_iou_sym (a b : box) (t : Q) : fle (iou a b) t = fle (iou b a) t.
Proof.
  unfold iou. cbv zeta. apply fle_fdiv_comp.
  - by rewrite (Q.min_comm (bx2 a)), (Q.max_comm (bx1 a)),
               (Q.min_comm (by2 a)), (Q.max_comm (by1 a)).
  - rewrite (Q.min_comm (bx2 a)), (Q.max_comm (bx1 a)),
            (Q.min_comm (by2 a)), (Q.max_comm (by1 a)).
    by rewrite (Qplus_comm (area a)).
Qed.

Lemma StronglySorted_lookup {A} (R : relation A) l p q x y :
  StronglySorted R l → (p < q)%nat → l !! p = Some x → l !! q = Some y → R x y.
Proof.
  intros Hs. revert p q. induction Hs as [|z l _ IH Hz]; intros p q Hpq Hp Hq; [done|].
  destruct q as [|q]; [lia|]. simpl in Hq. destruct p as [|p].
  - simpl in Hp. simplify_eq. rewrite Forall_forall in Hz.
    by eapply Hz, list_elem_of_lookup_2.
  - simpl in Hp. eapply (IH p q); [lia|done..].
Qed.

(** X5.  [nms] is idempotent: run again on the boxes and scores it kept, it
    keeps them all. *)
Theorem nms_idempotent thr dets scores ks :
  nms thr dets scores = Ok ks →
  ∃ ks', nms thr (box_at dets <$> ks) (score_at scores <$> ks) = Ok ks'
         ∧ ks' ≡ₚ seq 0 (length ks).
Proof.
  intros [_ Hg]%nms_Ok_inv. apply greedy_pairwise in Hg.
  eexists. split.
  - apply nms_all_pass; [by rewrite !length_fmap|].
    rewrite length_fmap. intros p q Hp Hq Hne. unfold passes, box_at.
    rewrite !list_lookup_fmap.
    destruct (lookup_lt_is_Some_2 ks p Hp) as [i Hi].
    destruct (lookup_lt_is_Some_2 ks q Hq) as [j Hj].
    rewrite Hi, Hj. simpl. fold (box_at dets i). fold (box_at dets j).
    destruct (decide (p < q)%nat) as [Hlt|Hge].
    + apply Is_true_eq_true.
      exact (StronglySorted_lookup (λ i j : nat, passes thr dets i j)
               ks p q i j Hg Hlt Hi Hj).
    + rewrite fle_iou_sym. apply Is_true_eq_true.
      assert (Hqp : (q < p)%nat) by lia.
      exact (StronglySorted_lookup (λ i j : nat, passes thr dets i j)
               ks q p j i Hg Hqp Hj Hi).
  - rewrite order_perm. by rewrite length_fmap.
Qed.

Lemma nms_idempotent_witness :
  ∃ ks', nms (3#10)
           (box_at [Box 0 0 10 10; Box 1 1 9 9; Box 100 100 110 110] <$> [0; 2]%nat)
           (score_at [9#10; 8#10; 1#2] <$> [0; 2]%nat) = Ok ks'
         ∧ ks' ≡ₚ seq 0 (length [0; 2]%nat).
Proof.
  apply (nms_idempotent (3#10) [Box 0 0 10 10; Box 1 1 9 9; Box 100 100 110 110]
           [9#10; 8#10; 1#2]).
  vm_compute. reflexivity.
Defined.

Lemma greedy_ext_ne ok ok' od ks :
  NoDup od → (∀ i j, i ∈ od → j ∈ od → i ≠ j → ok i j = ok' i j) →
  greedy ok od ks → greedy ok' od ks.
Proof.
  intros Hnd Hext H. induction H as [|i rest ks Hg IH]; [constructor|].
  apply NoDup_cons in Hnd as [Hi Hnd]. constructor.
  assert (Hf : filter (λ j, ok' i j) rest = filter (λ j, ok i j) rest).
  { apply filter_bool_ext, Forall_forall. intros j Hj.
    rewrite (Hext i j); [done|left|by right|]. intros ->. done. }
  rewrite Hf. apply IH; [by apply NoDup_filter|]. intros a b Ha Hb Hab.
  apply list_elem_of_filter in Ha as [_ Ha]. apply list_elem_of_filter in Hb as [_ Hb].
  apply Hext; [by right|by right|done].
Qed.

(** X6.  The overlap test of [nms] is symmetric in the two boxes: on two
    boxes, exchanging the boxes while the scores stay in place does not
    change which indices are kept. *)
Theorem nms_pair_swap thr b1 b2 s1 s2 :
  nms thr [b1; b2] [s1; s2] = nms thr [b2; b1] [s1; s2].
Proof.
  destruct (nms_greedy thr [b1; b2] [s1; s2]) as (ks & Hr & Hg); [simpl; lia|].
  destruct (nms_greedy thr [b2; b1] [s1; s2]) as (ks' & Hr' & Hg'); [simpl; lia|].
  rewrite Hr, Hr'. f_equal. eapply greedy_fun; [|exact Hg'].
  eapply greedy_ext_ne; [apply order_NoDup| |exact Hg].
  intros i j Hi Hj Hij. apply order_elem in Hi, Hj. simpl in Hi, Hj.
  unfold passes.
  destruct i as [|[|i]], j as [|[|j]]; try lia; try done; simpl; apply fle_iou_sym.
Qed.

(** * Further properties of [postprocess] *)

Lemma greedy_pairs thr dets scores ks i j :
  greedy (passes thr dets) (reverse (argsort scores)) ks →
  i ∈ ks → j ∈ ks → score_at scores j < score_at scores i →
  passes thr dets i j = true.
Proof.
  intros Hg Hi Hj Hlt.
  assert (Hne : i ≠ j) by (intros ->; by apply Qlt_irrefl in Hlt).
  destruct (StronglySorted_pair _ ks i j (greedy_sorted _ _ _ _ Hg) Hi Hj Hne)
    as [[[Hp _] _]|[[_ Hb] _]].
  - by apply Is_true_eq_true.
  - apply before_le in Hb. by apply Qlt_not_le in Hlt.
Qed.

(** X7.  Of two detections that [postprocess] returns with different
    scores, the boxes pass the IoU test against [nms_thresh]. *)
Theorem postprocess_no_overlap m boxes scores bs ss p q b1 s1 b2 s2 :
  length boxes = length scores →
  postprocess m boxes scores = Ok (bs, ss) →
  bs !! p = Some b1 → ss !! p = Some s1 →
  bs !! q = Some b2 → ss !! q = Some s2 →
  s2 < s1 →
  fle (iou b1 b2) (nms_thresh m) = true.
Proof.
  intros Hlen Hpost Hb1 Hs1 Hb2 Hs2 Hlt.
  destruct (postprocess_spec m boxes scores) as (ks & Hrun & Hnd & Hv & Hp); [lia|].
  rewrite Hp in Hpost. inversion Hpost; subst bs ss. clear Hpost.
  apply nms_Ok_inv in Hrun as [_ Hg].
  rewrite list_lookup_fmap in Hb1. rewrite list_lookup_fmap in Hs1.
  rewrite list_lookup_fmap in Hb2. rewrite list_lookup_fmap in Hs2.
  destruct (ascending ks _ !! p) as [i|] eqn:Hi; [|done].
  destruct (ascending ks _ !! q) as [j|] eqn:Hj; [|done].
  simpl in *. simplify_eq.
  apply list_elem_of_lookup_2 in Hi, Hj.
  apply list_elem_of_filter in Hi as [Hi _].
  apply list_elem_of_filter in Hj as [Hj _].
  by apply (greedy_pairs _ _ _ ks i j Hg).
Qed.

Lemma postprocess_no_overlap_witness :
  ∃ m, init 32 false (1#100) (3#10) [(10, 13); (16, 30); (33, 23)] = Ok m ∧
  fle (iou (Box 0 0 (1#10) (1#10)) (Box (1#2) (1#2) (6#10) (6#10))) (nms_thresh m)
  = true.
Proof.
  eexists. split; [vm_compute; reflexivity|].
  eapply (postprocess_no_overlap _
            [Box (1#2) (1#2) (6#10) (6#10); Box 0 0 (1#10) (1#10)] [1#2; 9#10]
            _ _ 1%nat 0%nat).
  - reflexivity.
  - vm_compute. reflexivity.
  - reflexivity.
  - reflexivity.
  - reflexivity.
  - reflexivity.
  - reflexivity.
Defined.

(** * [set_grid] *)

(** X8.  [set_grid] on a detector built for resolution [S] installs, for the
    new resolution [S'], the grid tensors and the scale that the constructor
    builds for [S'] with the same anchors; the thresholds are untouched and
    the attribute [input_size] keeps its old value [S].  At the resolution
    the detector already has, [set_grid] changes nothing. *)
Theorem set_grid_rebuilds S S' tr c n a m m2 :
  init S tr c n a = Ok m → init S' tr c n a = Ok m2 →
  set_grid m S'
  = Ok {| input_size := S; trainable := trainable m2;
          conf_thresh := conf_thresh m2; nms_thresh := nms_thresh m2;
          stride := stride m2; anchor_size := anchor_size m2;
          anchor_number := anchor_number m2;
          grid_cell := grid_cell m2; stride_tensor := stride_tensor m2;
          all_anchors_wh := all_anchors_wh m2; scale_torch := scale_torch m2 |}
  ∧ set_grid m S = Ok m.
Proof.
  intros H H2. pose proof (init_inv _ _ _ _ _ _ H) as (Hd & _).
  rewrite (init_Ok S _ _ _ _ Hd) in H. rewrite (init_Ok S' _ _ _ _ Hd) in H2.
  inversion H; subst m.
  inversion H2; subst m2. clear H H2.
  unfold set_grid. cbn [stride anchor_size anchor_number input_size trainable
                        conf_thresh nms_thresh grid_cell stride_tensor
                        all_anchors_wh scale_torch].
  rewrite !create_grid_cells. done.
Qed.

Lemma set_grid_rebuilds_witness :
  ∃ m m2,
    init 32 false (1#100) (3#10) [(10, 13); (16, 30); (33, 23)] = Ok m
    ∧ init 64 false (1#100) (3#10) [(10, 13); (16, 30); (33, 23)] = Ok m2
    ∧ set_grid m 64
      = Ok {| input_size := 32; trainable := trainable m2;
              conf_thresh := conf_thresh m2; nms_thresh := nms_thresh m2;
              stride := stride m2; anchor_size := anchor_size m2;
              anchor_number := anchor_number m2;
              grid_cell := grid_cell m2; stride_tensor := stride_tensor m2;
              all_anchors_wh := all_anchors_wh m2; scale_torch := scale_torch m2 |}
    ∧ set_grid m 32 = Ok m.
Proof.
  do 2 eexists. split; [vm_compute; reflexivity|].
  split; [vm_compute; reflexivity|].
  apply (set_grid_rebuilds 32 64 false (1#100) (3#10) [(10, 13); (16, 30); (33, 23)]).
  - vm_compute. reflexivity.
  - vm_compute. reflexivity.
Defined.

(** * Further properties of the decoder *)

Lemma qn_nonneg n : 0 <= qn n.
Proof. unfold qn, Qle. simpl. lia. Qed.

Lemma table_scale_Forall (P : slot → Prop) S s (a : list (Q * Q)) :
  (∀ x y p, p ∈ a → P (Slot (qn x) (qn y) (qn s) p.1 p.2)) →
  Forall P (table_scale S s a).
Proof.
  intros H. unfold table_scale. apply Forall_bind, Forall_forall. intros y _.
  apply Forall_bind, Forall_forall. intros x _.
  apply Forall_bind, Forall_forall. intros p Hp. constructor; [by apply H|done].
Qed.

Lemma grid_table_Forall (P : slot → Prop) S (a0 a1 a2 : list (Q * Q)) :
  (∀ x y s p, p ∈ a0 ++ a1 ++ a2 → P (Slot (qn x) (qn y) (qn s) p.1 p.2)) →
  Forall P (grid_table S [(8, a0); (16, a1); (32, a2)]%nat).
Proof.
  intros H. unfold grid_table. rewrite !bind_cons. simpl.
  rewrite !Forall_app. repeat split; try done;
    apply table_scale_Forall; intros x y p Hp; apply H;
    rewrite !elem_of_app; auto.
Qed.

Lemma scale_anchors_subseteq a p :
  p ∈ scale_anchors a 0 ++ scale_anchors a 1 ++ scale_anchors a 2 → p ∈ a.
Proof.
  unfold scale_anchors. cbv zeta. rewrite !elem_of_app.
  intros [H|[H|H]]; by apply subseteq_take, subseteq_drop in H.
Qed.

Section CentreRows.
Variables sigmoid exp : Q → Q.
Variable A : nat.

Lemma xywh_cell d c :
  length c = length (canchors d) → Forall (λ r, length r = 4%nat) c →
  zip_with (xywh_row sigmoid exp d) c (canchors d)
  = zip_with (xywh_slot sigmoid exp) (cell_slots d) c.
Proof.
  unfold cell_slots. generalize (canchors d). intros an Hl Hc. revert an Hl.
  induction Hc as [|r c Hr _ IH]; intros [|a an] Hl; simplify_eq/=; [done|].
  f_equal; [|by apply IH].
  by destruct r as [|tx [|ty [|tw [|th [|??]]]]].
Qed.

Lemma xywh_image_table D img :
  Forall (λ d, length (canchors d) = A) D → image_shape (length D) A 4 img →
  xywh_image sigmoid exp D img
  = zip_with (xywh_slot sigmoid exp) (D ≫= cell_slots) (concat img).
Proof.
  intros HD [Hl Hi]. unfold xywh_image. revert img Hl Hi.
  induction HD as [|d D Hd _ IH]; intros [|c img] Hl Hi; try done.
  injection Hl as Hl. apply Forall_cons in Hi as [[Hc Hr] Hi].
  rewrite bind_cons. cbn [zip_with concat]. rewrite zip_with_app.
  - f_equal; [apply xywh_cell; [congruence|done]|by apply IH].
  - unfold cell_slots. rewrite length_fmap. congruence.
Qed.

End CentreRows.

Lemma decode_xywh_table sigmoid exp S tr c n a m t :
  init S tr c n a = Ok m →
  Forall (image_shape (S / 8 * (S / 8) + S / 16 * (S / 16) + S / 32 * (S / 32))
            (length a / 3) 4) t →
  decode_xywh sigmoid exp m t
  = Ok ((λ img, zip_with (xywh_slot sigmoid exp)
                  (grid_table S [(8, scale_anchors a 0); (16, scale_anchors a 1);
                                 (32, scale_anchors a 2)]%nat)
                  (concat img)) <$> t).
Proof.
  intros Hi Ht. apply init_inv in Hi as (Hd & _ & _ & _ & _ & Hg & Hs & Hw & _).
  rewrite <- (model_cells_length S a) in Ht.
  rewrite (decode_xywh_cells sigmoid exp _ _ (model_cells_anchors S a Hd)
             m Hg Hs Hw t Ht).
  f_equal. apply list_fmap_ext. intros _ img Hin%list_elem_of_lookup_2.
  rewrite Forall_forall in Ht.
  rewrite (xywh_image_table sigmoid exp _ _ img (model_cells_anchors S a Hd)
             (Ht _ Hin)).
  unfold model_cells. by rewrite grid_cells_slots.
Qed.

(** X9.  On an aligned tensor [decode_xywh] returns for every slot the row
    [cx, cy, exp tw * anchor_w, exp th * anchor_h]; when [sigmoid] takes its
    values in [0,1] the centre stays in the slot's cell:
    [cell_x * stride <= cx <= (cell_x + 1) * stride], and likewise for y. *)
Theorem decode_xywh_centres sigmoid exp S tr c n a m t :
  init S tr c n a = Ok m →
  Forall (image_shape (S / 8 * (S / 8) + S / 16 * (S / 16) + S / 32 * (S / 32))
            (length a / 3) 4) t →
  (∀ x, 0 <= sigmoid x ∧ sigmoid x <= 1) →
  ∃ out,
    decode_xywh sigmoid exp m t = Ok out
    ∧ ∀ b img i tx ty tw th g,
        t !! b = Some img → concat img !! i = Some [tx; ty; tw; th] →
        grid_table S [(8, scale_anchors a 0); (16, scale_anchors a 1);
                      (32, scale_anchors a 2)]%nat !! i = Some g →
        ∃ rows cx cy,
          out !! b = Some rows
          ∧ rows !! i = Some [cx; cy; exp tw * anchor_w g; exp th * anchor_h g]
          ∧ cell_x g * slot_stride g <= cx ∧ cx <= (cell_x g + 1) * slot_stride g
          ∧ cell_y g * slot_stride g <= cy ∧ cy <= (cell_y g + 1) * slot_stride g.
Proof.
  intros Hi Ht Hsig. eexists. split; [by eapply decode_xywh_table|].
  intros b img i tx ty tw th g Hb Hr Hgi.
  assert (Hst : 0 <= slot_stride g).
  { apply list_elem_of_lookup_2 in Hgi. revert g Hgi. apply Forall_forall.
    apply grid_table_Forall. intros ? ? s p _. apply qn_nonneg. }
  do 3 eexists. split; [by rewrite list_lookup_fmap, Hb|].
  split; [by rewrite lookup_zip_with, Hgi, Hr|].
  destruct (Hsig tx) as [? ?]. destruct (Hsig ty) as [? ?].
  repeat split; nra.
Qed.

Lemma decode_xywh_centres_witness :
  ∃ m, init 32 false (1#100) (3#10) [(10, 13); (16, 30); (33, 23)] = Ok m ∧
  ∃ out,
    decode_xywh (λ x, 1 # 2) (λ x, x * x) m [replicate 21 [[1; 2; 3; 4]]] = Ok out
    ∧ ∀ b img i tx ty tw th g,
        [replicate 21 [[1; 2; 3; 4]]] !! b = Some img →
        concat img !! i = Some [tx; ty; tw; th] →
        grid_table 32
          [(8%nat, scale_anchors [(10, 13); (16, 30); (33, 23)] 0);
           (16%nat, scale_anchors [(10, 13); (16, 30); (33, 23)] 1);
           (32%nat, scale_anchors [(10, 13); (16, 30); (33, 23)] 2)] !! i = Some g →
        ∃ rows cx cy,
          out !! b = Some rows
          ∧ rows !! i = Some [cx; cy; (λ x, x * x) tw * anchor_w g;
                              (λ x, x * x) th * anchor_h g]
          ∧ cell_x g * slot_stride g <= cx ∧ cx <= (cell_x g + 1) * slot_stride g
          ∧ cell_y g * slot_stride g <= cy ∧ cy <= (cell_y g + 1) * slot_stride g.
Proof.
  eexists. split; [vm_compute; reflexivity|].
  eapply (decode_xywh_centres (λ x, 1 # 2) (λ x, x * x) 32 false (1#100) (3#10)
            [(10, 13); (16, 30); (33, 23)] _ [replicate 21 [[1; 2; 3; 4]]]).
  - vm_compute. reflexivity.
  - repeat constructor.
  - intros x. split; unfold Qle; simpl; lia.
Defined.

Lemma bcast4_head_Raise (op : Q → Q → Q) x (t : list (list (list (list Q)))) X e :
  bcast (bcast (bcast (λ a b, Ok (op a b)))) x X = Raise e →
  bcast4 op (x :: t) [X] = Raise e.
Proof. intros H. unfold bcast4. rewrite bcast_one_r. simpl. by rewrite H. Qed.

(** X10.  A tensor whose number of cells is neither that of the grid nor 1
    cannot be broadcast against a grid of more than one cell: the decoder
    raises [RuntimeError]. *)
Theorem decode_misaligned sigmoid exp S tr c n a m img t :
  init S tr c n a = Ok m →
  length img ≠ (S / 8 * (S / 8) + S / 16 * (S / 16) + S / 32 * (S / 32))%nat →
  length img ≠ 1%nat →
  (S / 8 * (S / 8) + S / 16 * (S / 16) + S / 32 * (S / 32))%nat ≠ 1%nat →
  decode_xywh sigmoid exp m (img :: t) = Raise RuntimeError
  ∧ decode_boxes sigmoid exp m (img :: t) = Raise RuntimeError.
Proof.
  intros Hi H1 H2 H3. apply init_inv in Hi as (_ & _ & _ & _ & _ & Hg & _).
  assert (Hx : decode_xywh sigmoid exp m (img :: t) = Raise RuntimeError).
  { unfold decode_xywh. cbv zeta. rewrite Hg.
    unfold slice_to2, map4, map3. rewrite !fmap_cons.
    rewrite (bcast4_head_Raise Qplus _ _ _ RuntimeError); [done|].
    unfold bcast at 1.
    rewrite !length_fmap, model_cells_length.
    rewrite decide_False by done. rewrite decide_False by done.
    by rewrite decide_False by done. }
  split; [done|]. unfold decode_boxes. by rewrite Hx.
Qed.

Lemma decode_misaligned_witness :
  ∃ m, init 32 false (1#100) (3#10) [(10, 13); (16, 30); (33, 23)] = Ok m ∧
  decode_xywh (λ x, x) (λ x, x) m [replicate 5 [[1; 2; 3; 4]]] = Raise RuntimeError
  ∧ decode_boxes (λ x, x) (λ x, x) m [replicate 5 [[1; 2; 3; 4]]] = Raise RuntimeError.
Proof.
  eexists. split; [vm_compute; reflexivity|].
  eapply (decode_misaligned (λ x, x) (λ x, x) 32 false (1#100) (3#10)
            [(10, 13); (16, 30); (33, 23)]).
  - vm_compute. reflexivity.
  - simpl. lia.
  - simpl. lia.
  - simpl. lia.
Defined.

(** * The inference branch of [forward] *)

Lemma concat_groups {T} n A (rows : list T) :
  length rows = (n * A)%nat → concat (groups n A rows) = rows.
Proof.
  revert rows. induction n as [|n IH]; intros rows Hl.
  - by destruct rows.
  - simpl. rewrite IH by (rewrite length_drop; lia). apply take_drop.
Qed.

(** The rows that leave the clamp, for an aligned tensor. *)
Lemma forward_boxes_closed sigmoid exp S tr c n a m rows0 rest :
  init S tr c n a = Ok m →
  Forall (λ rows,
            length rows
            = ((S / 8 * (S / 8) + S / 16 * (S / 16) + S / 32 * (S / 32))
               * (length a / 3))%nat
            ∧ Forall (λ r, length r = 4%nat) rows) (rows0 :: rest) →
  forward_boxes sigmoid exp m
    (S / 8 * (S / 8) + S / 16 * (S / 16) + S / 32 * (S / 32)) (rows0 :: rest)
  = Ok ((λ r, clamp01 <$> zip_with Qdiv r [qn S; qn S; qn S; qn S])
          <$> zip_with (decode_row sigmoid exp)
                (grid_table S [(8, scale_anchors a 0); (16, scale_anchors a 1);
                               (32, scale_anchors a 2)]%nat) rows0).
Proof.
  intros Hi Ht.
  apply init_inv in Hi as (Hd & _ & _ & _ & HA & Hg & Hs & Hw & Hsc).
  unfold forward_boxes. cbv zeta. rewrite HA, Hsc.
  set (cells := (S / 8 * (S / 8) + S / 16 * (S / 16) + S / 32 * (S / 32))%nat) in *.
  set (A := (length a / 3)%nat) in *.
  unfold view_split. rewrite decide_True by done.
  rewrite (mapR_ext_Forall _ (groups cells A)).
  2:{ eapply Forall_impl; [exact Ht|]. intros rows [Hl _]. simpl.
      by rewrite decide_True. }
  rewrite bind_Ok.
  assert (Hsh : Forall (image_shape (length (model_cells S a)) A 4)
                  (groups cells A <$> rows0 :: rest)).
  { rewrite model_cells_length. apply Forall_fmap.
    eapply Forall_impl; [exact Ht|]. intros rows [Hl Hr]. simpl.
    by apply groups_shape. }
  rewrite (decode_boxes_cells sigmoid exp _ _ m _
             (model_cells_anchors S a Hd) Hg Hs Hw Hsh), bind_Ok.
  unfold bcast3. rewrite bcast_one_r, mapR_fmap.
  rewrite (mapR_ext_Forall _
             (λ img, (λ r, zip_with Qdiv r [qn S; qn S; qn S; qn S])
                       <$> zip_with (decode_row sigmoid exp)
                             (model_cells S a ≫= cell_slots) (concat img))).
  2:{ eapply Forall_impl; [exact Hsh|]. intros img [Hl Hc]. simpl.
      eapply cell_op_shared; [|done]. split; [done|].
      eapply (Forall_zip_with (λ _, True) (λ r, length r = 4%nat));
        [by apply Forall_forall| |].
      - apply Forall_concat. eapply Forall_impl; [exact Hc|]. by intros ? [_ ?].
      - intros g r _ Hr. by apply decode_row_length. }
  rewrite bind_Ok, !fmap_cons. cbn [idx lookup list_lookup]. rewrite bind_Ok.
  apply Forall_cons in Ht as [[Hl0 _] _].
  rewrite (concat_groups cells A rows0 Hl0).
  unfold model_cells. rewrite grid_cells_slots.
  by rewrite <- list_fmap_compose.
Qed.

Lemma clamp01_mono x y : x <= y → clamp01 x <= clamp01 y.
Proof.
  intros H. unfold clamp01. by apply Q.min_le_compat_r, Q.max_le_compat_r.
Qed.

Lemma Qdiv_le_nonneg x y s : 0 <= s → x <= y → x / s <= y / s.
Proof.
  intros Hs H. unfold Qdiv. apply Qmult_le_compat_r; [done|].
  by apply Qinv_le_0_compat.
Qed.

Lemma Qhalf_nonneg w : 0 <= w → 0 <= w / 2.
Proof.
  intros H. unfold Qdiv. apply Qmult_le_0_compat; [done|].
  unfold Qle. simpl. lia.
Qed.

(** X11.  When [exp] is nowhere negative and no anchor has a negative side,
    the boxes that leave the clamp of [forward], one per input row, have
    their corners in order: [xmin <= xmax] and [ymin <= ymax]. *)
Theorem forward_boxes_ordered sigmoid exp S tr c n a m rows0 rest :
  init S tr c n a = Ok m →
  Forall (λ rows,
            length rows
            = ((S / 8 * (S / 8) + S / 16 * (S / 16) + S / 32 * (S / 32))
               * (length a / 3))%nat
            ∧ Forall (λ r, length r = 4%nat) rows) (rows0 :: rest) →
  (∀ x, 0 <= exp x) → Forall (λ p : Q * Q, 0 <= p.1 ∧ 0 <= p.2) a →
  ∃ boxes,
    forward_boxes sigmoid exp m
      (S / 8 * (S / 8) + S / 16 * (S / 16) + S / 32 * (S / 32)) (rows0 :: rest)
    = Ok boxes
    ∧ length boxes = length rows0
    ∧ Forall ordered_row boxes.
Proof.
  intros Hi Ht Hexp Ha. pose proof Hi as (Hd & _)%init_inv.
  eexists. split; [by eapply forward_boxes_closed|].
  pose proof Ht as [[Hl0 Hr0] _]%Forall_cons.
  assert (Htab : Forall (λ g, 0 <= anchor_w g ∧ 0 <= anchor_h g)
                   (grid_table S [(8, scale_anchors a 0); (16, scale_anchors a 1);
                                  (32, scale_anchors a 2)]%nat)).
  { apply grid_table_Forall. intros x y s p Hp%scale_anchors_subseteq. simpl.
    rewrite Forall_forall in Ha. by apply Ha. }
  split.
  - rewrite length_fmap, length_zip_with.
    assert (Hlt : length (grid_table S [(8, scale_anchors a 0);
                    (16, scale_anchors a 1); (32, scale_anchors a 2)]%nat)
                  = length rows0).
    { rewrite <- grid_cells_slots.
      rewrite (length_bind_const _ _ (length a / 3)).
      - rewrite grid_cells_length. lia.
      - pose proof (model_cells_anchors S a Hd) as HD.
        eapply Forall_impl; [exact HD|]. intros d Hdl. simpl in *.
        unfold cell_slots. by rewrite length_fmap. }
    lia.
  - apply Forall_fmap.
    eapply (Forall_zip_with _ (λ r, length r = 4%nat)); [exact Htab|exact Hr0|].
    intros g r [Hw Hh] Hr. simpl.
    destruct r as [|tx [|ty [|tw [|th [|??]]]]]; try done.
    unfold decode_row, decode_slot. cbn [zip_with fmap list_fmap].
    do 4 eexists. split; [reflexivity|].
    pose proof (Hexp tw). pose proof (Hexp th).
    assert (0 <= anchor_w g * exp tw) by (by apply Qmult_le_0_compat).
    assert (0 <= anchor_h g * exp th) by (by apply Qmult_le_0_compat).
    pose proof (Qhalf_nonneg _ H1). pose proof (Qhalf_nonneg _ H2).
    split; apply clamp01_mono, Qdiv_le_nonneg; try apply qn_nonneg; lra.
Qed.

Lemma forward_boxes_ordered_witness :
  ∃ m, init 32 false (1#100) (3#10) [(10, 13); (16, 30); (33, 23)] = Ok m ∧
  ∃ boxes,
    forward_boxes (λ x, x / 2) (λ x, x * x) m
      (32 / 8 * (32 / 8) + 32 / 16 * (32 / 16) + 32 / 32 * (32 / 32))
      [replicate 21 [1; 2; 3; 4]] = Ok boxes
    ∧ length boxes = length (replicate 21 [1; 2; 3; 4])
    ∧ Forall ordered_row boxes.
Proof.
  eexists. split; [vm_compute; reflexivity|].
  eapply (forward_boxes_ordered (λ x, x / 2) (λ x, x * x) 32 false (1#100) (3#10)
            [(10, 13); (16, 30); (33, 23)] _ (replicate 21 [1; 2; 3; 4]) []).
  - vm_compute. reflexivity.
  - repeat constructor.
  - intros x. destruct (Qlt_le_dec x 0) as [Hx|Hx]; nra.
  - repeat constructor; unfold Qle; simpl; lia.
Defined.

Lemma mapR_row_box (rows : list (list Q)) :
  Forall (λ r, length r = 4%nat) rows →
  mapR row_box rows
  = Ok ((λ r, Box (entry r 0) (entry r 1) (entry r 2) (entry r 3)) <$> rows).
Proof.
  intros H. apply mapR_ext_Forall. eapply Forall_impl; [exact H|].
  intros r Hr. simpl in Hr. by destruct r as [|? [|? [|? [|? [|??]]]]].
Qed.

Lemma mapR_first (c0 : list (list Q)) :
  Forall (λ r, r ≠ []) c0 →
  mapR (λ r, idx r 0) c0 = Ok ((λ r, entry r 0) <$> c0).
Proof.
  intros H. apply mapR_ext_Forall. eapply Forall_impl; [exact H|].
  intros r Hr. simpl in Hr. by destruct r.
Qed.

(** The inference branch on aligned head outputs. *)
Lemma forward_test_aligned sigmoid exp S tr c n a m c0 crest rows0 rest :
  init S tr c n a = Ok m →
  Forall (λ rows,
            length rows
            = ((S / 8 * (S / 8) + S / 16 * (S / 16) + S / 32 * (S / 32))
               * (length a / 3))%nat
            ∧ Forall (λ r, length r = 4%nat) rows) (rows0 :: rest) →
  length c0 = length rows0 → Forall (λ r, r ≠ []) c0 →
  ∃ bs ss,
    forward_test sigmoid exp m
      (S / 8 * (S / 8) + S / 16 * (S / 16) + S / 32 * (S / 32))
      (c0 :: crest) (rows0 :: rest) = Ok (bs, ss)
    ∧ length bs = length ss
    ∧ Forall box_in01 bs
    ∧ Forall (λ s, conf_thresh m <= s) ss
    ∧ ∀ p q b1 s1 b2 s2,
        bs !! p = Some b1 → ss !! p = Some s1 →
        bs !! q = Some b2 → ss !! q = Some s2 → s2 < s1 →
        fle (iou b1 b2) (nms_thresh m) = true.
Proof.
  intros Hi Ht Hc Hne.
  pose proof (forward_boxes_closed sigmoid exp S tr c n a m rows0 rest Hi Ht) as Hfb.
  pose proof Hi as (Hd & _)%init_inv.
  pose proof Ht as [[Hl0 Hr0] _]%Forall_cons.
  set (cells := (S / 8 * (S / 8) + S / 16 * (S / 16) + S / 32 * (S / 32))%nat) in *.
  set (table := grid_table S [(8, scale_anchors a 0); (16, scale_anchors a 1);
                              (32, scale_anchors a 2)]%nat) in *.
  set (all_bbox := (λ r, clamp01 <$> zip_with Qdiv r [qn S; qn S; qn S; qn S])
                     <$> zip_with (decode_row sigmoid exp) table rows0) in *.
  assert (Hrows : Forall (λ r, length r = 4%nat ∧ Forall in01 r) all_bbox).
  { apply Forall_fmap.
    eapply (Forall_zip_with (λ _, True) (λ r, length r = 4%nat));
      [by apply Forall_forall|exact Hr0|].
    intros g r _ Hr. simpl. split.
    - rewrite length_fmap, length_zip_with, (decode_row_length _ _ _ _ Hr). done.
    - apply Forall_fmap, Forall_forall. intros x _. apply clamp01_in01. }
  assert (Hlen : length all_bbox = length rows0).
  { unfold all_bbox. rewrite length_fmap, length_zip_with.
    assert (length table = length rows0); [|lia].
    unfold table. rewrite <- grid_cells_slots.
    rewrite (length_bind_const _ _ (length a / 3)).
    - rewrite grid_cells_length. fold cells. lia.
    - pose proof (model_cells_anchors S a Hd) as HD.
      eapply Forall_impl; [exact HD|]. intros d Hdl. simpl in *.
      unfold cell_slots. by rewrite length_fmap. }
  set (dets := (λ r, Box (entry r 0) (entry r 1) (entry r 2) (entry r 3))
                 <$> all_bbox).
  set (all_obj := sigmoid <$> ((λ r, entry r 0) <$> c0)).
  assert (Hft : forward_test sigmoid exp m cells (c0 :: crest) (rows0 :: rest)
                = postprocess m dets all_obj).
  { unfold forward_test, forward_boxes in *. cbv zeta in *.
    destruct (view_split _ _ _ _) as [t|e]; [|done].
    rewrite bind_Ok in Hfb. rewrite bind_Ok.
    cbn [idx lookup list_lookup]. rewrite bind_Ok.
    rewrite (mapR_first c0 Hne), bind_Ok.
    destruct (decode_boxes sigmoid exp m t) as [d|e]; [|done].
    rewrite bind_Ok in Hfb. rewrite bind_Ok.
    destruct (bcast3 Qdiv d (scale_torch m)) as [q|e]; [|done].
    rewrite bind_Ok in Hfb. rewrite bind_Ok.
    destruct (idx q 0) as [b0|e]; [|done].
    rewrite bind_Ok in Hfb. rewrite bind_Ok. inversion Hfb as [Hb0]. rewrite Hb0.
    rewrite (mapR_row_box all_bbox), bind_Ok; [done|].
    eapply Forall_impl; [exact Hrows|]. by intros ? [? _]. }
  assert (Hdl : length all_obj = length dets).
  { unfold all_obj, dets. rewrite !length_fmap. lia. }
  destruct (postprocess_spec m dets all_obj) as (ks & Hrun & Hnd & Hv & Hp); [lia|].
  set (F := passing (conf_thresh m) dets all_obj) in *.
  do 2 eexists. split; [by rewrite Hft|].
  split; [by rewrite !length_fmap|]. split; [|split].
  - apply Forall_fmap, Forall_forall. intros i Hi'.
    pose proof (ascending_valid ks (length F)) as Hav.
    rewrite Forall_forall in Hav. apply Hav in Hi'.
    destruct (lookup_lt_is_Some_2 F i Hi') as [[b s] Hbs]. simpl.
    unfold box_at. rewrite list_lookup_fmap, Hbs. simpl.
    apply list_elem_of_lookup_2, list_elem_of_filter in Hbs as [_ Hbs].
    apply elem_of_zip_l in Hbs. unfold dets in Hbs.
    apply list_elem_of_fmap in Hbs as (r & -> & Hr).
    rewrite Forall_forall in Hrows. destruct (Hrows r Hr) as [Hr4 Hin].
    destruct r as [|x1 [|y1 [|x2 [|y2 [|??]]]]]; try done.
    rewrite !Forall_cons in Hin. unfold box_in01, entry. simpl. tauto.
  - apply Forall_fmap, Forall_forall. intros i Hi'.
    pose proof (ascending_valid ks (length F)) as Hav.
    rewrite Forall_forall in Hav. apply Hav in Hi'.
    destruct (lookup_lt_is_Some_2 F i Hi') as [[b s] Hbs]. simpl.
    unfold score_at. rewrite list_lookup_fmap, Hbs. simpl.
    apply list_elem_of_lookup_2, list_elem_of_filter in Hbs as [Hcs _].
    simpl in Hcs. apply Qle_bool_iff. by apply Is_true_eq_true.
  - intros p q b1 s1 b2 s2 Hb1 Hs1 Hb2 Hs2 Hlt.
    apply nms_Ok_inv in Hrun as [_ Hg].
    rewrite list_lookup_fmap in Hb1. rewrite list_lookup_fmap in Hs1.
    rewrite list_lookup_fmap in Hb2. rewrite list_lookup_fmap in Hs2.
    destruct (ascending ks _ !! p) as [i|] eqn:Hi'; [|done].
    destruct (ascending ks _ !! q) as [j|] eqn:Hj'; [|done].
    simpl in *. simplify_eq.
    apply list_elem_of_lookup_2 in Hi', Hj'.
    apply list_elem_of_filter in Hi' as [Hi' _].
    apply list_elem_of_filter in Hj' as [Hj' _].
    by apply (greedy_pairs _ _ _ ks i j Hg).
Qed.

(** X12.  The inference branch of [forward] on aligned head outputs, with
    one logit per box: nothing is raised; as many boxes as scores are
    returned; every returned coordinate lies in [0,1]; every returned score
    is at least [conf_thresh]; and two returned detections of different
    score pass the IoU test against [nms_thresh]. *)
Theorem forward_test_detections sigmoid exp S tr c n a m c0 crest rows0 rest :
  init S tr c n a = Ok m →
  Forall (λ rows,
            length rows
            = ((S / 8 * (S / 8) + S / 16 * (S / 16) + S / 32 * (S / 32))
               * (length a / 3))%nat
            ∧ Forall (λ r, length r = 4%nat) rows) (rows0 :: rest) →
  length c0 = length rows0 → Forall (λ r, r ≠ []) c0 →
  ∃ bs ss,
    forward_test sigmoid exp m
      (S / 8 * (S / 8) + S / 16 * (S / 16) + S / 32 * (S / 32))
      (c0 :: crest) (rows0 :: rest) = Ok (bs, ss)
    ∧ length bs = length ss
    ∧ Forall box_in01 bs
    ∧ Forall (λ s, conf_thresh m <= s) ss
    ∧ ∀ p q b1 s1 b2 s2,
        bs !! p = Some b1 → ss !! p = Some s1 →
        bs !! q = Some b2 → ss !! q = Some s2 → s2 < s1 →
        fle (iou b1 b2) (nms_thresh m) = true.
Proof.
  intros Hi Ht Hc Hne.
  exact (forward_test_aligned sigmoid exp S tr c n a m c0 crest rows0 rest
           Hi Ht Hc Hne).
Qed.

Lemma forward_test_detections_witness :
  ∃ m, init 32 false (1#100) (3#10) [(10, 13); (16, 30); (33, 23)] = Ok m ∧
  ∃ bs ss,
    forward_test (λ x, x / 2) (λ x, x * x) m
      (32 / 8 * (32 / 8) + 32 / 16 * (32 / 16) + 32 / 32 * (32 / 32))
      [replicate 21 [1]] [replicate 21 [1; 2; 3; 4]] = Ok (bs, ss)
    ∧ length bs = length ss
    ∧ Forall box_in01 bs
    ∧ Forall (λ s, conf_thresh m <= s) ss
    ∧ ∀ p q b1 s1 b2 s2,
        bs !! p = Some b1 → ss !! p = Some s1 →
        bs !! q = Some b2 → ss !! q = Some s2 → s2 < s1 →
        fle (iou b1 b2) (nms_thresh m) = true.
Proof.
  eexists. split; [vm_compute; reflexivity|].
  eapply (forward_test_detections (λ x, x / 2) (λ x, x * x) 32 false (1#100) (3#10)
            [(10, 13); (16, 30); (33, 23)] _ (replicate 21 [1]) []
            (replicate 21 [1; 2; 3; 4]) []).
  - vm_compute. reflexivity.
  - repeat constructor.
  - reflexivity.
  - repeat constructor; discriminate.
Defined.

(** * Broadcasting of the last dimension in [decode_xywh] *)

Lemma zipR_ext_l {A A' B C} (P : B → Prop) (F : A → B → result C)
    (G : A' → B → result C) xs xs' ys :
  Forall P ys → Forall2 (λ x x', ∀ y, P y → F x y = G x' y) xs xs' →
  zipR F xs ys = zipR G xs' ys.
Proof.
  intros Hy H. revert ys Hy.
  induction H as [|x x' xs xs' Hx _ IH]; intros [|y ys] Hy; try done.
  apply Forall_cons in Hy as [Hy Hys]. simpl. rewrite (Hx y Hy).
  destruct (G x' y); [|done]. rewrite !bind_Ok. by rewrite (IH ys Hys).
Qed.

Lemma mapR_ext_P {A B} (P : A → Prop) (F G : A → result B) l :
  Forall P l → (∀ x, P x → F x = G x) → mapR F l = mapR G l.
Proof.
  intros Hl HFG. induction Hl as [|x l Hx _ IH]; [done|].
  simpl. by rewrite (HFG x Hx), IH.
Qed.

Lemma mapR_ext_l {A A' B} (F : A → result B) (G : A' → result B) xs xs' :
  Forall2 (λ x x', F x = G x') xs xs' → mapR F xs = mapR G xs'.
Proof. induction 1 as [|x x' xs xs' Hx _ IH]; [done|]. simpl. by rewrite Hx, IH. Qed.

Lemma bcast_ext_l {A A' B C} (P : B → Prop) (F : A → B → result C)
    (G : A' → B → result C) xs xs' ys :
  Forall P ys → Forall2 (λ x x', ∀ y, P y → F x y = G x' y) xs xs' →
  bcast F xs ys = bcast G xs' ys.
Proof.
  intros Hy H. pose proof (Forall2_length _ _ _ H) as Hl. unfold bcast.
  rewrite <- Hl.
  destruct (decide (length xs = length ys)); [by eapply zipR_ext_l|].
  destruct (decide (length xs = 1%nat)) as [H1|H1].
  - destruct H as [|x x' ? ? Hx H]; [done|]. destruct H; [|done].
    cbn [idx lookup list_lookup]. rewrite !bind_Ok.
    eapply mapR_ext_P; [exact Hy|exact Hx].
  - destruct (decide (length ys = 1%nat)); [|done].
    destruct ys as [|y [|??]]; try done. apply Forall_cons in Hy as [Hy _].
    cbn [idx lookup list_lookup]. rewrite !bind_Ok.
    apply mapR_ext_l. eapply Forall2_impl; [exact H|]. intros x x' Hx. by apply Hx.
Qed.

Lemma map3_map3_ext {A B C} (P : A → Prop) (f : B → C) (g : A → B) (h : A → C)
    (t : list (list (list A))) :
  Forall (Forall (Forall P)) t → (∀ r, P r → f (g r) = h r) →
  map3 f (map3 g t) = map3 h t.
Proof.
  intros Ht Hfg. unfold map3. rewrite <- list_fmap_compose.
  apply Forall_fmap_ext_1. eapply Forall_impl; [exact Ht|].
  intros img Hi. simpl. rewrite <- list_fmap_compose.
  apply Forall_fmap_ext_1. eapply Forall_impl; [exact Hi|].
  intros c Hc. simpl. rewrite <- list_fmap_compose.
  apply Forall_fmap_ext_1. eapply Forall_impl; [exact Hc|]. exact Hfg.
Qed.

Lemma decode_xywh_dup sigmoid exp m D (t : tensor4) :
  all_anchors_wh m = [(λ d, (λ p : Q * Q, [p.1; p.2]) <$> canchors d) <$> D] →
  Forall (Forall (Forall (λ r, length r = 3%nat))) t →
  decode_xywh sigmoid exp m t
  = decode_xywh sigmoid exp m (map3 (λ r, r ++ drop 2 r) t).
Proof.
  intros Hw Ht. unfold decode_xywh. cbv zeta.
  set (t4 := map3 (λ r, r ++ drop 2 r) t).
  assert (E1 : length t4 = length t) by (unfold t4, map3; by rewrite length_fmap).
  assert (Esz : (length (default [] (head t4))
                 * length (default [] (head (default [] (head t4)))))%nat
                = (length (default [] (head t))
                   * length (default [] (head (default [] (head t)))))%nat).
  { unfold t4, map3. destruct t as [|[|c img] t']; simpl; [done..|].
    by rewrite !length_fmap. }
  assert (Ed : slice_to2 t4 = slice_to2 t).
  { unfold slice_to2, t4. apply (map3_map3_ext (λ r, length r = 3%nat)); [done|].
    intros r Hr. by destruct r as [|? [|? [|? [|??]]]]. }
  assert (Ee : bcast4 Qmult (map4 exp (slice_from2 t4)) (all_anchors_wh m)
               = bcast4 Qmult (map4 exp (slice_from2 t)) (all_anchors_wh m)).
  { unfold slice_from2, t4.
    rewrite (map3_map3_ext (λ _, True) (drop 2) (λ r, r ++ drop 2 r)
               (λ r, drop 2 (r ++ drop 2 r)) t); [|by repeat (apply Forall_forall; intros ? _)|done].
    rewrite !map4_map3, Hw. unfold bcast4.
    apply (bcast_ext_l (Forall (Forall (λ r, length r = 2%nat)))).
    { constructor; [|constructor]. apply Forall_fmap, Forall_forall. intros d _.
      simpl. apply Forall_fmap, Forall_forall. by intros p _. }
    apply Forall2_fmap, Forall_Forall2_diag. eapply Forall_impl; [exact Ht|].
    intros img Hi W HW. simpl.
    apply (bcast_ext_l (Forall (λ r, length r = 2%nat))); [exact HW|].
    apply Forall2_fmap, Forall_Forall2_diag. eapply Forall_impl; [exact Hi|].
    intros c Hc Wc HWc. simpl.
    apply (bcast_ext_l (λ r, length r = 2%nat)); [exact HWc|].
    apply Forall2_fmap, Forall_Forall2_diag. eapply Forall_impl; [exact Hc|].
    intros r Hr w Hlw. simpl in Hr.
    destruct r as [|tx [|ty [|tw [|??]]]]; try done.
    by destruct w as [|w1 [|w2 [|??]]]. }
  by rewrite Esz, E1, Ed, Ee.
Qed.

Lemma concat_fmap_fmap {A B} (f : A → B) (l : list (list A)) :
  concat (fmap (M:=list) (fmap (M:=list) f) l) = f <$> concat l.
Proof.
  induction l as [|x l IH]; [done|].
  rewrite fmap_cons. cbn [concat]. by rewrite fmap_app, IH.
Qed.

(** X13.  [decode_xywh] accepts a tensor with three columns [tx, ty, tw]:
    the single size column is broadcast against the two anchor sides, so
    every slot is decoded with [tw] standing for both [tw] and [th]. *)
Theorem decode_xywh_three_columns sigmoid exp S tr c n a m t :
  init S tr c n a = Ok m →
  Forall (image_shape (S / 8 * (S / 8) + S / 16 * (S / 16) + S / 32 * (S / 32))
            (length a / 3) 3) t →
  ∃ out,
    decode_xywh sigmoid exp m t = Ok out
    ∧ ∀ b img i tx ty tw g,
        t !! b = Some img → concat img !! i = Some [tx; ty; tw] →
        grid_table S [(8, scale_anchors a 0); (16, scale_anchors a 1);
                      (32, scale_anchors a 2)]%nat !! i = Some g →
        ∃ rows,
          out !! b = Some rows
          ∧ rows !! i = Some [(sigmoid tx + cell_x g) * slot_stride g;
                              (sigmoid ty + cell_y g) * slot_stride g;
                              exp tw * anchor_w g; exp tw * anchor_h g].
Proof.
  intros Hi Ht.
  pose proof Hi as (_ & _ & _ & _ & _ & _ & _ & Hw & _)%init_inv.
  assert (Ht3 : Forall (Forall (Forall (λ r, length r = 3%nat))) t).
  { eapply Forall_impl; [exact Ht|]. intros img [_ Himg].
    eapply Forall_impl; [exact Himg|]. by intros cl [_ Hc]. }
  rewrite (decode_xywh_dup sigmoid exp m _ t Hw Ht3).
  eexists. split.
  - eapply decode_xywh_table; [exact Hi|]. unfold map3. apply Forall_fmap.
    eapply Forall_impl; [exact Ht|]. intros img Himg. simpl.
    eapply image_shape_fmap; [exact Himg|]. intros r Hr.
    rewrite length_app, length_drop. lia.
  - intros b img i tx ty tw g Hb Hr Hg. eexists. split.
    + unfold map3. by rewrite !list_lookup_fmap, Hb.
    + rewrite lookup_zip_with, Hg. simpl.
      by rewrite concat_fmap_fmap, list_lookup_fmap, Hr.
Qed.

Lemma decode_xywh_three_columns_witness :
  ∃ m, init 32 false (1#100) (3#10) [(10, 13); (16, 30); (33, 23)] = Ok m ∧
  ∃ out,
    decode_xywh (λ x, x / 2) (λ x, x * x) m [replicate 21 [[1; 2; 3]]] = Ok out
    ∧ ∀ b img i tx ty tw g,
        [replicate 21 [[1; 2; 3]]] !! b = Some img →
        concat img !! i = Some [tx; ty; tw] →
        grid_table 32
          [(8%nat, scale_anchors [(10, 13); (16, 30); (33, 23)] 0);
           (16%nat, scale_anchors [(10, 13); (16, 30); (33, 23)] 1);
           (32%nat, scale_anchors [(10, 13); (16, 30); (33, 23)] 2)] !! i = Some g →
        ∃ rows,
          out !! b = Some rows
          ∧ rows !! i = Some [((λ x, x / 2) tx + cell_x g) * slot_stride g;
                              ((λ x, x / 2) ty + cell_y g) * slot_stride g;
                              (λ x, x * x) tw * anchor_w g;
                              (λ x, x * x) tw * anchor_h g].
Proof.
  eexists. split; [vm_compute; reflexivity|].
  eapply (decode_xywh_three_columns (λ x, x / 2) (λ x, x * x) 32 false (1#100) (3#10)
            [(10, 13); (16, 30); (33, 23)] _ [replicate 21 [[1; 2; 3]]]).
  - vm_compute. reflexivity.
  - repeat constructor.
Defined.

(** * The rows of [decode_xywh] on any input *)










Lemma mapR_Forall2_out {A B} (P : A → Prop) (R : A → B → Prop) (F : A → result B) l :
  (∀ x, P x → ∃ o, F x = Ok o ∧ R x o) → Forall P l →
  ∃ os, mapR F l = Ok os ∧ Forall2 R l os.
Proof.
  intros HF Hl. induction Hl as [|x l Hx _ (os & IH & IH2)].
  - exists []. split; [done|constructor].
  - destruct (HF x Hx) as (o & Ho & HR). exists (o :: os). simpl.
    rewrite Ho, IH. split; [done|by constructor].
Qed.



(** * Spatial pyramid pooling *)

Lemma elem_of_window {A} (k p i : nat) (l : list A) (x : A) :
  x ∈ window k p i l
  ↔ ∃ j, l !! j = Some x ∧ (i ≤ j + p)%nat ∧ (j + p < i + k)%nat.
Proof.
  unfold window. rewrite list_elem_of_lookup. split.
  - intros (t & Ht). apply lookup_take_Some in Ht as [Ht Hlt].
    rewrite lookup_drop in Ht. exists (i - p + t)%nat. split; [done|lia].
  - intros (j & Hj & H1 & H2). exists (j - (i - p))%nat.
    apply lookup_take_Some. split; [|lia]. rewrite lookup_drop.
    by replace (i - p + (j - (i - p)))%nat with j by lia.
Qed.

Lemma window_subseteq {A} (k p k' p' i : nat) (l : list A) :
  (p ≤ p')%nat → (k + p' ≤ k' + p)%nat → window k p i l ⊆ window k' p' i l.
Proof.
  intros Hp Hk x. rewrite !elem_of_window. intros (j & Hj & H1 & H2).
  exists j. split; [done|lia].
Qed.

Lemma elem_of_concat {A} (ls : list (list A)) (x : A) :
  x ∈ concat ls ↔ ∃ l, l ∈ ls ∧ x ∈ l.
Proof.
  induction ls as [|l ls IH]; simpl.
  - split; [by intros ?%elem_of_nil|by intros (? & ?%elem_of_nil & _)].
  - rewrite elem_of_app, IH. split.
    + intros [H|(l' & H1 & H2)]; [exists l; split; [left|done]|].
      exists l'. split; [by right|done].
    + intros (l' & Hl' & H2). apply elem_of_cons in Hl' as [Heq|H1].
      * subst. by left.
      * right. by exists l'.
Qed.

Lemma foldr_Qmax_ub (x : Q) (l : list Q) :
  x <= foldr Qmax x l ∧ Forall (λ y, y <= foldr Qmax x l) l.
Proof.
  induction l as [|y l [IH1 IH2]]; simpl.
  - split; [apply Qle_refl|constructor].
  - split; [eapply Qle_trans; [exact IH1|apply Q.le_max_r]|].
    constructor; [apply Q.le_max_l|].
    eapply Forall_impl; [exact IH2|]. intros z Hz. simpl in Hz.
    eapply Qle_trans; [exact Hz|apply Q.le_max_r].
Qed.

Lemma Qmax_cases (x y : Q) : Qmax x y = x ∨ Qmax x y = y.
Proof.
  unfold Qmax, GenericMinMax.gmax. destruct (x ?= y); auto.
Qed.

Lemma foldr_Qmax_elem (x : Q) (l : list Q) : foldr Qmax x l ∈ x :: l.
Proof.
  induction l as [|y l IH]; simpl; [left|].
  destruct (Qmax_cases y (foldr Qmax x l)) as [Hm|Hm]; rewrite Hm.
  - right. left.
  - apply elem_of_cons in IH as [->|IH]; [left|right; by right].
Qed.

Lemma maximum_ub (l : list Q) (m x : Q) : maximum l = Ok m → x ∈ l → x <= m.
Proof.
  destruct l as [|y l]; [done|]. intros H Hx. inversion H; subst.
  destruct (foldr_Qmax_ub y l) as [H1 H2].
  apply elem_of_cons in Hx as [->|Hx]; [done|].
  rewrite Forall_forall in H2. by apply H2.
Qed.

Lemma maximum_elem (l : list Q) (m : Q) : maximum l = Ok m → m ∈ l.
Proof.
  destruct l as [|y l]; [done|]. intros H. inversion H. apply foldr_Qmax_elem.
Qed.

Lemma maximum_Ok (l : list Q) (x : Q) : x ∈ l → ∃ m, maximum l = Ok m.
Proof. destruct l as [|y l]; [by intros ?%elem_of_nil|]. by eexists. Qed.

Lemma maximum_mono (l l' : list Q) (m m' : Q) :
  l ⊆ l' → maximum l = Ok m → maximum l' = Ok m' → m <= m'.
Proof.
  intros Hsub Hm Hm'. eapply maximum_ub; [exact Hm'|].
  apply Hsub. by apply maximum_elem.
Qed.

(** The entries under the window of output position [[i, j]] of a plane. *)
Lemma elem_of_patch (k p i j : nat) (x : list (list Q)) (v : Q) :
  v ∈ patch k p i j x
  ↔ ∃ i' j' r, x !! i' = Some r ∧ r !! j' = Some v
               ∧ (i ≤ i' + p)%nat ∧ (i' + p < i + k)%nat
               ∧ (j ≤ j' + p)%nat ∧ (j' + p < j + k)%nat.
Proof.
  unfold patch. rewrite elem_of_concat. split.
  - intros (l & (r & -> & Hr)%list_elem_of_fmap & Hv).
    apply elem_of_window in Hr as (i' & Hi' & ? & ?).
    apply elem_of_window in Hv as (j' & Hj' & ? & ?).
    exists i', j', r. done.
  - intros (i' & j' & r & Hr & Hv & ? & ? & ? & ?).
    exists (window k p j r). split.
    + apply list_elem_of_fmap. exists r. split; [done|].
      apply elem_of_window. by exists i'.
    + apply elem_of_window. by exists j'.
Qed.

Lemma patch_subseteq (k p k' p' i j : nat) (x : list (list Q)) :
  (p ≤ p')%nat → (k + p' ≤ k' + p)%nat →
  patch k p i j x ⊆ patch k' p' i j x.
Proof.
  intros Hp Hk v. rewrite !elem_of_patch.
  intros (i' & j' & r & Hr & Hv & ? & ? & ? & ?).
  exists i', j', r. repeat split; try done; lia.
Qed.

Lemma pool_size_same (p n : nat) : pool_size (2 * p + 1) p n = n.
Proof. unfold pool_size. lia. Qed.

Lemma at2_Some (pl : list (list Q)) (i j : nat) (v : Q) :
  at2 pl i j = Some v ↔ ∃ r, pl !! i = Some r ∧ r !! j = Some v.
Proof.
  unfold at2. destruct (pl !! i) as [r|]; simpl.
  - split; [intros H; by exists r|by intros (r' & [= ->] & H)].
  - split; [done|by intros (r' & ? & _)].
Qed.

Lemma at2_patch (k p i j : nat) (pl : list (list Q)) (v : Q) :
  (p < k)%nat → at2 pl i j = Some v → v ∈ patch k p i j pl.
Proof.
  intros Hk (r & Hr & Hv)%at2_Some. apply elem_of_patch.
  exists i, j, r. repeat split; try done; lia.
Qed.

Lemma max_pool_plane_same (p H W : nat) (x : list (list Q)) :
  cell_shape H W x → (0 < H)%nat → (0 < W)%nat →
  ∃ y, max_pool_plane (2 * p + 1) p x = Ok y
       ∧ cell_shape H W y ∧ pooled (2 * p + 1) p x y.
Proof.
  intros [Hl Hr] HH HW. unfold max_pool_plane. cbv zeta.
  assert (HW' : length (default [] (head x)) = W).
  { destruct x as [|r x]; simpl in *; [lia|]. by apply Forall_cons in Hr as [Hr _]. }
  rewrite !pool_size_same, HW', Hl.
  rewrite decide_True by lia.
  destruct (mapR_Forall2_out (λ i, i < H)%nat
              (λ i row, Forall2 (λ j w, maximum (patch (2 * p + 1) p i j x) = Ok w)
                          (seq 0 W) row)
              (λ i, mapR (λ j, maximum (patch (2 * p + 1) p i j x)) (seq 0 W))
              (seq 0 H)) as (y & Hy & HF).
  { intros i Hi.
    apply mapR_Forall2_out with (P := (λ j, j < W)%nat).
    - intros j Hj.
      destruct (lookup_lt_is_Some_2 x i) as [r Hri]; [lia|].
      assert (Hrl : length r = W).
      { rewrite Forall_forall in Hr. eapply Hr, list_elem_of_lookup_2, Hri. }
      destruct (lookup_lt_is_Some_2 r j) as [v Hv]; [lia|].
      destruct (maximum_Ok (patch (2 * p + 1) p i j x) v) as [w Hw].
      { apply at2_patch; [lia|]. apply at2_Some. by exists r. }
      by exists w.
    - apply Forall_forall. intros j Hj%elem_of_seq. lia. }
  { apply Forall_forall. intros i Hi%elem_of_seq. lia. }
  exists y. split; [exact Hy|].
  pose proof (Forall2_length _ _ _ HF) as Hly. rewrite length_seq in Hly.
  split; [split; [done|]|].
  - eapply Forall2_Forall_r; [exact HF|]. apply Forall_forall.
    intros i _ row Hrow. apply Forall2_length in Hrow.
    by rewrite length_seq in Hrow.
  - intros i j v (r & Hri & Hv)%at2_Some.
    assert (Hi : (i < H)%nat) by (rewrite <- Hl; by eapply lookup_lt_Some).
    assert (Hrl : length r = W).
    { rewrite Forall_forall in Hr. eapply Hr, list_elem_of_lookup_2, Hri. }
    assert (Hj : (j < W)%nat) by (rewrite <- Hrl; by eapply lookup_lt_Some).
    destruct (Forall2_lookup_l _ _ _ i i HF) as (row & Hrow & HFr);
      [by apply lookup_seq_lt|].
    destruct (Forall2_lookup_l _ _ _ j j HFr) as (w & Hw & Hmax);
      [by apply lookup_seq_lt|].
    exists w. split; [|exact Hmax]. apply at2_Some. by exists row.
Qed.

Lemma max_pool2d_same (p B C H W : nat) (x : tensor4) :
  shape4 B C H W x → (0 < C)%nat → (0 < H)%nat → (0 < W)%nat →
  ∃ y, max_pool2d (2 * p + 1) p x = Ok y
       ∧ shape4 B C H W y ∧ Forall2 (Forall2 (pooled (2 * p + 1) p)) x y.
Proof.
  intros [Hl Hx] HC HH HW. unfold max_pool2d. rewrite decide_True by lia.
  destruct (mapR_Forall2_out (image_shape C H W)
              (λ xb yb, image_shape C H W yb
                        ∧ Forall2 (pooled (2 * p + 1) p) xb yb)
              (λ xb : list (list (list Q)),
                 if decide (length xb = 0%nat) then Raise RuntimeError
                 else mapR (max_pool_plane (2 * p + 1) p) xb) x)
    as (y & Hy & HF); [|exact Hx|].
  { intros xb [Hlb Hb]. rewrite decide_False by lia.
    destruct (mapR_Forall2_out (cell_shape H W)
                (λ pl ql, cell_shape H W ql ∧ pooled (2 * p + 1) p pl ql)
                (max_pool_plane (2 * p + 1) p) xb) as (yb & Hyb & HFb);
      [|exact Hb|].
    { intros pl Hpl. by apply max_pool_plane_same. }
    exists yb. split; [exact Hyb|]. split; [split|].
    - apply Forall2_length in HFb. lia.
    - eapply Forall2_Forall_r; [exact HFb|]. apply Forall_forall.
      by intros pl _ ql [Hq _].
    - eapply Forall2_impl; [exact HFb|]. by intros pl ql [_ Hq]. }
  exists y. split; [exact Hy|]. split; [split|].
  - apply Forall2_length in HF. lia.
  - eapply Forall2_Forall_r; [exact HF|]. apply Forall_forall.
    by intros xb _ yb [Hq _].
  - eapply Forall2_impl; [exact HF|]. by intros xb yb [_ Hq].
Qed.

Lemma dims_shape (C H W : nat) (xb : list (list (list Q))) :
  image_shape C H W xb → (0 < C)%nat → (0 < H)%nat → dims xb = (H, W).
Proof.
  intros [Hl Hb] HC HH. unfold dims. cbv zeta.
  destruct xb as [|pl xb]; simpl in *; [lia|].
  apply Forall_cons in Hb as [[Hpl Hr] _]. rewrite Hpl.
  destruct pl as [|r pl]; simpl in *; [lia|].
  apply Forall_cons in Hr as [Hr _]. by rewrite Hr.
Qed.

Lemma cat_pair_same (B C C' H W : nat) (t u : tensor4) :
  shape4 B C H W t → shape4 B C' H W u →
  (0 < C)%nat → (0 < C')%nat → (0 < H)%nat →
  cat_pair t u = Ok (zip_with app t u)
  ∧ shape4 B (C + C') H W (zip_with app t u).
Proof.
  intros [Hlt Ht] [Hlu Hu] HC HC' HH. split.
  - unfold cat_pair, same_len. rewrite decide_True by congruence.
    apply zipR_ext_Forall2.
    eapply (Forall2_of_Forall _ _ _ t u); [congruence|exact Ht|exact Hu|].
    intros xt xu Hxt Hxu. simpl.
    rewrite (dims_shape C H W xt), (dims_shape C' H W xu) by done.
    by rewrite decide_True.
  - split; [rewrite length_zip_with; lia|].
    eapply Forall_zip_with; [exact Ht|exact Hu|].
    intros xt xu [Hl1 H1] [Hl2 H2]. split; [rewrite length_app; lia|].
    by apply Forall_app.
Qed.

Lemma lookup_app4 {A} (a b c d : list A) (n i : nat) :
  length a = n → length b = n → length c = n → (i < n)%nat →
  (((a ++ b) ++ c) ++ d) !! i = a !! i
  ∧ (((a ++ b) ++ c) ++ d) !! (n + i)%nat = b !! i
  ∧ (((a ++ b) ++ c) ++ d) !! (2 * n + i)%nat = c !! i
  ∧ (((a ++ b) ++ c) ++ d) !! (3 * n + i)%nat = d !! i.
Proof.
  intros Ha Hb Hc Hi. repeat split.
  - rewrite !lookup_app_l; [done|lia|rewrite length_app; lia|rewrite !length_app; lia].
  - rewrite lookup_app_l by (rewrite !length_app; lia).
    rewrite lookup_app_l by (rewrite length_app; lia).
    rewrite lookup_app_r by lia. f_equal. lia.
  - rewrite lookup_app_l by (rewrite !length_app; lia).
    rewrite lookup_app_r by (rewrite length_app; lia).
    f_equal. rewrite length_app. lia.
  - rewrite lookup_app_r by (rewrite !length_app; lia).
    f_equal. rewrite !length_app. lia.
Qed.

Lemma SPP_forward_closed (B C H W : nat) (x : tensor4) :
  shape4 B C H W x → (0 < C)%nat → (0 < H)%nat → (0 < W)%nat →
  ∃ x1 x2 x3,
    SPP_forward x
    = Ok (zip_with app (zip_with app (zip_with app x x1) x2) x3)
    ∧ shape4 B (4 * C) H W (zip_with app (zip_with app (zip_with app x x1) x2) x3)
    ∧ shape4 B C H W x1 ∧ shape4 B C H W x2 ∧ shape4 B C H W x3
    ∧ Forall2 (Forall2 (pooled 5 2)) x x1
    ∧ Forall2 (Forall2 (pooled 9 4)) x x2
    ∧ Forall2 (Forall2 (pooled 13 6)) x x3.
Proof.
  intros Hx HC HH HW. unfold SPP_forward.
  destruct (max_pool2d_same 2 B C H W x Hx HC HH HW) as (x1 & E1 & S1 & P1).
  destruct (max_pool2d_same 4 B C H W x Hx HC HH HW) as (x2 & E2 & S2 & P2).
  destruct (max_pool2d_same 6 B C H W x Hx HC HH HW) as (x3 & E3 & S3 & P3).
  change (2 * 2 + 1)%nat with 5%nat in *. change (2 * 4 + 1)%nat with 9%nat in *.
  change (2 * 6 + 1)%nat with 13%nat in *.
  rewrite E1, bind_Ok, E2, bind_Ok, E3, bind_Ok.
  destruct (cat_pair_same B C C H W x x1 Hx S1 HC HC HH) as [Ec1 Sc1].
  destruct (cat_pair_same B (C + C) C H W _ x2 Sc1 S2) as [Ec2 Sc2]; [lia..|].
  destruct (cat_pair_same B (C + C + C) C H W _ x3 Sc2 S3) as [Ec3 Sc3]; [lia..|].
  cbn [cat_channels]. rewrite Ec1, bind_Ok, Ec2, bind_Ok, Ec3, bind_Ok.
  exists x1, x2, x3. split; [reflexivity|]. split; [|done].
  by replace (4 * C)%nat with (C + C + C + C)%nat by lia.
Qed.

(** The four entries of the output that belong to one entry of the input. *)
Lemma SPP_forward_entry (B C H W : nat) (x : tensor4) b c i j v :
  shape4 B C H W x → (0 < C)%nat → (0 < H)%nat → (0 < W)%nat →
  at4 x b c i j = Some v →
  ∃ out xb pl v1 v2 v3,
    SPP_forward x = Ok out ∧ shape4 B (4 * C) H W out
    ∧ x !! b = Some xb ∧ xb !! c = Some pl ∧ at2 pl i j = Some v
    ∧ at4 out b c i j = Some v
    ∧ at4 out b (C + c) i j = Some v1
    ∧ at4 out b (2 * C + c) i j = Some v2
    ∧ at4 out b (3 * C + c) i j = Some v3
    ∧ maximum (patch 5 2 i j pl) = Ok v1
    ∧ maximum (patch 9 4 i j pl) = Ok v2
    ∧ maximum (patch 13 6 i j pl) = Ok v3.
Proof.
  intros Hx HC HH HW Hv.
  destruct (SPP_forward_closed B C H W x Hx HC HH HW)
    as (x1 & x2 & x3 & E & Sh & S1 & S2 & S3 & P1 & P2 & P3).
  unfold at4 in Hv.
  destruct (x !! b) as [xb|] eqn:Hxb; [|done]. simpl in Hv.
  destruct (xb !! c) as [pl|] eqn:Hpl; [|done]. simpl in Hv.
  destruct (Forall2_lookup_l _ _ _ b xb P1 Hxb) as (x1b & Hx1b & Pb1).
  destruct (Forall2_lookup_l _ _ _ b xb P2 Hxb) as (x2b & Hx2b & Pb2).
  destruct (Forall2_lookup_l _ _ _ b xb P3 Hxb) as (x3b & Hx3b & Pb3).
  destruct (Forall2_lookup_l _ _ _ c pl Pb1 Hpl) as (q1 & Hq1 & Pq1).
  destruct (Forall2_lookup_l _ _ _ c pl Pb2 Hpl) as (q2 & Hq2 & Pq2).
  destruct (Forall2_lookup_l _ _ _ c pl Pb3 Hpl) as (q3 & Hq3 & Pq3).
  destruct (Pq1 i j v Hv) as (v1 & Hv1 & M1).
  destruct (Pq2 i j v Hv) as (v2 & Hv2 & M2).
  destruct (Pq3 i j v Hv) as (v3 & Hv3 & M3).
  assert (Hlen : ∀ (t : tensor4) tb, shape4 B C H W t → t !! b = Some tb →
                                     length tb = C).
  { intros t tb [_ Ht] Htb. rewrite Forall_forall in Ht.
    by destruct (Ht tb (list_elem_of_lookup_2 _ _ _ Htb)). }
  assert (Hc : (c < C)%nat).
  { rewrite <- (Hlen x xb Hx Hxb). by eapply lookup_lt_Some. }
  destruct (lookup_app4 xb x1b x2b x3b C c) as (L0 & L1 & L2 & L3);
    [exact (Hlen x xb Hx Hxb)|exact (Hlen x1 x1b S1 Hx1b)
    |exact (Hlen x2 x2b S2 Hx2b)|done|].
  eexists. exists xb, pl, v1, v2, v3.
  split; [exact E|]. split; [exact Sh|]. unfold at4.
  rewrite !lookup_zip_with, Hxb, Hx1b, Hx2b, Hx3b. simpl. simpl in L2, L3.
  rewrite L0, L1, L2, L3, Hpl, Hq1, Hq2, Hq3. simpl. done.
Qed.

(** X15.  [SPP.forward] on a [B, C, H, W] tensor with no empty dimension
    among [C], [H], [W] returns a [B, 4C, H, W] tensor.  Its first [C]
    channels are the input; channels [C + c], [2C + c] and [3C + c] hold the
    poolings of channel [c], and at every position the four values rise in
    this order. *)
Theorem SPP_forward_pyramid (B C H W : nat) (x : tensor4) :
  shape4 B C H W x → (0 < C)%nat → (0 < H)%nat → (0 < W)%nat →
  ∃ out,
    SPP_forward x = Ok out
    ∧ shape4 B (4 * C) H W out
    ∧ ∀ b c i j v,
        at4 x b c i j = Some v →
        ∃ v1 v2 v3,
          at4 out b c i j = Some v
          ∧ at4 out b (C + c) i j = Some v1
          ∧ at4 out b (2 * C + c) i j = Some v2
          ∧ at4 out b (3 * C + c) i j = Some v3
          ∧ v <= v1 ∧ v1 <= v2 ∧ v2 <= v3.
Proof.
  intros Hx HC HH HW.
  destruct (SPP_forward_closed B C H W x Hx HC HH HW) as (x1 & x2 & x3 & E & Sh & _).
  eexists. split; [exact E|]. split; [exact Sh|].
  intros b c i j v Hv.
  destruct (SPP_forward_entry B C H W x b c i j v Hx HC HH HW Hv)
    as (out & xb & pl & v1 & v2 & v3 & E' & _ & _ & _ & Hpv & H0 & H1 & H2 & H3
        & M1 & M2 & M3).
  rewrite E in E'. injection E' as <-.
  exists v1, v2, v3. repeat split; try done.
  - eapply maximum_ub; [exact M1|]. apply at2_patch; [lia|done].
  - eapply maximum_mono; [|exact M1|exact M2]. apply patch_subseteq; lia.
  - eapply maximum_mono; [|exact M2|exact M3]. apply patch_subseteq; lia.
Qed.

Lemma SPP_forward_pyramid_witness :
  ∃ out,
    SPP_forward [[[[1; 5]; [3; 2]]]] = Ok out
    ∧ shape4 1 (4 * 1) 2 2 out
    ∧ ∀ b c i j v,
        at4 [[[[1; 5]; [3; 2]]]] b c i j = Some v →
        ∃ v1 v2 v3,
          at4 out b c i j = Some v
          ∧ at4 out b (1 + c) i j = Some v1
          ∧ at4 out b (2 * 1 + c) i j = Some v2
          ∧ at4 out b (3 * 1 + c) i j = Some v3
          ∧ v <= v1 ∧ v1 <= v2 ∧ v2 <= v3.
Proof.
  apply (SPP_forward_pyramid 1 1 2 2 [[[[1; 5]; [3; 2]]]]); [|lia..].
  repeat constructor.
Defined.

Lemma patch_window (p i j : nat) (pl : list (list Q)) (w : Q) :
  maximum (patch (2 * p + 1) p i j pl) = Ok w →
  (∃ i' j', at2 pl i' j' = Some w
            ∧ (i ≤ i' + p)%nat ∧ (i' ≤ i + p)%nat
            ∧ (j ≤ j' + p)%nat ∧ (j' ≤ j + p)%nat)
  ∧ ∀ i' j' u, at2 pl i' j' = Some u →
               (i ≤ i' + p)%nat → (i' ≤ i + p)%nat →
               (j ≤ j' + p)%nat → (j' ≤ j + p)%nat → u <= w.
Proof.
  intros Hm. split.
  - apply maximum_elem, elem_of_patch in Hm
      as (i' & j' & r & Hr & Hv & ? & ? & ? & ?).
    exists i', j'. split; [apply at2_Some; by exists r|lia].
  - intros i' j' u (r & Hr & Hu)%at2_Some ? ? ? ?.
    eapply maximum_ub; [exact Hm|]. apply elem_of_patch.
    exists i', j', r. repeat split; try done; lia.
Qed.

(** X16.  What the pooled channels of [SPP.forward] hold: for [k] from 1
    to 3, entry [[i, j]] of channel [k C + c] is an entry of input channel
    [c] at most [2 k] rows and [2 k] columns away from [[i, j]], and no
    entry of that channel within this distance is greater. *)
Theorem SPP_forward_window (B C H W : nat) (x : tensor4) k b c i j v :
  shape4 B C H W x → (0 < C)%nat → (0 < H)%nat → (0 < W)%nat →
  (1 ≤ k ≤ 3)%nat → at4 x b c i j = Some v →
  ∃ out w,
    SPP_forward x = Ok out
    ∧ at4 out b (k * C + c) i j = Some w
    ∧ (∃ i' j', at4 x b c i' j' = Some w
                ∧ (i ≤ i' + 2 * k)%nat ∧ (i' ≤ i + 2 * k)%nat
                ∧ (j ≤ j' + 2 * k)%nat ∧ (j' ≤ j + 2 * k)%nat)
    ∧ ∀ i' j' u, at4 x b c i' j' = Some u →
                 (i ≤ i' + 2 * k)%nat → (i' ≤ i + 2 * k)%nat →
                 (j ≤ j' + 2 * k)%nat → (j' ≤ j + 2 * k)%nat → u <= w.
Proof.
  intros Hx HC HH HW Hk Hv.
  destruct (SPP_forward_entry B C H W x b c i j v Hx HC HH HW Hv)
    as (out & xb & pl & v1 & v2 & v3 & E & _ & Hxb & Hpl & Hpv & H0 & H1 & H2 & H3
        & M1 & M2 & M3).
  assert (Hat : ∀ i' j', at4 x b c i' j' = at2 pl i' j').
  { intros i' j'. unfold at4. by rewrite Hxb; simpl; rewrite Hpl. }
  exists out.
  assert (Hcases : k = 1%nat ∨ k = 2%nat ∨ k = 3%nat) by lia.
  destruct Hcases as [Hk1|[Hk1|Hk1]]; subst k.
  - exists v1. split; [exact E|].
    split; [by replace (1 * C + c)%nat with (C + c)%nat by lia|].
    destruct (patch_window 2 i j pl v1 M1) as [(i' & j' & Hw & ?) Hub].
    split; [exists i', j'; by rewrite Hat|].
    intros i'' j'' u Hu. rewrite Hat in Hu. by apply Hub.
  - exists v2. split; [exact E|]. split; [exact H2|].
    destruct (patch_window 4 i j pl v2 M2) as [(i' & j' & Hw & ?) Hub].
    split; [exists i', j'; by rewrite Hat|].
    intros i'' j'' u Hu. rewrite Hat in Hu. by apply Hub.
  - exists v3. split; [exact E|]. split; [exact H3|].
    destruct (patch_window 6 i j pl v3 M3) as [(i' & j' & Hw & ?) Hub].
    split; [exists i', j'; by rewrite Hat|].
    intros i'' j'' u Hu. rewrite Hat in Hu. by apply Hub.
Qed.

Lemma SPP_forward_window_witness :
  ∃ out w,
    SPP_forward [[[[1; 5]; [3; 2]]]] = Ok out
    ∧ at4 out 0 (1 * 1 + 0) 1 0 = Some w
    ∧ (∃ i' j', at4 [[[[1; 5]; [3; 2]]]] 0 0 i' j' = Some w
                ∧ (1 ≤ i' + 2 * 1)%nat ∧ (i' ≤ 1 + 2 * 1)%nat
                ∧ (0 ≤ j' + 2 * 1)%nat ∧ (j' ≤ 0 + 2 * 1)%nat)
    ∧ ∀ i' j' u, at4 [[[[1; 5]; [3; 2]]]] 0 0 i' j' = Some u →
                 (1 ≤ i' + 2 * 1)%nat → (i' ≤ 1 + 2 * 1)%nat →
                 (0 ≤ j' + 2 * 1)%nat → (j' ≤ 0 + 2 * 1)%nat → u <= w.
Proof.
  apply (SPP_forward_window 1 1 2 2 [[[[1; 5]; [3; 2]]]] 1 0 0 1 0 3);
    [|lia..|reflexivity].
  repeat constructor.
Defined.

(** * The transposed convolution layer *)

(** X17.  [DeConv2d] with its default stride 2 doubles the height and the
    width for each of the kernel sizes 2, 3 and 4; for any other kernel
    size the constructor fails, the padding being unbound. *)
Theorem DeConv2d_doubles (ksize n : nat) :
  (1 ≤ n)%nat →
  DeConv2d_size ksize 2 n
  = (if decide (2 ≤ ksize ≤ 4)%nat then Some (2 * n)%nat else None)
  ∧ (DeConv2d_padding ksize = None ↔ ¬ (2 ≤ ksize ≤ 4)%nat).
Proof.
  intros Hn. unfold DeConv2d_size, DeConv2d_padding, conv_transpose_size.
  destruct (decide (ksize = 4%nat)) as [->|H4].
  { rewrite decide_True by lia. split; [f_equal; lia|]. split; [done|lia]. }
  destruct (decide (ksize = 3%nat)) as [->|H3].
  { rewrite decide_True by lia. split; [f_equal; lia|]. split; [done|lia]. }
  destruct (decide (ksize = 2%nat)) as [->|H2].
  { rewrite decide_True by lia. split; [f_equal; lia|]. split; [done|lia]. }
  rewrite decide_False by lia. split; [done|]. split; [lia|done].
Qed.

Lemma DeConv2d_doubles_witness :
  DeConv2d_size 3 2 13
  = (if decide (2 ≤ 3 ≤ 4)%nat then Some (2 * 13)%nat else None)
  ∧ (DeConv2d_padding 3 = None ↔ ¬ (2 ≤ 3 ≤ 4)%nat).
Proof. apply (DeConv2d_doubles 3 13). lia. Defined.

(** * The layout of the head outputs *)

Lemma lookup_concat_uniform {A} (ls : list (list A)) (n i j : nat) :
  Forall (λ l, length l = n) ls → (j < n)%nat →
  concat ls !! (i * n + j)%nat = ls !! i ≫= (.!! j).
Proof.
  intros Hls Hj. revert i. induction Hls as [|l ls Hl _ IH]; intros i.
  - by rewrite !lookup_nil.
  - destruct i as [|i]; cbn [concat].
    + rewrite lookup_app_l by (simpl; lia). done.
    + rewrite lookup_app_r by (simpl; lia).
      replace (S i * n + j - length l)%nat with (i * n + j)%nat by (simpl; lia).
      apply IH.
Qed.

Lemma lookup_groups {A} (n a i : nat) (l : list A) :
  (i < n)%nat → groups n a l !! i = Some (take a (drop (i * a) l)).
Proof.
  revert l i. induction n as [|n IH]; intros l i Hi; [lia|].
  destruct i as [|i]; simpl; [done|].
  rewrite IH by lia. by rewrite drop_drop.
Qed.

Lemma length_groups {A} (n a : nat) (l : list A) : length (groups n a l) = n.
Proof. revert l. induction n as [|n IH]; intros l; simpl; [done|]. by rewrite IH. Qed.

Lemma concat_concat_fmap {A B} (f : A → list (list B)) (l : list A) :
  concat (concat (f <$> l)) = concat ((λ x, concat (f x)) <$> l).
Proof.
  induction l as [|x l IH]; [done|].
  rewrite !fmap_cons. cbn [concat]. by rewrite concat_app, IH.
Qed.

(** [view(B, -1, m)] of [B * n * m] entries. *)
Lemma view_rows_Ok (B n m : nat) (flat : list Q) :
  (0 < B)%nat → (0 < m)%nat → length flat = (B * (n * m))%nat →
  view_rows B m flat = Ok (groups n m <$> groups B (n * m) flat)
  ∧ concat (concat (groups n m <$> groups B (n * m) flat)) = flat
  ∧ length (groups n m <$> groups B (n * m) flat) = B
  ∧ Forall (λ img : list (list Q), length img = n ∧ Forall (λ r, length r = m) img)
      (groups n m <$> groups B (n * m) flat)
  ∧ ∀ b i q, (b < B)%nat → (i < n)%nat → (q < m)%nat →
      at3 (groups n m <$> groups B (n * m) flat) b i q
      = flat !! (b * (n * m) + i * m + q)%nat.
Proof.
  intros HB Hm Hl.
  assert (Hdiv : (length flat / (B * m) = n)%nat).
  { rewrite Hl. replace (B * (n * m))%nat with (n * (B * m))%nat by lia.
    apply Nat.div_mul. lia. }
  destruct (groups_shape B (n * m) flat (λ _, True)) as [Hg1 Hg2];
    [done|by apply Forall_forall|].
  split; [|split; [|split; [|split]]].
  - unfold view_rows. rewrite decide_True.
    + cbv zeta. by rewrite Hdiv.
    + split; [lia|]. rewrite Hl.
      replace (B * (n * m))%nat with (n * (B * m))%nat by lia.
      apply Nat.Div0.mod_mul.
  - rewrite concat_concat_fmap.
    rewrite (proj1 (Forall_fmap_ext (λ x, concat (groups n m x)) id _)).
    + rewrite list_fmap_id. by apply concat_groups.
    + eapply Forall_impl; [exact Hg2|]. intros ch [Hch _]. simpl.
      by apply concat_groups.
  - by rewrite length_fmap.
  - apply Forall_fmap. eapply Forall_impl; [exact Hg2|]. intros ch [Hch _]. simpl.
    destruct (groups_shape n m ch (λ _, True)) as [H1 H2];
      [done|by apply Forall_forall|].
    split; [done|]. eapply Forall_impl; [exact H2|]. by intros r [Hr _].
  - intros b i q Hb Hi Hq. unfold at3.
    rewrite list_lookup_fmap, (lookup_groups B (n * m) b flat Hb). simpl.
    rewrite (lookup_groups n m i _ Hi). simpl.
    rewrite lookup_take_lt by done. rewrite lookup_drop.
    assert (Him : (i * m + q < n * m)%nat) by nia.
    rewrite lookup_take_lt by done. rewrite lookup_drop.
    f_equal. lia.
Qed.

(** The entries of a [B, H, W, C] tensor in memory order. *)
Lemma flat4_layout (B H W C : nat) (p : tensor4) :
  shape4 B H W C p →
  length (concat (concat (concat p))) = (B * H * W * C)%nat
  ∧ ∀ b h w c, (h < H)%nat → (w < W)%nat → (c < C)%nat →
      concat (concat (concat p)) !! (((b * H + h) * W + w) * C + c)%nat
      = at4 p b h w c.
Proof.
  intros [Hl Hp].
  assert (H1 : Forall (λ xb : list (list (list Q)), length xb = H) p).
  { eapply Forall_impl; [exact Hp|]. by intros xb [? _]. }
  assert (H2 : Forall (λ r : list (list Q), length r = W) (concat p)).
  { apply Forall_concat. eapply Forall_impl; [exact Hp|]. intros xb [_ Hxb].
    eapply Forall_impl; [exact Hxb|]. by intros r [? _]. }
  assert (H3 : Forall (λ r : list Q, length r = C) (concat (concat p))).
  { apply Forall_concat, Forall_concat. eapply Forall_impl; [exact Hp|].
    intros xb [_ Hxb]. eapply Forall_impl; [exact Hxb|]. by intros r [_ ?]. }
  split.
  - rewrite (length_concat_const _ C H3), (length_concat_const _ W H2),
      (length_concat_const _ H H1). by rewrite Hl.
  - intros b h w c Hh Hw Hc.
    rewrite (lookup_concat_uniform _ C _ c H3 Hc).
    rewrite (lookup_concat_uniform _ W _ w H2 Hw).
    rewrite (lookup_concat_uniform _ H _ h H1 Hh).
    unfold at4, at2. destruct (p !! b) as [xb|]; simpl; [|done].
    destruct (xb !! h) as [r|]; simpl; [|done]. done.
Qed.

Lemma permute_0231_Ok (B C H W : nat) (t : tensor4) :
  shape4 B C H W t → (0 < C)%nat → (0 < H)%nat →
  ∃ p, permute_0231 t = Ok p ∧ shape4 B H W C p
       ∧ ∀ b h w c, (b < B)%nat → (h < H)%nat → (w < W)%nat → (c < C)%nat →
           at4 p b h w c = at4 t b c h w.
Proof.
  intros [Hl Ht] HC HH.
  set (F := λ xb : list (list (list Q)),
              (λ h, (λ w, (λ pl, default 0 (at2 pl h w)) <$> xb) <$> seq 0 W)
                <$> seq 0 H).
  assert (E : permute_0231 t = Ok (F <$> t)).
  { unfold permute_0231. apply mapR_ext_Forall. eapply Forall_impl; [exact Ht|].
    intros xb Hxb. simpl. pose proof Hxb as [Hlb Hb].
    assert (Hd : dims xb = (H, W)) by (by eapply dims_shape).
    unfold dims in Hd. cbv zeta in Hd. injection Hd as Hd1 Hd2. rewrite Hd1, Hd2.
    unfold F. apply mapR_ext_Forall, Forall_forall. intros h Hh%elem_of_seq.
    apply mapR_ext_Forall, Forall_forall. intros w Hw%elem_of_seq.
    apply mapR_ext_Forall. eapply Forall_impl; [exact Hb|].
    intros pl [Hpl Hr]. simpl.
    destruct (lookup_lt_is_Some_2 pl h) as [r Hrh]; [lia|].
    assert (Hrl : length r = W).
    { rewrite Forall_forall in Hr. eapply Hr, list_elem_of_lookup_2, Hrh. }
    destruct (lookup_lt_is_Some_2 r w) as [v Hv]; [lia|].
    unfold idx, at2. rewrite Hrh, bind_Ok. simpl. by rewrite Hv. }
  exists (F <$> t). split; [exact E|]. split.
  - split; [by rewrite length_fmap|]. apply Forall_fmap.
    eapply Forall_impl; [exact Ht|]. intros xb [Hlb Hb]. simpl. unfold F.
    split; [by rewrite length_fmap, length_seq|].
    apply Forall_fmap, Forall_forall. intros h _. simpl.
    split; [by rewrite length_fmap, length_seq|].
    apply Forall_fmap, Forall_forall. intros w _. simpl. by rewrite length_fmap.
  - intros b h w c Hb Hh Hw Hc. unfold at4 at 1.
    rewrite list_lookup_fmap.
    destruct (lookup_lt_is_Some_2 t b) as [xb Hxb]; [lia|].
    assert (Hs : image_shape C H W xb).
    { rewrite Forall_forall in Ht. eapply Ht, list_elem_of_lookup_2, Hxb. }
    destruct Hs as [Hlb Hb'].
    destruct (lookup_lt_is_Some_2 xb c) as [pl Hpl]; [lia|].
    assert (Hps : cell_shape H W pl).
    { rewrite Forall_forall in Hb'. eapply Hb', list_elem_of_lookup_2, Hpl. }
    destruct Hps as [Hlp Hr].
    destruct (lookup_lt_is_Some_2 pl h) as [r Hrh]; [lia|].
    assert (Hrl : length r = W).
    { rewrite Forall_forall in Hr. eapply Hr, list_elem_of_lookup_2, Hrh. }
    destruct (lookup_lt_is_Some_2 r w) as [v Hv]; [lia|].
    assert (Hat : at2 pl h w = Some v) by (unfold at2; by rewrite Hrh).
    rewrite Hxb. simpl. unfold F, at2.
    rewrite list_lookup_fmap, (lookup_seq_lt 0 H h Hh). simpl.
    rewrite list_lookup_fmap, (lookup_seq_lt 0 W w Hw). simpl.
    rewrite list_lookup_fmap, Hpl. simpl.
    unfold at4. rewrite Hxb. simpl. rewrite Hpl. simpl.
    change (r0 ← pl !! h; r0 !! w) with (at2 pl h w).
    by rewrite Hat.
Qed.

(** The rows of one head: row [(y * W + x) * A + a] holds the [k]
    channels of anchor [a] at position [[y, x]]. *)
Lemma head_rows_layout (B A k H W : nat) (t : tensor4) :
  shape4 B (A * k) H W t →
  (0 < B)%nat → (0 < A)%nat → (0 < k)%nat → (0 < H)%nat →
  ∃ rows,
    head_rows B A k t = Ok rows
    ∧ length rows = B
    ∧ Forall (λ img : list (list Q),
                length img = (H * W * A)%nat ∧ Forall (λ r, length r = k) img) rows
    ∧ ∀ b y x a q,
        (b < B)%nat → (y < H)%nat → (x < W)%nat → (a < A)%nat → (q < k)%nat →
        at3 rows b ((y * W + x) * A + a) q = at4 t b (a * k + q) y x.
Proof.
  intros Ht HB HA Hk HH.
  destruct (permute_0231_Ok B (A * k) H W t Ht) as (p & Ep & Sp & Hp); [nia|done|].
  destruct (flat4_layout B H W (A * k) p Sp) as [Hlen Hflat].
  set (flat := concat (concat (concat p))) in *.
  destruct (view_rows_Ok B (H * W) (A * k) flat) as (E1 & Hcc & _);
    [done|nia|rewrite Hlen; lia|].
  destruct (view_rows_Ok B (H * W * A) k flat) as (E2 & _ & Hl2 & Hs2 & Hat);
    [done|done|rewrite Hlen; lia|].
  unfold head_rows. rewrite Ep, bind_Ok. fold flat. rewrite E1, bind_Ok, Hcc, E2.
  eexists. split; [reflexivity|]. split; [exact Hl2|]. split; [exact Hs2|].
  intros b y x a q Hb Hy Hx Ha Hq.
  assert (Hyx : ((y + 1) * W ≤ H * W)%nat) by (apply Nat.mul_le_mono_r; lia).
  assert (Hi : ((y * W + x + 1) * A ≤ H * W * A)%nat)
    by (apply Nat.mul_le_mono_r; lia).
  assert (Hc : ((a + 1) * k ≤ A * k)%nat) by (apply Nat.mul_le_mono_r; lia).
  rewrite Hat; [|done|lia|done].
  replace (b * (H * W * A * k) + ((y * W + x) * A + a) * k + q)%nat
    with (((b * H + y) * W + x) * (A * k) + (a * k + q))%nat by lia.
  rewrite Hflat; [|done|done|lia].
  apply Hp; [done..|lia].
Qed.

Lemma cat_rows_pair_Ok (B n n' k : nat) (t u : tensor3) :
  image_shape B n k t → image_shape B n' k u →
  cat_rows_pair t u = Ok (zip_with app t u)
  ∧ image_shape B (n + n') k (zip_with app t u).
Proof.
  intros [Hlt Ht] [Hlu Hu]. split.
  - unfold cat_rows_pair, same_len. rewrite decide_True by congruence.
    apply zipR_ext_Forall2.
    eapply (Forall2_of_Forall _ _ _ t u); [congruence|exact Ht|exact Hu|].
    intros rt ru [_ Hrt] [_ Hru]. simpl.
    assert (Hall : Forall (λ r : list Q, length r = k) (rt ++ ru))
      by (by apply Forall_app).
    rewrite decide_True; [done|].
    destruct (rt ++ ru) as [|r0 rs]; [constructor|]. simpl.
    pose proof Hall as [Hr0 _]%Forall_cons. by rewrite Hr0.
  - split; [rewrite length_zip_with; lia|].
    eapply Forall_zip_with; [exact Ht|exact Hu|].
    intros rt ru [Hl1 H1] [Hl2 H2]. split; [rewrite length_app; lia|].
    by apply Forall_app.
Qed.

Lemma cat_rows_three (B n3 n4 n5 k : nat) (r3 r4 r5 : tensor3) :
  image_shape B n3 k r3 → image_shape B n4 k r4 → image_shape B n5 k r5 →
  ∃ out,
    cat_rows r3 [r4; r5] = Ok out
    ∧ image_shape B (n3 + n4 + n5) k out
    ∧ ∀ b i q,
        ((i < n3)%nat → at3 out b i q = at3 r3 b i q)
        ∧ ((i < n4)%nat → at3 out b (n3 + i) q = at3 r4 b i q)
        ∧ ((i < n5)%nat → at3 out b (n3 + n4 + i) q = at3 r5 b i q).
Proof.
  intros S3 S4 S5.
  destruct (cat_rows_pair_Ok B n3 n4 k r3 r4 S3 S4) as [E1 S34].
  destruct (cat_rows_pair_Ok B (n3 + n4) n5 k _ r5 S34 S5) as [E2 S345].
  cbn [cat_rows]. rewrite E1, bind_Ok, E2, bind_Ok.
  eexists. split; [reflexivity|]. split; [exact S345|].
  intros b i q. unfold at3. rewrite !lookup_zip_with.
  destruct S3 as [L3 F3], S4 as [L4 F4], S5 as [L5 F5].
  destruct (r3 !! b) as [i3|] eqn:H3; simpl.
  2:{ apply lookup_ge_None in H3.
      rewrite (proj2 (lookup_ge_None r4 b)) by lia.
      rewrite (proj2 (lookup_ge_None r5 b)) by lia. done. }
  assert (Hb : (b < B)%nat) by (rewrite <- L3; by eapply lookup_lt_Some).
  destruct (lookup_lt_is_Some_2 r4 b) as [i4 H4]; [lia|].
  destruct (lookup_lt_is_Some_2 r5 b) as [i5 H5]; [lia|].
  rewrite H4, H5. simpl.
  assert (Hl3 : length i3 = n3).
  { rewrite Forall_forall in F3.
    by destruct (F3 i3 (list_elem_of_lookup_2 _ _ _ H3)). }
  assert (Hl4 : length i4 = n4).
  { rewrite Forall_forall in F4.
    by destruct (F4 i4 (list_elem_of_lookup_2 _ _ _ H4)). }
  repeat split; intros Hi.
  - rewrite lookup_app_l by (rewrite length_app; lia).
    by rewrite lookup_app_l by lia.
  - rewrite lookup_app_l by (rewrite length_app; lia).
    rewrite lookup_app_r by lia. by replace (n3 + i - length i3)%nat with i by lia.
  - rewrite lookup_app_r by (rewrite length_app; lia).
    by replace (n3 + n4 + i - length (i3 ++ i4))%nat with i
      by (rewrite length_app; lia).
Qed.

(** X18.  Lines 199-211 of [forward] on head outputs of sizes
    [B, A, H, W] (confidence) and [B, 4 A, H, W] (boxes) on three levels:
    nothing is raised; every image gets one row per position and anchor,
    the levels in the order 3, 4, 5, the positions of a level row by row
    and the anchors innermost.  Row [(y W + x) A + a] of a level holds
    channel [a] of the confidence head and channels [4 a .. 4 a + 3] of the
    box head at position [[y, x]]. *)
Theorem forward_heads_layout (B A H3 W3 H4 W4 H5 W5 : nat)
    (c3 c4 c5 b3 b4 b5 : tensor4) :
  (0 < B)%nat → (0 < A)%nat → (0 < H3)%nat → (0 < H4)%nat → (0 < H5)%nat →
  shape4 B (A * 1) H3 W3 c3 → shape4 B (A * 1) H4 W4 c4 →
  shape4 B (A * 1) H5 W5 c5 →
  shape4 B (A * 4) H3 W3 b3 → shape4 B (A * 4) H4 W4 b4 →
  shape4 B (A * 4) H5 W5 b5 →
  ∃ conf_pred txtytwth_pred,
    forward_heads B A c3 c4 c5 b3 b4 b5 = Ok (conf_pred, txtytwth_pred)
    ∧ image_shape B (H3 * W3 * A + H4 * W4 * A + H5 * W5 * A) 1 conf_pred
    ∧ image_shape B (H3 * W3 * A + H4 * W4 * A + H5 * W5 * A) 4 txtytwth_pred
    ∧ ∀ b y x a q,
        (b < B)%nat → (a < A)%nat → (q < 4)%nat →
        ((y < H3)%nat → (x < W3)%nat →
         at3 conf_pred b ((y * W3 + x) * A + a) 0 = at4 c3 b a y x
         ∧ at3 txtytwth_pred b ((y * W3 + x) * A + a) q = at4 b3 b (a * 4 + q) y x)
        ∧ ((y < H4)%nat → (x < W4)%nat →
           at3 conf_pred b (H3 * W3 * A + ((y * W4 + x) * A + a)) 0
           = at4 c4 b a y x
           ∧ at3 txtytwth_pred b (H3 * W3 * A + ((y * W4 + x) * A + a)) q
             = at4 b4 b (a * 4 + q) y x)
        ∧ ((y < H5)%nat → (x < W5)%nat →
           at3 conf_pred b (H3 * W3 * A + H4 * W4 * A + ((y * W5 + x) * A + a)) 0
           = at4 c5 b a y x
           ∧ at3 txtytwth_pred b
               (H3 * W3 * A + H4 * W4 * A + ((y * W5 + x) * A + a)) q
             = at4 b5 b (a * 4 + q) y x).
Proof.
  intros HB HA HH3 HH4 HH5 Sc3 Sc4 Sc5 Sb3 Sb4 Sb5.
  destruct (head_rows_layout B A 1 H5 W5 c5 Sc5) as (rc5 & Ec5 & Lc5 & Fc5 & Pc5);
    [lia..|].
  destruct (head_rows_layout B A 4 H5 W5 b5 Sb5) as (rb5 & Eb5 & Lb5 & Fb5 & Pb5);
    [lia..|].
  destruct (head_rows_layout B A 1 H4 W4 c4 Sc4) as (rc4 & Ec4 & Lc4 & Fc4 & Pc4);
    [lia..|].
  destruct (head_rows_layout B A 4 H4 W4 b4 Sb4) as (rb4 & Eb4 & Lb4 & Fb4 & Pb4);
    [lia..|].
  destruct (head_rows_layout B A 1 H3 W3 c3 Sc3) as (rc3 & Ec3 & Lc3 & Fc3 & Pc3);
    [lia..|].
  destruct (head_rows_layout B A 4 H3 W3 b3 Sb3) as (rb3 & Eb3 & Lb3 & Fb3 & Pb3);
    [lia..|].
  destruct (cat_rows_three B (H3 * W3 * A) (H4 * W4 * A) (H5 * W5 * A) 1 rc3 rc4 rc5)
    as (conf & Econf & Sconf & Pconf); [by split..|].
  destruct (cat_rows_three B (H3 * W3 * A) (H4 * W4 * A) (H5 * W5 * A) 4 rb3 rb4 rb5)
    as (bbox & Ebbox & Sbbox & Pbbox); [by split..|].
  unfold forward_heads.
  rewrite Ec5, bind_Ok, Eb5, bind_Ok, Ec4, bind_Ok, Eb4, bind_Ok, Ec3, bind_Ok,
    Eb3, bind_Ok, Econf, bind_Ok, Ebbox, bind_Ok.
  exists conf, bbox. split; [done|]. split; [exact Sconf|]. split; [exact Sbbox|].
  intros b y x a q Hb Ha Hq.
  assert (Hrow : ∀ H W, (y < H)%nat → (x < W)%nat →
                        ((y * W + x) * A + a < H * W * A)%nat).
  { intros H W Hy Hx.
    assert (((y + 1) * W ≤ H * W)%nat) by (apply Nat.mul_le_mono_r; lia).
    assert (((y * W + x + 1) * A ≤ H * W * A)%nat)
      by (apply Nat.mul_le_mono_r; lia).
    lia. }
  assert (Ha1 : (a * 1 + 0)%nat = a) by lia.
  split; [|split]; intros Hy Hx; split.
  - destruct (Pconf b ((y * W3 + x) * A + a)%nat 0%nat) as (P1 & _).
    rewrite P1 by (by apply Hrow). rewrite Pc3 by (done || lia). by rewrite Ha1.
  - destruct (Pbbox b ((y * W3 + x) * A + a)%nat q) as (P1 & _).
    rewrite P1 by (by apply Hrow). by rewrite Pb3.
  - destruct (Pconf b ((y * W4 + x) * A + a)%nat 0%nat) as (_ & P2 & _).
    rewrite P2 by (by apply Hrow). rewrite Pc4 by (done || lia). by rewrite Ha1.
  - destruct (Pbbox b ((y * W4 + x) * A + a)%nat q) as (_ & P2 & _).
    rewrite P2 by (by apply Hrow). by rewrite Pb4.
  - destruct (Pconf b ((y * W5 + x) * A + a)%nat 0%nat) as (_ & _ & P3).
    rewrite P3 by (by apply Hrow). rewrite Pc5 by (done || lia). by rewrite Ha1.
  - destruct (Pbbox b ((y * W5 + x) * A + a)%nat q) as (_ & _ & P3).
    rewrite P3 by (by apply Hrow). by rewrite Pb5.
Qed.

Lemma forward_heads_layout_witness :
  ∃ conf_pred txtytwth_pred,
    forward_heads 1 1 [[[[1; 2]; [3; 4]]]] [[[[5]]]] [[[[6]]]]
      [[[[1; 2]; [3; 4]]; [[5; 6]; [7; 8]]; [[9; 10]; [11; 12]];
        [[13; 14]; [15; 16]]]]
      [[[[1]]; [[2]]; [[3]]; [[4]]]] [[[[5]]; [[6]]; [[7]]; [[8]]]]
    = Ok (conf_pred, txtytwth_pred)
    ∧ image_shape 1 (2 * 2 * 1 + 1 * 1 * 1 + 1 * 1 * 1) 1 conf_pred
    ∧ image_shape 1 (2 * 2 * 1 + 1 * 1 * 1 + 1 * 1 * 1) 4 txtytwth_pred
    ∧ ∀ b y x a q,
        (b < 1)%nat → (a < 1)%nat → (q < 4)%nat →
        ((y < 2)%nat → (x < 2)%nat →
         at3 conf_pred b ((y * 2 + x) * 1 + a) 0 = at4 [[[[1; 2]; [3; 4]]]] b a y x
         ∧ at3 txtytwth_pred b ((y * 2 + x) * 1 + a) q
           = at4 [[[[1; 2]; [3; 4]]; [[5; 6]; [7; 8]]; [[9; 10]; [11; 12]];
                   [[13; 14]; [15; 16]]]] b (a * 4 + q) y x)
        ∧ ((y < 1)%nat → (x < 1)%nat →
           at3 conf_pred b (2 * 2 * 1 + ((y * 1 + x) * 1 + a)) 0
           = at4 [[[[5]]]] b a y x
           ∧ at3 txtytwth_pred b (2 * 2 * 1 + ((y * 1 + x) * 1 + a)) q
             = at4 [[[[1]]; [[2]]; [[3]]; [[4]]]] b (a * 4 + q) y x)
        ∧ ((y < 1)%nat → (x < 1)%nat →
           at3 conf_pred b (2 * 2 * 1 + 1 * 1 * 1 + ((y * 1 + x) * 1 + a)) 0
           = at4 [[[[6]]]] b a y x
           ∧ at3 txtytwth_pred b
               (2 * 2 * 1 + 1 * 1 * 1 + ((y * 1 + x) * 1 + a)) q
             = at4 [[[[5]]; [[6]]; [[7]]; [[8]]]] b (a * 4 + q) y x).
Proof.
  apply (forward_heads_layout 1 1 2 2 1 1 1 1); [lia..| | | | | |];
    repeat constructor.
Defined.

(** * The layout of the grid tensors *)

Lemma scale_cells_lookup (S s : nat) (anchors : list (Q * Q)) (y x : nat) :
  (y < S / s)%nat → (x < S / s)%nat →
  scale_cells S s anchors !! (y * (S / s) + x)%nat
  = Some (Cell (qn x) (qn y) (qn s) anchors).
Proof.
  intros Hy Hx. unfold scale_cells. rewrite <- concat_fmap_bind.
  rewrite (lookup_concat_uniform _ (S / s)); [| |done].
  - rewrite list_lookup_fmap, (lookup_seq_lt 0 _ y Hy). simpl.
    rewrite list_bind_singleton, list_lookup_fmap, (lookup_seq_lt 0 _ x Hx). done.
  - apply Forall_fmap, Forall_forall. intros i _. simpl.
    by rewrite list_bind_singleton, length_fmap, length_seq.
Qed.

Lemma grid_cells_lookup (S : nat) (a0 a1 a2 : list (Q * Q)) (y x : nat) :
  ((y < S / 8)%nat → (x < S / 8)%nat →
   grid_cells S a0 a1 a2 !! (y * (S / 8) + x)%nat
   = Some (Cell (qn x) (qn y) (qn 8) a0))
  ∧ ((y < S / 16)%nat → (x < S / 16)%nat →
     grid_cells S a0 a1 a2 !! (S / 8 * (S / 8) + (y * (S / 16) + x))%nat
     = Some (Cell (qn x) (qn y) (qn 16) a1))
  ∧ ((y < S / 32)%nat → (x < S / 32)%nat →
     grid_cells S a0 a1 a2
       !! (S / 8 * (S / 8) + S / 16 * (S / 16) + (y * (S / 32) + x))%nat
     = Some (Cell (qn x) (qn y) (qn 32) a2)).
Proof.
  unfold grid_cells. split; [|split]; intros Hy Hx.
  - assert (((y + 1) * (S / 8) ≤ S / 8 * (S / 8))%nat)
      by (apply Nat.mul_le_mono_r; lia).
    rewrite lookup_app_l by (rewrite scale_cells_length; lia).
    by apply scale_cells_lookup.
  - rewrite lookup_app_r by (rewrite scale_cells_length; lia).
    rewrite scale_cells_length.
    replace (S / 8 * (S / 8) + (y * (S / 16) + x) - S / 8 * (S / 8))%nat
      with (y * (S / 16) + x)%nat by lia.
    assert (((y + 1) * (S / 16) ≤ S / 16 * (S / 16))%nat)
      by (apply Nat.mul_le_mono_r; lia).
    rewrite lookup_app_l by (rewrite scale_cells_length; lia).
    by apply scale_cells_lookup.
  - rewrite lookup_app_r by (rewrite scale_cells_length; lia).
    rewrite scale_cells_length.
    rewrite lookup_app_r by (rewrite scale_cells_length; lia).
    rewrite scale_cells_length.
    replace (S / 8 * (S / 8) + S / 16 * (S / 16) + (y * (S / 32) + x)
             - S / 8 * (S / 8) - S / 16 * (S / 16))%nat
      with (y * (S / 32) + x)%nat by lia.
    by apply scale_cells_lookup.
Qed.

(** X19.  The three tensors the constructor gets from [create_grid] hold
    one entry per cell, the strides 8, 16, 32 in this order and the cells of
    a stride row by row: at cell [y * (S // s) + x] of stride [s], after the
    cells of the strides before it, [grid_cell] holds [[x, y]],
    [stride_tensor] holds [[s, s]] for each anchor, and [all_anchors_wh]
    holds the anchors of that stride. *)
Theorem create_grid_layout S tr c n a m :
  init S tr c n a = Ok m →
  ∃ G St Wh,
    grid_cell m = [G] ∧ stride_tensor m = [St] ∧ all_anchors_wh m = [Wh]
    ∧ ∀ y x,
        ((y < S / 8)%nat → (x < S / 8)%nat →
         G !! (y * (S / 8) + x)%nat = Some [[qn x; qn y]]
         ∧ St !! (y * (S / 8) + x)%nat = Some (replicate (length a / 3) [qn 8; qn 8])
         ∧ Wh !! (y * (S / 8) + x)%nat
           = Some ((λ p : Q * Q, [p.1; p.2]) <$> scale_anchors a 0))
        ∧ ((y < S / 16)%nat → (x < S / 16)%nat →
           G !! (S / 8 * (S / 8) + (y * (S / 16) + x))%nat = Some [[qn x; qn y]]
           ∧ St !! (S / 8 * (S / 8) + (y * (S / 16) + x))%nat
             = Some (replicate (length a / 3) [qn 16; qn 16])
           ∧ Wh !! (S / 8 * (S / 8) + (y * (S / 16) + x))%nat
             = Some ((λ p : Q * Q, [p.1; p.2]) <$> scale_anchors a 1))
        ∧ ((y < S / 32)%nat → (x < S / 32)%nat →
           G !! (S / 8 * (S / 8) + S / 16 * (S / 16) + (y * (S / 32) + x))%nat
           = Some [[qn x; qn y]]
           ∧ St !! (S / 8 * (S / 8) + S / 16 * (S / 16) + (y * (S / 32) + x))%nat
             = Some (replicate (length a / 3) [qn 32; qn 32])
           ∧ Wh !! (S / 8 * (S / 8) + S / 16 * (S / 16) + (y * (S / 32) + x))%nat
             = Some ((λ p : Q * Q, [p.1; p.2]) <$> scale_anchors a 2)).
Proof.
  intros (_ & _ & _ & _ & _ & Hg & Hs & Hw & _)%init_inv.
  do 3 eexists. split; [exact Hg|]. split; [exact Hs|]. split; [exact Hw|].
  intros y x. unfold model_cells.
  destruct (grid_cells_lookup S (scale_anchors a 0) (scale_anchors a 1)
              (scale_anchors a 2) y x) as (L8 & L16 & L32).
  split; [|split]; intros Hy Hx; rewrite !list_lookup_fmap.
  - by rewrite (L8 Hy Hx).
  - by rewrite (L16 Hy Hx).
  - by rewrite (L32 Hy Hx).
Qed.

Lemma create_grid_layout_witness :
  ∃ m, init 32 false (1#100) (3#10) [(10, 13); (16, 30); (33, 23)] = Ok m ∧
  ∃ G St Wh,
    grid_cell m = [G] ∧ stride_tensor m = [St] ∧ all_anchors_wh m = [Wh]
    ∧ ∀ y x,
        ((y < 32 / 8)%nat → (x < 32 / 8)%nat →
         G !! (y * (32 / 8) + x)%nat = Some [[qn x; qn y]]
         ∧ St !! (y * (32 / 8) + x)%nat
           = Some (replicate (length [(10, 13); (16, 30); (33, 23)] / 3) [qn 8; qn 8])
         ∧ Wh !! (y * (32 / 8) + x)%nat
           = Some ((λ p : Q * Q, [p.1; p.2])
                     <$> scale_anchors [(10, 13); (16, 30); (33, 23)] 0))
        ∧ ((y < 32 / 16)%nat → (x < 32 / 16)%nat →
           G !! (32 / 8 * (32 / 8) + (y * (32 / 16) + x))%nat = Some [[qn x; qn y]]
           ∧ St !! (32 / 8 * (32 / 8) + (y * (32 / 16) + x))%nat
             = Some (replicate (length [(10, 13); (16, 30); (33, 23)] / 3)
                       [qn 16; qn 16])
           ∧ Wh !! (32 / 8 * (32 / 8) + (y * (32 / 16) + x))%nat
             = Some ((λ p : Q * Q, [p.1; p.2])
                       <$> scale_anchors [(10, 13); (16, 30); (33, 23)] 1))
        ∧ ((y < 32 / 32)%nat → (x < 32 / 32)%nat →
           G !! (32 / 8 * (32 / 8) + 32 / 16 * (32 / 16) + (y * (32 / 32) + x))%nat
           = Some [[qn x; qn y]]
           ∧ St !! (32 / 8 * (32 / 8) + 32 / 16 * (32 / 16)
                    + (y * (32 / 32) + x))%nat
             = Some (replicate (length [(10, 13); (16, 30); (33, 23)] / 3)
                       [qn 32; qn 32])
           ∧ Wh !! (32 / 8 * (32 / 8) + 32 / 16 * (32 / 16)
                    + (y * (32 / 32) + x))%nat
             = Some ((λ p : Q * Q, [p.1; p.2])
                       <$> scale_anchors [(10, 13); (16, 30); (33, 23)] 2)).
Proof.
  eexists. split; [vm_compute; reflexivity|].
  eapply (create_grid_layout 32 false (1#100) (3#10) [(10, 13); (16, 30); (33, 23)]).
  vm_compute. reflexivity.
Defined.

(** * From the heads to the detections *)

Lemma forward_heads_shape (B A H3 W3 H4 W4 H5 W5 : nat)
    (c3 c4 c5 b3 b4 b5 : tensor4) :
  (0 < B)%nat → (0 < A)%nat → (0 < H3)%nat → (0 < H4)%nat → (0 < H5)%nat →
  shape4 B (A * 1) H3 W3 c3 → shape4 B (A * 1) H4 W4 c4 →
  shape4 B (A * 1) H5 W5 c5 →
  shape4 B (A * 4) H3 W3 b3 → shape4 B (A * 4) H4 W4 b4 →
  shape4 B (A * 4) H5 W5 b5 →
  ∃ conf_pred txtytwth_pred,
    forward_heads B A c3 c4 c5 b3 b4 b5 = Ok (conf_pred, txtytwth_pred)
    ∧ image_shape B (H3 * W3 * A + H4 * W4 * A + H5 * W5 * A) 1 conf_pred
    ∧ image_shape B (H3 * W3 * A + H4 * W4 * A + H5 * W5 * A) 4 txtytwth_pred.
Proof.
  intros HB HA HH3 HH4 HH5 Sc3 Sc4 Sc5 Sb3 Sb4 Sb5.
  destruct (head_rows_layout B A 1 H5 W5 c5 Sc5) as (rc5 & Ec5 & Lc5 & Fc5 & _);
    [lia..|].
  destruct (head_rows_layout B A 4 H5 W5 b5 Sb5) as (rb5 & Eb5 & Lb5 & Fb5 & _);
    [lia..|].
  destruct (head_rows_layout B A 1 H4 W4 c4 Sc4) as (rc4 & Ec4 & Lc4 & Fc4 & _);
    [lia..|].
  destruct (head_rows_layout B A 4 H4 W4 b4 Sb4) as (rb4 & Eb4 & Lb4 & Fb4 & _);
    [lia..|].
  destruct (head_rows_layout B A 1 H3 W3 c3 Sc3) as (rc3 & Ec3 & Lc3 & Fc3 & _);
    [lia..|].
  destruct (head_rows_layout B A 4 H3 W3 b3 Sb3) as (rb3 & Eb3 & Lb3 & Fb3 & _);
    [lia..|].
  destruct (cat_rows_three B (H3 * W3 * A) (H4 * W4 * A) (H5 * W5 * A) 1 rc3 rc4 rc5)
    as (conf & Econf & Sconf & _); [by split..|].
  destruct (cat_rows_three B (H3 * W3 * A) (H4 * W4 * A) (H5 * W5 * A) 4 rb3 rb4 rb5)
    as (bbox & Ebbox & Sbbox & _); [by split..|].
  unfold forward_heads.
  rewrite Ec5, bind_Ok, Eb5, bind_Ok, Ec4, bind_Ok, Eb4, bind_Ok, Ec3, bind_Ok,
    Eb3, bind_Ok, Econf, bind_Ok, Ebbox, bind_Ok.
  by exists conf, bbox.
Qed.

(** X20.  Lines 199-226 of [forward] in one piece, with [HW] bound to the
    number of grid cells: for a detector built for resolution [S] (at least
    32) and head outputs on feature maps of sizes [S // 8], [S // 16] and
    [S // 32], the rows the heads produce are aligned with the grid, the
    decoder and the postprocessing raise nothing, and the detections
    returned have their coordinates in [0,1] and their scores at least
    [conf_thresh]. *)
Theorem forward_inference sigmoid exp S tr c n a m (B : nat)
    (c3 c4 c5 b3 b4 b5 : tensor4) :
  init S tr c n a = Ok m →
  (0 < B)%nat → (0 < length a / 3)%nat → (0 < S / 32)%nat →
  shape4 B (length a / 3 * 1) (S / 8) (S / 8) c3 →
  shape4 B (length a / 3 * 1) (S / 16) (S / 16) c4 →
  shape4 B (length a / 3 * 1) (S / 32) (S / 32) c5 →
  shape4 B (length a / 3 * 4) (S / 8) (S / 8) b3 →
  shape4 B (length a / 3 * 4) (S / 16) (S / 16) b4 →
  shape4 B (length a / 3 * 4) (S / 32) (S / 32) b5 →
  ∃ conf_pred txtytwth_pred bs ss,
    forward_heads B (anchor_number m) c3 c4 c5 b3 b4 b5
    = Ok (conf_pred, txtytwth_pred)
    ∧ forward_test sigmoid exp m
        (S / 8 * (S / 8) + S / 16 * (S / 16) + S / 32 * (S / 32))
        conf_pred txtytwth_pred = Ok (bs, ss)
    ∧ length bs = length ss
    ∧ Forall box_in01 bs
    ∧ Forall (λ s, conf_thresh m <= s) ss.
Proof.
  intros Hi HB HA HS Sc3 Sc4 Sc5 Sb3 Sb4 Sb5.
  pose proof Hi as (_ & _ & _ & _ & HAn & _)%init_inv. rewrite HAn.
  assert (HS32 : (32 ≤ S)%nat).
  { destruct (decide (32 ≤ S)%nat) as [|Hlt]; [done|].
    rewrite Nat.div_small in HS by lia. lia. }
  assert (HS16 : (0 < S / 16)%nat) by (apply Nat.div_str_pos; lia).
  assert (HS8 : (0 < S / 8)%nat) by (apply Nat.div_str_pos; lia).
  destruct (forward_heads_shape B (length a / 3) (S / 8) (S / 8) (S / 16) (S / 16)
              (S / 32) (S / 32) c3 c4 c5 b3 b4 b5)
    as (conf & bbox & E & [Lc Fc] & [Lb Fb]); [done..|].
  set (cells := (S / 8 * (S / 8) + S / 16 * (S / 16) + S / 32 * (S / 32))%nat).
  assert (Hn : (S / 8 * (S / 8) * (length a / 3) + S / 16 * (S / 16) * (length a / 3)
                + S / 32 * (S / 32) * (length a / 3))%nat
               = (cells * (length a / 3))%nat) by (unfold cells; lia).
  rewrite Hn in Fc, Fb.
  destruct conf as [|c0 crest]; [simpl in Lc; lia|].
  destruct bbox as [|rows0 rest]; [simpl in Lb; lia|].
  pose proof Fc as [[Hc0 Hc0r] _]%Forall_cons.
  pose proof Fb as [[Hr0 _] _]%Forall_cons.
  destruct (forward_test_aligned sigmoid exp S tr c n a m c0 crest rows0 rest Hi)
    as (bs & ss & Et & Hlen & Hin & Hth & _).
  - exact Fb.
  - congruence.
  - eapply Forall_impl; [exact Hc0r|]. intros r Hr ->. done.
  - exists (c0 :: crest), (rows0 :: rest), bs, ss. done.
Qed.

Lemma forward_inference_witness :
  ∃ m, init 32 false (1#100) (3#10) [(10, 13); (16, 30); (33, 23)] = Ok m ∧
  ∃ conf_pred txtytwth_pred bs ss,
    forward_heads 1 (anchor_number m)
      [[replicate 4 (replicate 4 1)]] [[replicate 2 (replicate 2 1)]] [[[[1]]]]
      [replicate 4 (replicate 4 (replicate 4 1))]
      [replicate 4 (replicate 2 (replicate 2 1))]
      [replicate 4 [[1]]]
    = Ok (conf_pred, txtytwth_pred)
    ∧ forward_test (λ x, x / 2) (λ x, x * x) m
        (32 / 8 * (32 / 8) + 32 / 16 * (32 / 16) + 32 / 32 * (32 / 32))
        conf_pred txtytwth_pred = Ok (bs, ss)
    ∧ length bs = length ss
    ∧ Forall box_in01 bs
    ∧ Forall (λ s, conf_thresh m <= s) ss.
Proof.
  eexists. split; [vm_compute; reflexivity|].
  eapply (forward_inference (λ x, x / 2) (λ x, x * x) 32 false (1#100) (3#10)
            [(10, 13); (16, 30); (33, 23)] _ 1).
  - vm_compute. reflexivity.
  - lia.
  - simpl. lia.
  - simpl. lia.
  - repeat constructor.
  - repeat constructor.
  - repeat constructor.
  - repeat constructor.
  - repeat constructor.
  - repeat constructor.
Defined.
